(** * Website helper scripts of the Helix fork: a shallow embedding

    Two build-time scripts are modelled:

    - [website/scripts/list-of-themes.js]: loads the theme documents,
      resolves [inherits] with [mergeDeep], computes a fixed set of scopes
      through fallback chains and replaces palette names by palette entries;
    - [website/scripts/termshots.js]: generates the text of an
      [index.astro] barrel file from a directory listing.

    The theme script works on JavaScript objects that are shared and
    mutated in place, so objects live in a heap and values refer to them by
    location.  Every function of the script is a computation in the state
    and error monad [js]. *)

From Stdlib Require Import ZArith String Ascii List Lia.
From stdpp Require Import base list strings.

Set Warnings "-register-all".
Local Open Scope string_scope.
Local Open Scope list_scope.

(** ** JavaScript values and the heap *)

(** Locations are indices into the heap. *)
Abbreviation loc := nat (only parsing).

(** The values a parsed TOML document and this script can hold.  TOML
    integers are [VNum]; floats and dates are outside the model.  Arrays are
    never mutated or compared by identity in these scripts, so they are
    plain values.  [VFun] is a method inherited from [Object.prototype],
    and [VObjectPrototype] is that object itself, which the accessor
    [__proto__] returns. *)
Inductive value : Type :=
| VUndefined
| VBool (b : bool)
| VNum (n : Z)
| VStr (s : string)
| VArr (elems : list value)
| VFun (name : string)
| VObjectPrototype
| VRef (l : loc).

(** An object: its own enumerable properties in insertion order. *)
Definition object := list (string * value).
Abbreviation heap := (list object) (only parsing).

Inductive error := TypeError | Unmodelled | OutOfFuel.

Inductive outcome (A : Type) : Type :=
| Ok (a : A)
| Err (e : error).
Arguments Ok {A} a.
Arguments Err {A} e.

(** Computations that read and write the heap and may throw. *)
Definition js (A : Type) : Type := heap → outcome (A * heap).

#[global] Instance js_ret : MRet js := λ A a h, Ok (a, h).
#[global] Instance js_bind : MBind js := λ A B f m h,
  match m h with
  | Ok (a, h') => f a h'
  | Err e => Err e
  end.

Definition throw {A} (e : error) : js A := λ _, Err e.

(** The value of a computation, the final heap dropped. *)
Definition eval {A} (m : js A) (h : heap) : outcome A :=
  match m h with
  | Ok (a, _) => Ok a
  | Err e => Err e
  end.

(** [for (const x of xs) body(x)] *)
Fixpoint forEach {A} (body : A → js unit) (xs : list A) : js unit :=
  match xs with
  | [] => mret tt
  | x :: xs' => body x;; forEach body xs'
  end.

(** [xs.map(f)] for an [f] with effects, left to right. *)
Fixpoint mapJs {A B} (f : A → js B) (xs : list A) : js (list B) :=
  match xs with
  | [] => mret []
  | x :: xs' => y ← f x; ys ← mapJs f xs'; mret (y :: ys)
  end.

(** [xs.flatMap(f)] *)
Fixpoint flatMapJs {A B} (f : A → js (list B)) (xs : list A) : js (list B) :=
  match xs with
  | [] => mret []
  | x :: xs' => ys ← f x; zs ← flatMapJs f xs'; mret (ys ++ zs)
  end.

(** *** Truthiness, [typeof], own properties *)

(** [!!v] *)
Definition truthy (v : value) : bool :=
  match v with
  | VUndefined => false
  | VBool b => b
  | VNum n => negb (n =? 0)%Z
  | VStr s => negb (String.eqb s EmptyString)
  | VArr _ | VFun _ | VObjectPrototype | VRef _ => true
  end.

(** [typeof v === "string"] *)
Definition is_string (v : value) : bool :=
  match v with VStr _ => true | _ => false end.

Fixpoint own (o : object) (k : string) : option value :=
  match o with
  | [] => None
  | (k', v) :: o' => if String.eqb k' k then Some v else own o' k
  end.

(** [o[k] = v] on the own properties: an existing key keeps its place, a
    new one goes last. *)
Fixpoint put (o : object) (k : string) (v : value) : object :=
  match o with
  | [] => [(k, v)]
  | (k', v') :: o' =>
      if String.eqb k' k then (k', v) :: o' else (k', v') :: put o' k v
  end.

(** The methods of [Object.prototype]. *)
Definition objectPrototype : list string :=
  [ "constructor"; "hasOwnProperty"; "isPrototypeOf"; "propertyIsEnumerable";
    "toLocaleString"; "toString"; "valueOf"; "__defineGetter__";
    "__defineSetter__"; "__lookupGetter__"; "__lookupSetter__" ].

(** What an object with no own property [k] answers for [k]: a method of
    [Object.prototype], the prototype itself for [__proto__], or nothing. *)
Definition inherited (k : string) : option value :=
  if String.eqb k "__proto__" then Some VObjectPrototype
  else if existsb (String.eqb k) objectPrototype then Some (VFun k)
  else None.

(** Reading [k] from an object whose own properties are [o]. *)
Definition lookup_property (o : object) (k : string) : value :=
  match own o k with
  | Some v => v
  | None => default VUndefined (inherited k)
  end.

(** [v[k]].  On [undefined] it throws.  On a primitive, an array or a
    function only the keys [fg] and [bg] are modelled (none of their
    prototypes defines them); [Object.prototype.__proto__] is [null], which
    is no value of the model. *)
Definition getProp (v : value) (k : string) : js value := λ h,
  match v with
  | VUndefined => Err TypeError
  | VRef l =>
      match h !! l with
      | Some o => Ok (lookup_property o k, h)
      | None => Err Unmodelled
      end
  | VObjectPrototype =>
      if String.eqb k "__proto__" then Err Unmodelled
      else Ok (default VUndefined (inherited k), h)
  | _ =>
      if String.eqb k "fg" || String.eqb k "bg" then Ok (VUndefined, h)
      else Err Unmodelled
  end.

(** [v[k] = x] in a module (strict mode): it throws on a primitive.
    Writing [__proto__] where it is no own property runs the inherited
    setter, which replaces the prototype: that is [Unmodelled], and so are
    writes to arrays, functions and [Object.prototype]. *)
Definition setProp (v : value) (k : string) (x : value) : js unit := λ h,
  match v with
  | VRef l =>
      match h !! l with
      | Some o =>
          if String.eqb k "__proto__" && negb (bool_decide (is_Some (own o k)))
          then Err Unmodelled
          else Ok (tt, <[l := put o k x]> h)
      | None => Err Unmodelled
      end
  | VArr _ | VFun _ | VObjectPrototype => Err Unmodelled
  | _ => Err TypeError
  end.

(** An object literal: a fresh object. *)
Definition newObject (o : object) : js value := λ h,
  Ok (VRef (length h), h ++ [o]).

(** The keys [for (const key in v)] visits, for an object [v]: its own
    ones, [Object.prototype] has no enumerable property. *)
Definition ownKeys (v : value) : js (list string) := λ h,
  match v with
  | VRef l =>
      match h !! l with
      | Some o => Ok (map fst o, h)
      | None => Err Unmodelled
      end
  | VObjectPrototype => Ok ([], h)
  | _ => Err Unmodelled
  end.

(** [k in v]: it throws unless [v] is an object. *)
Definition hasProp (k : string) (v : value) : js bool := λ h,
  match v with
  | VRef l =>
      match h !! l with
      | Some o =>
          Ok (bool_decide (is_Some (own o k))
              || bool_decide (is_Some (inherited k)), h)
      | None => Err Unmodelled
      end
  | VObjectPrototype => Ok (bool_decide (is_Some (inherited k)), h)
  | VArr _ | VFun _ => Err Unmodelled
  | _ => Err TypeError
  end.

(** ** The result of [toml.parse] *)

(** A TOML value; a table lists its keys once, in document order. *)
Inductive toml : Type :=
| TStr (s : string)
| TInt (n : Z)
| TBool (b : bool)
| TArr (elems : list toml)
| TTable (fields : list (string * toml)).

(** [toml.parse]: every table becomes a fresh object. *)
Fixpoint parse (t : toml) : js value :=
  match t with
  | TStr s => mret (VStr s)
  | TInt n => mret (VNum n)
  | TBool b => mret (VBool b)
  | TArr elems =>
      vs ← (fix elements (ts : list toml) : js (list value) :=
              match ts with
              | [] => mret []
              | t' :: ts' => v ← parse t'; vs ← elements ts'; mret (v :: vs)
              end) elems;
      mret (VArr vs)
  | TTable fields =>
      o ← (fix members (kts : list (string * toml)) : js object :=
             match kts with
             | [] => mret []
             | (k, t') :: kts' =>
                 v ← parse t'; o ← members kts'; mret ((k, v) :: o)
             end) fields;
      newObject o
  end.

Module ListOfThemes.

(** ** [list-of-themes.js]: utilities *)

(** [isObject(item)], read as a condition. *)
Definition isObject (item : value) : bool :=
  match item with VRef _ | VObjectPrototype => true | _ => false end.

(** [mergeDeep(target, ...sources)].  The recursion follows the objects of
    the heap, so it is bounded by [fuel]: one unit per call. *)
Fixpoint mergeDeep (fuel : nat) (target : value) (sources : list value)
  : js value :=
  match fuel with
  | O => throw OutOfFuel
  | S fuel' =>
      match sources with
      | [] => mret target
      | source :: sources' =>
          (if isObject target && isObject source then
             keys ← ownKeys source;
             forEach (λ key,
               sk ← getProp source key;
               if isObject sk then
                 tk ← getProp target key;
                 if negb (truthy tk) then
                   fresh ← newObject [];
                   setProp target key fresh;;
                   tk' ← getProp target key;
                   sk' ← getProp source key;
                   mergeDeep fuel' tk' [sk'];;
                   mret tt
                 else
                   sk' ← getProp source key;
                   setProp target key sk'
               else mret tt) keys
           else mret tt);;
          mergeDeep fuel' target sources'
      end
  end.

(** ** The theme files *)

(** [s.endsWith(suffix)] *)
Definition endsWith (s suffix : string) : bool :=
  (String.length suffix <=? String.length s)%nat
  && String.eqb
       (substring (String.length s - String.length suffix)
                  (String.length suffix) s)
       suffix.

(** The elements of the set [base16themes]. *)
Definition base16themes : list string :=
  [ "ttox.toml"; "base16_theme.toml"; "base16_default_dark.toml";
    "base16_default_light.toml"; "base16_terminal.toml";
    "base16_transparent.toml"; "term16_dark.toml"; "term16_light.toml" ].

(** The test of the [filter] over the directory listing. *)
Definition isThemeFile (themePath : string) : bool :=
  endsWith themePath ".toml"
  && negb (existsb (String.eqb themePath) base16themes).

(** [themesPaths], from what [readdirSync(themesDirectory)] lists. *)
Definition themesPaths (themesDirectory defaultHelixThemePath : string)
    (listing : list string) : list string :=
  map (λ themePath, themesDirectory +:+ "/" +:+ themePath)
      (List.filter isThemeFile listing)
  ++ [defaultHelixThemePath].

(** [s.split("/")]: the pieces between the slashes, never an empty list. *)
Fixpoint split_slash (s : string) : list string :=
  match s with
  | EmptyString => [EmptyString]
  | String c s' =>
      if Ascii.eqb c "/" then EmptyString :: split_slash s'
      else
        match split_slash s' with
        | piece :: pieces => String c piece :: pieces
        | [] => [String c EmptyString]
        end
  end.

(** [themePath.split("/").pop().slice(0, -5)]: the name a theme gets in
    [unmergedThemes]. *)
Definition themeName (themePath : string) : string :=
  let file := List.last (split_slash themePath) EmptyString in
  substring 0 (String.length file - 5) file.

(** [setIntersection(a, b)], a set being the list of its elements in
    insertion order.  [new Set(xs)] keeps the first of equal elements. *)
Definition newSet (xs : list string) : list string :=
  fold_left (λ set x, if existsb (String.eqb x) set then set else set ++ [x])
            xs [].

Definition setIntersection (a b : list string) : list string :=
  newSet (List.filter (λ element, existsb (String.eqb element) b) a).

(** ** Loading and inheritance *)

(** [unmergedThemes]: one [(name, document)] pair per theme file, the
    document parsed into the heap.  Reading the directory and the files is
    outside the model: the file names, already stripped of [.toml], and the
    parsed contents are the input. *)
Definition unmergedThemes (files : list (string * toml))
  : js (list (string * value)) :=
  mapJs (λ '(themeName, t), theme ← parse t; mret (themeName, theme)) files.

(** [themeMap.get(key)] for [themeMap = new Map(unmergedThemes)]: of two
    entries with one name the later one is kept; a key that is no string
    matches no entry. *)
Definition themeMap_get (entries : list (string * value)) (key : value)
  : value :=
  fold_left (λ found '(name, theme),
               match key with
               | VStr s => if String.eqb name s then theme else found
               | _ => found
               end) entries VUndefined.

(** [resolveInheritedTheme([themeName, theme])] *)
Definition resolveInheritedTheme (fuel : nat)
    (themeMap : list (string * value)) (entry : string * value)
  : js (string * value) :=
  let '(themeName, theme) := entry in
  inheriting ← hasProp "inherits" theme;
  if inheriting : bool then
    inherits ← getProp theme "inherits";
    let inheritedTheme := themeMap_get themeMap inherits in
    merged ← mergeDeep fuel inheritedTheme [theme];
    result ← mergeDeep fuel inheritedTheme [theme];
    mret (themeName, result)
  else mret (themeName, theme).

(** [themes]: the resolution pass, applied twice over the whole list. *)
Definition themes (fuel : nat) (unmerged : list (string * value))
  : js (list (string * value)) :=
  once ← mapJs (resolveInheritedTheme fuel unmerged) unmerged;
  mapJs (resolveInheritedTheme fuel unmerged) once.

(** ** Normalization: the scopes of one theme *)

Section Scopes.

(** The callback of [flatMap] closes over the theme document and over the
    [background] object it builds first. *)
Variable theme : value.
Variable background : value.

(** [getColor(key, fallback)]; [fallback] runs only when it is called. *)
Definition getColor (key : string) (fallback : js value) : js value :=
  value ← getProp theme key;
  if is_string value then newObject [("fg", value)]
  else if negb (truthy value) then fallback
  else mret value.

(** [getFallbackColor(primaryKey, fallbackFn)] *)
Definition getFallbackColor (primaryKey : string) (fallbackFn : js value)
  : js value :=
  value ← getProp theme primaryKey;
  if is_string value then newObject [("fg", value)]
  else if negb (truthy value) then fallbackFn
  else mret value.

(** [() => background.fg] *)
Definition backgroundFg : js value := getProp background "fg".

Definition getUiBackground : js value := mret background.
Definition getVariable : js value := getColor "variable" backgroundFg.
Definition getFunction : js value := getFallbackColor "function" getVariable.
Definition getMacro : js value :=
  getFallbackColor "function.macro" getFunction.
Definition getKeyword : js value := getFallbackColor "keyword" getVariable.
Definition getUiLinenr : js value := getColor "ui.linenr" backgroundFg.
Definition getHighlight : js value := getColor "ui.highlight" getUiBackground.
Definition getUiLinenrSelected : js value :=
  getFallbackColor "ui.linenr.selected" getHighlight.
Definition getOperator : js value := getColor "operator" backgroundFg.
Definition getPunctuation : js value := getColor "punctuation" backgroundFg.
Definition getConstant : js value := getFallbackColor "constant" getVariable.
Definition getConstantNumeric : js value :=
  getFallbackColor "constant.numeric" getConstant.
Definition getPunctuationDelimiter : js value :=
  getFallbackColor "punctuation.delimiter" getPunctuation.
Definition getVariableParameter : js value :=
  getFallbackColor "variable.parameter" getVariable.
Definition getComment : js value := getColor "comment" backgroundFg.
Definition getType : js value := getFallbackColor "type" getVariable.
Definition getTypeBuiltin : js value :=
  getFallbackColor "type.builtin" getType.

Definition getUiStatusline : js value :=
  uiStatusline ← getProp theme "ui.statusline";
  if negb (truthy uiStatusline) then newObject []
  else
    fg ← getProp uiStatusline "fg";
    fg ← (if truthy fg then mret fg else getProp background "fg");
    bg ← getProp uiStatusline "bg";
    bg ← (if truthy bg then mret bg else getProp background "bg");
    newObject [("fg", fg); ("bg", bg)].

Definition getUiCursorline : js value :=
  getFallbackColor "ui.cursorline" getHighlight.
Definition getUiCursorlinePrimary : js value :=
  getFallbackColor "ui.cursorline.primary" getUiCursorline.
Definition getUiVirtualInlayHint : js value :=
  getColor "ui.virtual.inlay-hint" backgroundFg.
Definition getUiVirtual : js value :=
  getFallbackColor "ui.virtual" getUiVirtualInlayHint.
Definition getUiCursor : js value :=
  getFallbackColor "ui.cursor.primary" backgroundFg.
Definition getUiVirtualIndentGuide : js value :=
  getFallbackColor "ui.virtual.indent-guide" getUiVirtualInlayHint.
Definition getUiVirtualRuler : js value :=
  getFallbackColor "ui.virtual.ruler" getUiVirtualIndentGuide.

(** The object literal of scopes: its keys in order, each with the getter
    that computes it. *)
Definition scopeGetters : list (string * js value) :=
  [ ("ui.background", getUiBackground);
    ("keyword", getKeyword);
    ("variable", getVariable);
    ("variable.parameter", getVariableParameter);
    ("ui.statusline", getUiStatusline);
    ("ui.linenr", getUiLinenr);
    ("function", getFunction);
    ("function.macro", getMacro);
    ("operator", getOperator);
    ("punctuation", getPunctuation);
    ("punctuation.delimiter", getPunctuationDelimiter);
    ("constant", getConstant);
    ("constant.numeric", getConstantNumeric);
    ("comment", getComment);
    ("type.builtin", getTypeBuiltin);
    ("ui.cursorline.primary", getUiCursorlinePrimary);
    ("ui.linenr.selected", getUiLinenrSelected);
    ("ui.virtual.ruler", getUiVirtualRuler);
    ("ui.virtual", getUiVirtual);
    ("ui.cursor", getUiCursor) ].

End Scopes.

(** [const background = { bg: ..., fg: ... || "#ffaaaa" }] *)
Definition makeBackground (theme : value) : js value :=
  uiBackground ← getProp theme "ui.background";
  bg ← getProp uiBackground "bg";
  uiBackground' ← getProp theme "ui.background";
  fg ← getProp uiBackground' "fg";
  newObject [("bg", bg); ("fg", if truthy fg then fg else VStr "#ffaaaa")].

(** A scope map: the entries of an object that nothing else refers to. *)
Definition scopes := list (string * value).

(** The callback of [flatMap] for the one theme it keeps: the triple
    [[themeName, theme.palette, { ... }]]. *)
Definition resolveScopes (themeName : string) (theme : value)
  : js (string * value * scopes) :=
  background ← makeBackground theme;
  palette ← getProp theme "palette";
  resolved ← mapJs (λ '(scope, getter), color ← getter; mret (scope, color))
                   (scopeGetters theme background);
  mret (themeName, palette, resolved).

Definition isHex (s : string) : bool := String.prefix "#" s.

(** One channel of the palette step:
    [if (typeof color.fg === "string") if (!isHex(color.fg))
       color.fg = palette[color.fg]].
    The script reads [color.fg] up to three times with no write in between;
    it is read once here. *)
Definition normalizeChannel (palette color : value) (channel : string)
  : js unit :=
  c ← getProp color channel;
  match c with
  | VStr name =>
      if negb (isHex name) then
        entry ← getProp palette name;
        setProp color channel entry
      else mret tt
  | _ => mret tt
  end.

(** The callback over [Object.entries(theme)]. *)
Definition normalizeColor (palette : value) (entry : string * value)
  : js (string * value) :=
  let '(scope, color) := entry in
  normalizeChannel palette color "fg";;
  normalizeChannel palette color "bg";;
  mret (scope, color).

(** The palette step on one resolved theme. *)
Definition normalizePalette (resolved : string * value * scopes)
  : js scopes :=
  let '(name, palette, theme) := resolved in
  mapJs (normalizeColor palette) theme.

(** [parsedThemes] up to the call of [themeToHtml]: the scope maps the
    renderer receives.  The template itself only reads them. *)
Definition parsedThemes (themes : list (string * value))
  : js (list scopes) :=
  kept ← flatMapJs (λ '(themeName, theme),
            if negb (String.eqb themeName "catppuccin_mocha") then mret []
            else r ← resolveScopes themeName theme; mret [r]) themes;
  mapJs normalizePalette kept.

(** What the template reads: [theme[scope].channel]. *)
Definition channelOf (theme : scopes) (scope channel : string) : js value :=
  match own theme scope with
  | Some color => getProp color channel
  | None => throw TypeError
  end.

End ListOfThemes.

Module Termshots.

(** ** [termshots.js] *)

(** File names are strings of bytes here and of UTF-16 units in the
    script; the two agree on ASCII names. *)

Definition newline : string := String (ascii_of_nat 10) EmptyString.
Definition tab : string := String (ascii_of_nat 9) EmptyString.
Definition quote : string := String (ascii_of_nat 34) EmptyString.

(** [file.slice(0, -6)] *)
Definition slice_0_minus6 (file : string) : string :=
  substring 0 (String.length file - 6) file.

(** [generateFileContents(files, contentGenerator)] *)
Definition generateFileContents (files : list string)
    (contentGenerator : string → string → string) : string :=
  fold_left (λ contents file,
               if String.eqb file "index.astro" then contents
               else
                 let baseName := slice_0_minus6 file in
                 contents +:+ newline +:+ contentGenerator baseName file)
            files EmptyString.

Definition disclaimer : string :=
  "/*" +:+ newline +:+
  " * This file was generated by `pnpm termshots`" +:+ newline +:+
  " */".

Definition importStatements (filesInFolder : list string) : string :=
  generateFileContents filesInFolder
    (λ baseName fileName,
       "import " +:+ baseName +:+ " from " +:+ quote +:+ "./" +:+ fileName
       +:+ quote +:+ ";").

Definition exportedObject (filesInFolder : list string) : string :=
  generateFileContents filesInFolder (λ baseName _, tab +:+ baseName +:+ ",").

Definition indexAstroContent (filesInFolder : list string) : string :=
  "---" +:+ newline +:+
  disclaimer +:+ newline +:+
  importStatements filesInFolder +:+ newline +:+
  newline +:+
  "export const T = {" +:+ exportedObject filesInFolder +:+ newline +:+
  "};" +:+ newline +:+
  "---".

(** A folder: its files in the order [readdirSync] lists them, each with
    its content. *)
Definition folder := list (string * string).

(** [fs.writeFileSync(path, content)]: the file is replaced, or created.
    Where a new file shows up in the listing is the file system's choice;
    here it is listed last. *)
Fixpoint writeFileSync (name content : string) (d : folder) : folder :=
  match d with
  | [] => [(name, content)]
  | (name', content') :: d' =>
      if String.eqb name' name then (name', content) :: d'
      else (name', content') :: writeFileSync name content d'
  end.

(** The body of [termshotFolders.forEach] for a folder that is a
    directory. *)
Definition generateIndex (d : folder) : folder :=
  let filesInFolder := map fst d in
  writeFileSync "index.astro" (indexAstroContent filesInFolder) d.

End Termshots.

Import ListOfThemes Termshots.

(** ** Reading results *)

(** [v[k1][k2]...] *)
Fixpoint getPath (v : value) (path : list string) : js value :=
  match path with
  | [] => mret v
  | k :: path' => x ← getProp v k; getPath x path'
  end.

(** The document of the entry called [name] in a list of themes. *)
Definition themeNamed (entries : list (string * value)) (name : string)
  : value :=
  default VUndefined (own entries name).

(** ** Example documents *)

Definition colorPair (fg bg : string) : toml :=
  TTable [("fg", TStr fg); ("bg", TStr bg)].

(** A parent and a child that overrides one string scope and one table. *)
Definition parentDoc : toml :=
  TTable [ ("keyword", TStr "#00ff00");
           ("type", colorPair "#111111" "#222222");
           ("comment", colorPair "#333333" "#444444") ].

Definition childDoc : toml :=
  TTable [ ("inherits", TStr "parent");
           ("keyword", TStr "#ff0000");
           ("type", TTable [("fg", TStr "#999999")]) ].

Definition parentAndChild : list (string * toml) :=
  [("parent", parentDoc); ("child", childDoc)].

(** A chain [a] inherits [b] inherits [c], and a sibling [d] of [b]. *)
Definition chainA : toml :=
  TTable [("inherits", TStr "b"); ("keyword", colorPair "#a0a0a0" "#a1a1a1")].
Definition chainB : toml :=
  TTable [("inherits", TStr "c"); ("type", colorPair "#b0b0b0" "#b1b1b1")].
Definition chainC : toml :=
  TTable [("comment", colorPair "#c0c0c0" "#c1c1c1")].
Definition siblingD : toml :=
  TTable [("inherits", TStr "c"); ("comment", colorPair "#d0d0d0" "#d1d1d1")].

Definition chainOnly : list (string * toml) :=
  [("a", chainA); ("b", chainB); ("c", chainC)].
Definition chainWithSibling : list (string * toml) :=
  [("a", chainA); ("b", chainB); ("c", chainC); ("d", siblingD)].

(** The example theme of the specification. *)
Definition exampleTheme : toml :=
  TTable [ ("ui.background",
              TTable [("bg", TStr "#111111"); ("fg", TStr "#eeeeee")]);
           ("keyword", TStr "#ff0000");
           ("palette", TTable []) ].

(** A theme that names a colour its palette does not define. *)
Definition missingKeyTheme : toml :=
  TTable [ ("ui.background", colorPair "#eeeeee" "#111111");
           ("keyword", TStr "mauve");
           ("palette", TTable [("text", TStr "#cdd6f4")]) ].

(** A theme that sets [ui.cursor] and not [ui.cursor.primary]. *)
Definition cursorTheme : toml :=
  TTable [ ("ui.background", colorPair "#eeeeee" "#111111");
           ("ui.cursor", TStr "#123456");
           ("ui.highlight", colorPair "#654321" "#222222");
           ("palette", TTable []) ].

(** The scope maps the renderer receives for the theme files [files]. *)
Definition rendered (fuel : nat) (files : list (string * toml))
  : js (list scopes) :=
  unmerged ← unmergedThemes files;
  resolved ← themes fuel unmerged;
  parsedThemes resolved.

(** ** Fuel *)

(** [m2] returns whatever [m1] returns. *)
Definition agrees {A} (m1 m2 : js A) : Prop :=
  ∀ h r, m1 h = Ok r → m2 h = Ok r.


(** ** Observations on the example documents *)

(** The child of [parentAndChild] after [resolveInheritedTheme]: its
    [keyword], [type.fg] and [type.bg]. *)
Definition resolvedChild (fuel : nat) : js (value * value * value) :=
  unmerged ← unmergedThemes parentAndChild;
  '(_, doc) ← resolveInheritedTheme fuel unmerged
                 ("child", themeNamed unmerged "child");
  keyword ← getProp doc "keyword";
  fg ← getPath doc ["type"; "fg"];
  bg ← getPath doc ["type"; "bg"];
  mret (keyword, fg, bg).

(** [type.fg] and [type.bg] of the parent document held by the theme map,
    before and after the child is resolved. *)
Definition parentAroundResolution (fuel : nat)
  : js (value * value * value * value) :=
  unmerged ← unmergedThemes parentAndChild;
  let parent := themeMap_get unmerged (VStr "parent") in
  fg ← getPath parent ["type"; "fg"];
  bg ← getPath parent ["type"; "bg"];
  resolveInheritedTheme fuel unmerged ("child", themeNamed unmerged "child");;
  fg' ← getPath parent ["type"; "fg"];
  bg' ← getPath parent ["type"; "bg"];
  mret (fg, bg, fg', bg').

(** [comment.fg] of theme [a] after the two passes over [files]. *)
Definition commentOfA (fuel : nat) (files : list (string * toml)) : js value :=
  unmerged ← unmergedThemes files;
  resolved ← themes fuel unmerged;
  getPath (themeNamed resolved "a") ["comment"; "fg"].

(** The scope [scope] of the first rendered theme, and its [fg]. *)
Definition scopeAndFg (rendered : list scopes) (scope : string)
  : js (value * value) :=
  match rendered with
  | theme :: _ =>
      match own theme scope with
      | Some color => fg ← getProp color "fg"; mret (color, fg)
      | None => throw TypeError
      end
  | [] => throw TypeError
  end.

(** The scopes of the specification's example as the renderer gets them. *)
Definition exampleScopes (fuel : nat)
  : js (value * (value * value) * (value * value) * (value * value)) :=
  maps ← rendered fuel [("catppuccin_mocha", exampleTheme)];
  '(_, keyword) ← scopeAndFg maps "keyword";
  variable ← scopeAndFg maps "variable";
  function ← scopeAndFg maps "function";
  macro ← scopeAndFg maps "function.macro";
  mret (keyword, variable, function, macro).

(** ** The palette step, as a function on channel values *)

(** What the palette step makes of a channel whose value is [c], for a
    palette with own properties [po]. *)
Definition normalized (po : object) (c : value) : value :=
  match c with
  | VStr name => if isHex name then c else lookup_property po name
  | _ => c
  end.

(** A [#] literal. *)
Definition hexLiteral (v : value) : Prop :=
  ∃ s, v = VStr s ∧ isHex s = true.

(** A channel the palette step can settle: absent, a [#] literal, or a
    name whose palette entry is a [#] literal. *)
Definition resolvableChannel (po : object) (v : value) : Prop :=
  v = VUndefined ∨ hexLiteral v
  ∨ ∃ name, v = VStr name ∧ isHex name = false
            ∧ hexLiteral (lookup_property po name).

(** A channel that is absent or a [#] literal. *)
Definition settledChannel (v : value) : Prop :=
  v = VUndefined ∨ hexLiteral v.

(** A scope colour the palette step can settle.  A colour that is no
    object has no channels; an object is not the palette itself. *)
Definition resolvableColor (h : heap) (lp : loc) (po : object) (c : value)
  : Prop :=
  match c with
  | VUndefined => False
  | VRef l =>
      l ≠ lp
      ∧ ∃ o, h !! l = Some o
             ∧ resolvableChannel po (lookup_property o "fg")
             ∧ resolvableChannel po (lookup_property o "bg")
  | _ => True
  end.

Definition settledColor (h : heap) (c : value) : Prop :=
  match c with
  | VRef l =>
      ∃ o, h !! l = Some o
           ∧ settledChannel (lookup_property o "fg")
           ∧ settledChannel (lookup_property o "bg")
  | _ => True
  end.

(** The keyword scope of the one rendered theme of [files]: its [fg] and
    [bg]. *)
Definition keywordChannels (fuel : nat) (files : list (string * toml))
  : js (value * value) :=
  maps ← rendered fuel files;
  '(keyword, fg) ← scopeAndFg maps "keyword";
  bg ← getProp keyword "bg";
  mret (fg, bg).

(** Both channels of an object can be settled, or are settled. *)
Definition resolvableObject (po o : object) : Prop :=
  resolvableChannel po (lookup_property o "fg")
  ∧ resolvableChannel po (lookup_property o "bg").

Definition settledObject (o : object) : Prop :=
  settledChannel (lookup_property o "fg")
  ∧ settledChannel (lookup_property o "bg").

(** From [h] to [h']: the palette is in place, and every other object is
    still there, still resolvable if it was, still settled if it was. *)
Definition settlesTo (lp : loc) (po : object) (h h' : heap) : Prop :=
  h' !! lp = Some po
  ∧ ∀ l o, l ≠ lp → h !! l = Some o →
      ∃ o', h' !! l = Some o'
            ∧ (resolvableObject po o → resolvableObject po o')
            ∧ (settledObject o → settledObject o').

(** ** Scope getters on a growing heap *)

(** [m] returns on every heap that extends [h0], and only adds objects. *)
Definition allocates (h0 : heap) (m : js value) : Prop :=
  ∀ h, h0 `prefix_of` h → ∃ v h', m h = Ok (v, h') ∧ h `prefix_of` h'.

(** A value that refers to no missing object. *)
Definition valid (h : heap) (v : value) : Prop :=
  match v with
  | VRef l => is_Some (h !! l)
  | _ => True
  end.

(** How a resolved scope relates to its getter: same key, and the colour
    is what the getter returned on some heap between [hb] and [hf]. *)
Definition resolvedBy (hb hf : heap) (getter : string * js value)
    (entry : string * value) : Prop :=
  entry.1 = getter.1
  ∧ ∃ h1 h2, hb `prefix_of` h1 ∧ getter.2 h1 = Ok (entry.2, h2)
             ∧ h2 `prefix_of` hf.

(** The [ui.cursor] scope of the one rendered theme of [files], and its
    [fg]. *)
Definition cursorScope (fuel : nat) (files : list (string * toml))
  : js (value * value) :=
  maps ← rendered fuel files;
  scopeAndFg maps "ui.cursor".

(** A heap with one theme (object 1) that sets [ui.cursor.primary], and
    its [ui.background] pair (object 0). *)
Definition cursorPrimaryHeap : heap :=
  [ [("bg", VStr "#111111"); ("fg", VStr "#eeeeee")];
    [("ui.background", VRef 0); ("ui.cursor", VStr "#123456");
     ("ui.cursor.primary", VStr "#f5e0dc")] ].

(** A heap with one theme (object 1) whose [ui.background] (object 0) has
    no [fg]. *)
Definition noForegroundHeap : heap :=
  [ [("bg", VStr "#1e1e2e")];
    [("ui.background", VRef 0); ("palette", VRef 2)];
    [] ].

(** The scopes that fall back to the background foreground, each with the
    theme keys its getters consult, in order. *)
Definition foregroundChains : list (string * list string) :=
  [ ("keyword", ["keyword"; "variable"]);
    ("variable", ["variable"]);
    ("variable.parameter", ["variable.parameter"; "variable"]);
    ("ui.linenr", ["ui.linenr"]);
    ("function", ["function"; "variable"]);
    ("function.macro", ["function.macro"; "function"; "variable"]);
    ("operator", ["operator"]);
    ("punctuation", ["punctuation"]);
    ("punctuation.delimiter", ["punctuation.delimiter"; "punctuation"]);
    ("constant", ["constant"; "variable"]);
    ("constant.numeric", ["constant.numeric"; "constant"; "variable"]);
    ("comment", ["comment"]);
    ("type.builtin", ["type.builtin"; "type"; "variable"]);
    ("ui.virtual.ruler",
       ["ui.virtual.ruler"; "ui.virtual.indent-guide";
        "ui.virtual.inlay-hint"]);
    ("ui.virtual", ["ui.virtual"; "ui.virtual.inlay-hint"]);
    ("ui.cursor", ["ui.cursor.primary"]) ].

(** A theme value that makes a getter call its fallback: no string, and
    falsy. *)
Definition omitted (v : value) : Prop :=
  is_string v = false ∧ truthy v = false.

(** ** The effect of [mergeDeep] on the heap *)

(** The body of the [for ... in] loop of [mergeDeep], with the recursive
    call as a parameter. *)
Definition mergeKey (rec : value → list value → js value)
    (target source : value) (key : string) : js unit :=
  sk ← getProp source key;
  if isObject sk then
    tk ← getProp target key;
    if negb (truthy tk) then
      fresh ← newObject [];
      setProp target key fresh;;
      tk' ← getProp target key;
      sk' ← getProp source key;
      rec tk' [sk'];;
      mret tt
    else
      sk' ← getProp source key;
      setProp target key sk'
  else mret tt.

(** From [o] to [o'] every property is either kept or now holds an
    object. *)
Definition writesObjects (o o' : object) : Prop :=
  ∀ k, lookup_property o' k = lookup_property o k
       ∨ isObject (lookup_property o' k) = true.

(** From [h] to [h'] the heap only grew, every object other than [target]
    is as it was, and [target] only had objects written into it. *)
Definition mergeEffect (target : value) (h h' : heap) : Prop :=
  (length h ≤ length h')%nat
  ∧ (∀ l o, h !! l = Some o → target ≠ VRef l → h' !! l = Some o)
  ∧ (∀ l o, target = VRef l → h !! l = Some o →
       ∃ o', h' !! l = Some o' ∧ writesObjects o o').

(** [k] is an own key of [o] that holds an object: a nested table. *)
Definition tableKey (o : object) (k : string) : Prop :=
  ∃ x, own o k = Some x ∧ isObject x = true.

(** The target [o] of a merge of the source [os] into the object that was
    [ot]: only objects were written, and only under table keys of the
    source. *)
Definition mergedInto (ot os o : object) : Prop :=
  writesObjects ot o
  ∧ ∀ k, ¬ tableKey os k → lookup_property o k = lookup_property ot k.

(** Key [k] has been merged: if it is a table key of the source, the
    target holds an object under it, the source's own one if the target had
    a truthy value there. *)
Definition keyMerged (ot os o : object) (k : string) : Prop :=
  tableKey os k →
  isObject (lookup_property o k) = true
  ∧ (truthy (lookup_property ot k) = true →
     lookup_property o k = lookup_property os k).

(** A heap for examples of merging: a parent (object 0) with a string
    scope, a table scope (object 1) and a falsy scope; a child (object 2)
    that inherits it and holds a string and two tables (objects 3, 4). *)
Definition familyHeap : heap :=
  [ [("keyword", VStr "#00ff00"); ("type", VRef 1); ("comment", VBool false)];
    [("fg", VStr "#111111"); ("bg", VStr "#222222")];
    [("inherits", VStr "parent"); ("keyword", VStr "#ff0000");
     ("type", VRef 3); ("comment", VRef 4)];
    [("fg", VStr "#999999")];
    [("fg", VStr "#333333")] ].

Definition familyMap : list (string * value) :=
  [("parent", VRef 0); ("child", VRef 2)].

(** A heap with one theme (object 0) that inherits a theme nobody
    loaded. *)
Definition orphanHeap : heap :=
  [ [("inherits", VStr "nowhere"); ("keyword", VStr "#ff0000")] ].

(** A theme document that is an object of [h] with no [inherits]. *)
Definition plainTheme (h : heap) (entry : string * value) : Prop :=
  ∃ l doc, entry.2 = VRef l ∧ h !! l = Some doc
           ∧ own doc "inherits" = None.

(** The scopes computed by [getColor] or [getFallbackColor], each with the
    theme key its getter reads first. *)
Definition scopeKeys : list (string * string) :=
  [ ("keyword", "keyword");
    ("variable", "variable");
    ("variable.parameter", "variable.parameter");
    ("ui.linenr", "ui.linenr");
    ("function", "function");
    ("function.macro", "function.macro");
    ("operator", "operator");
    ("punctuation", "punctuation");
    ("punctuation.delimiter", "punctuation.delimiter");
    ("constant", "constant");
    ("constant.numeric", "constant.numeric");
    ("comment", "comment");
    ("type.builtin", "type.builtin");
    ("ui.cursorline.primary", "ui.cursorline.primary");
    ("ui.linenr.selected", "ui.linenr.selected");
    ("ui.virtual.ruler", "ui.virtual.ruler");
    ("ui.virtual", "ui.virtual");
    ("ui.cursor", "ui.cursor.primary") ].

(** The scopes that fall back to the whole background pair, each with the
    theme keys its getters consult, in order. *)
Definition backgroundChains : list (string * list string) :=
  [ ("ui.cursorline.primary",
       ["ui.cursorline.primary"; "ui.cursorline"; "ui.highlight"]);
    ("ui.linenr.selected", ["ui.linenr.selected"; "ui.highlight"]) ].

(** A heap with one theme (object 2) that gives [keyword] as a string,
    [function] as a table (object 1) and [ui.statusline] as a table with
    only [bg] (object 3); its [ui.background] is object 0. *)
Definition scopesHeap : heap :=
  [ [("bg", VStr "#1e1e2e"); ("fg", VStr "#cdd6f4")];
    [("fg", VStr "#89b4fa")];
    [("ui.background", VRef 0); ("keyword", VStr "#cba6f7");
     ("function", VRef 1); ("ui.statusline", VRef 3)];
    [("bg", VStr "#181825")] ].

(** ** The palette step: which colours use the palette *)

(** The channel value is a string that does not begin with [#]. *)
Definition needsPalette (v : value) : bool :=
  match v with
  | VStr name => negb (isHex name)
  | _ => false
  end.

(** The colour is an object of [h] one of whose channels needs the
    palette. *)
Definition wantsPalette (h : heap) (c : value) : bool :=
  match c with
  | VRef l =>
      match h !! l with
      | Some o =>
          needsPalette (lookup_property o "fg")
          || needsPalette (lookup_property o "bg")
      | None => false
      end
  | _ => false
  end.

(** A scope colour as [resolveScopes] produces them: defined, and no
    reference to a missing object. *)
Definition properColor (h : heap) (entry : string * value) : Prop :=
  entry.2 ≠ VUndefined ∧ valid h entry.2.

(** A heap with a palette (object 0), a colour with a named [fg]
    (object 1) and a colour with literal channels (object 2). *)
Definition paletteHeap : heap :=
  [ [("mauve", VStr "#cba6f7")];
    [("fg", VStr "mauve")];
    [("fg", VStr "#89b4fa"); ("bg", VStr "#1e1e2e")] ].

(** ** Generated text, line by line *)

(** The strings of a list, one after the other. *)
Definition joined (parts : list string) : string :=
  foldr String.append EmptyString parts.

(** ** File names *)

(** The string contains a slash. *)
Fixpoint hasSlash (s : string) : bool :=
  match s with
  | EmptyString => false
  | String c s' => Ascii.eqb c "/" || hasSlash s'
  end.

(** The file name without its last five characters. *)
Definition stem (file : string) : string :=
  substring 0 (String.length file - 5) file.

(** ** What the renderer can read *)

(** Whatever [m] returns on a heap that extends [h0] is defined and
    refers to no missing object. *)
Definition proper (h0 : heap) (m : js value) : Prop :=
  ∀ h v h', h0 `prefix_of` h → m h = Ok (v, h') →
            v ≠ VUndefined ∧ valid h' v.

(** The keys of the scope map, in the order of the object literal. *)
Definition scopeNames : list string :=
  [ "ui.background"; "keyword"; "variable"; "variable.parameter";
    "ui.statusline"; "ui.linenr"; "function"; "function.macro"; "operator";
    "punctuation"; "punctuation.delimiter"; "constant"; "constant.numeric";
    "comment"; "type.builtin"; "ui.cursorline.primary"; "ui.linenr.selected";
    "ui.virtual.ruler"; "ui.virtual"; "ui.cursor" ].

(** ** Documents on which [mergeDeep] returns *)

(** Following properties from [v], every object met within [d] steps is an
    object of [h] other than [avoid] that owns no [__proto__], and there is
    no object further down.  A parsed document is such a tree. *)
Fixpoint tree (d : nat) (h : heap) (avoid : loc) (v : value) : Prop :=
  match d with
  | O => isObject v = false
  | S d' =>
      match v with
      | VRef l =>
          l ≠ avoid
          ∧ ∃ o, h !! l = Some o
                 ∧ Forall (λ kv, kv.1 ≠ "__proto__" ∧ tree d' h avoid kv.2) o
      | _ => True
      end
  end.

(** ** The palette step over the whole scope map *)

(** The colour [c] is the object [l]. *)
Definition holds (l : loc) (c : value) : bool :=
  match c with
  | VRef l' => Nat.eqb l' l
  | _ => false
  end.

(** How many scopes of [theme] have the object [l] as their colour: the
    number of times the callback of the palette step is given [l]. *)
Definition visits (theme : scopes) (l : loc) : nat :=
  length (List.filter (λ entry, holds l entry.2) theme).

(** A scope colour the palette step can be run on: it is defined, and if
    it is an object, it is an object of [h] other than the palette. *)
Definition paletteColour (h : heap) (lp : loc) (c : value) : Prop :=
  match c with
  | VUndefined => False
  | VRef l => l ≠ lp ∧ is_Some (h !! l)
  | _ => True
  end.



(** ** The monad *)

Lemma bind_run {A B} (m : js A) (f : A → js B) (h : heap) :
  (m ≫= f) h = match m h with Ok (a, h') => f a h' | Err e => Err e end.
Proof. reflexivity. Qed.

Lemma ret_run {A} (a : A) (h : heap) : (mret a : js A) h = Ok (a, h).
Proof. reflexivity. Qed.

(** ** C3: a document without [inherits] *)

(** C3.  For every theme document with no [inherits] field,
    [resolveInheritedTheme] returns the [(name, document)] pair it was
    given and leaves every object of the heap as it was. *)
Theorem resolveInheritedTheme_without_inherits
    (fuel : nat) (themeMap : list (string * value)) (themeName : string)
    (l : loc) (doc : object) (h : heap) :
  h !! l = Some doc →
  own doc "inherits" = None →
  resolveInheritedTheme fuel themeMap (themeName, VRef l) h
  = Ok ((themeName, VRef l), h).
Proof.
  intros Hl Hown. unfold resolveInheritedTheme.
  rewrite bind_run. unfold hasProp. rewrite Hl, Hown. reflexivity.
Qed.

Lemma resolveInheritedTheme_without_inherits_witness :
  [[("keyword", VStr "#ff0000")]] !! 0 = Some [("keyword", VStr "#ff0000")]
  ∧ own [("keyword", VStr "#ff0000")] "inherits" = None
  ∧ resolveInheritedTheme 1 [("plain", VRef 0)] ("plain", VRef 0)
      [[("keyword", VStr "#ff0000")]]
    = Ok (("plain", VRef 0), [[("keyword", VStr "#ff0000")]]).
Proof.
  split; [reflexivity | split; [reflexivity |]].
  apply (resolveInheritedTheme_without_inherits 1 [("plain", VRef 0)] "plain"
           0 [("keyword", VStr "#ff0000")]); reflexivity.
Defined.

(** ** Fuel: [mergeDeep] with more fuel returns what it returned with
    less *)

Lemma agrees_refl {A} (m : js A) : agrees m m.
Proof. intros h r H. exact H. Qed.

Lemma agrees_bind {A B} (m1 m2 : js A) (f1 f2 : A → js B) :
  agrees m1 m2 → (∀ a, agrees (f1 a) (f2 a)) →
  agrees (m1 ≫= f1) (m2 ≫= f2).
Proof.
  intros Hm Hf h r. rewrite !bind_run.
  destruct (m1 h) as [[a h1]|e] eqn:E1; [|discriminate].
  rewrite (Hm _ _ E1). apply Hf.
Qed.

Lemma forEach_agrees {A} (body1 body2 : A → js unit) (xs : list A) :
  (∀ x, agrees (body1 x) (body2 x)) →
  agrees (forEach body1 xs) (forEach body2 xs).
Proof.
  intros Hb. induction xs as [|x xs IH]; simpl.
  - apply agrees_refl.
  - apply agrees_bind; [apply Hb | intros _; exact IH].
Qed.

Lemma mapJs_agrees {A B} (f1 f2 : A → js B) (xs : list A) :
  (∀ x, agrees (f1 x) (f2 x)) →
  agrees (mapJs f1 xs) (mapJs f2 xs).
Proof.
  intros Hf. induction xs as [|x xs IH]; simpl.
  - apply agrees_refl.
  - apply agrees_bind; [apply Hf | intros y].
    apply agrees_bind; [exact IH | intros ys; apply agrees_refl].
Qed.

Ltac agree :=
  repeat match goal with
    | |- agrees ?m ?m => apply agrees_refl
    | |- agrees (mbind _ _) (mbind _ _) => apply agrees_bind; [| intros ?]
    | |- agrees (if ?b then _ else _) (if ?b then _ else _) => destruct b
    | |- agrees (let '(_, _) := ?p in _) (let '(_, _) := ?p in _) =>
        destruct p
    end.

Lemma mergeDeep_fuel (fuel fuel' : nat) (target : value)
    (sources : list value) :
  (fuel ≤ fuel')%nat →
  agrees (mergeDeep fuel target sources) (mergeDeep fuel' target sources).
Proof.
  revert fuel' target sources.
  induction fuel as [|fuel IH]; intros fuel' target sources Hle.
  - intros h r H. discriminate.
  - destruct fuel' as [|fuel']; [lia|].
    assert (Hle' : (fuel ≤ fuel')%nat) by lia.
    simpl. destruct sources as [|source sources]; [apply agrees_refl|].
    apply agrees_bind; [| intros _; apply IH; exact Hle'].
    destruct (isObject target && isObject source); [| apply agrees_refl].
    apply agrees_bind; [apply agrees_refl | intros keys].
    apply forEach_agrees. intros key. agree.
    apply IH; exact Hle'.
Qed.

Lemma resolveInheritedTheme_fuel (fuel fuel' : nat)
    (themeMap : list (string * value)) (entry : string * value) :
  (fuel ≤ fuel')%nat →
  agrees (resolveInheritedTheme fuel themeMap entry)
         (resolveInheritedTheme fuel' themeMap entry).
Proof.
  intros Hle. destruct entry as [themeName theme].
  unfold resolveInheritedTheme. agree; apply mergeDeep_fuel; exact Hle.
Qed.

Lemma themes_fuel (fuel fuel' : nat) (unmerged : list (string * value)) :
  (fuel ≤ fuel')%nat →
  agrees (themes fuel unmerged) (themes fuel' unmerged).
Proof.
  intros Hle. unfold themes.
  apply agrees_bind; [| intros once];
    apply mapJs_agrees; intros x; apply resolveInheritedTheme_fuel; exact Hle.
Qed.

Lemma agrees_eval {A} (m1 m2 : js A) (h : heap) (a : A) :
  agrees m1 m2 → eval m1 h = Ok a → eval m2 h = Ok a.
Proof.
  intros Hm. unfold eval.
  destruct (m1 h) as [[a1 h1]|e] eqn:E1; [|discriminate].
  rewrite (Hm _ _ E1). trivial.
Qed.

Lemma rendered_fuel (fuel fuel' : nat) (files : list (string * toml)) :
  (fuel ≤ fuel')%nat →
  agrees (rendered fuel files) (rendered fuel' files).
Proof.
  intros Hle. unfold rendered. agree. apply themes_fuel; exact Hle.
Qed.

(** ** C1: what the merge does with the child's keys *)

(** C1, evaluated on [parentAndChild].  The child sets [keyword] to the
    string [#ff0000] and [type] to the table [{fg: #999999}]; the parent has
    [keyword = #00ff00] and [type = {fg: #111111, bg: #222222}].  With any
    fuel from 4 on, the resolved child keeps the parent's [keyword] (the
    child's string is dropped), and its [type] is the child's table alone:
    [type.bg] is undefined, not the parent's [#222222]. *)
Theorem resolved_child_keeps_parent_leaf (n : nat) :
  eval (resolvedChild (4 + n)) []
  = Ok (VStr "#00ff00", VStr "#999999", VUndefined).
Proof.
  apply (agrees_eval (resolvedChild 4)); [| vm_compute; reflexivity].
  unfold resolvedChild. agree. apply resolveInheritedTheme_fuel. lia.
Qed.

(** ** C2: the parent document in the theme map *)

(** C2, evaluated on [parentAndChild].  Before the child is resolved the
    parent document of the theme map has [type = {fg: #111111, bg:
    #222222}]; afterwards the same document has [type.fg = #999999] and no
    [type.bg]: resolution wrote the child's table into the parent. *)
Theorem resolution_mutates_parent (n : nat) :
  eval (parentAroundResolution (4 + n)) []
  = Ok (VStr "#111111", VStr "#222222", VStr "#999999", VUndefined).
Proof.
  apply (agrees_eval (parentAroundResolution 4)); [| vm_compute; reflexivity].
  unfold parentAroundResolution. agree. apply resolveInheritedTheme_fuel. lia.
Qed.

(** ** C4: a chain of two levels *)

(** C4, evaluated on [chainWithSibling].  Themes [a] and [b] define no
    [comment]; [c] defines [comment.fg = #c0c0c0]; [d] also inherits [c] and
    defines [comment.fg = #d0d0d0].  After the two passes theme [a] has
    [comment.fg = #d0d0d0], the sibling's colour.  Without [d] in the set
    it has [#c0c0c0]. *)
Theorem chain_field_taken_from_sibling (n : nat) :
  eval (commentOfA (4 + n) chainWithSibling) [] = Ok (VStr "#d0d0d0")
  ∧ eval (commentOfA (4 + n) chainOnly) [] = Ok (VStr "#c0c0c0").
Proof.
  split.
  - apply (agrees_eval (commentOfA 4 chainWithSibling));
      [| vm_compute; reflexivity].
    unfold commentOfA. agree. apply themes_fuel. lia.
  - apply (agrees_eval (commentOfA 4 chainOnly)); [| vm_compute; reflexivity].
    unfold commentOfA. agree. apply themes_fuel. lia.
Qed.

(** ** C7: the example of the specification *)

(** C7, evaluated on [exampleTheme].  [keyword] is the pair [{fg:
    #ff0000}].  [variable], [function] and [function.macro] are the bare
    string [#eeeeee], not a pair, so their [fg] is undefined. *)
Theorem example_fallbacks_are_bare_strings (fuel : nat) :
  eval (exampleScopes fuel) []
  = Ok (VStr "#ff0000",
        (VStr "#eeeeee", VUndefined),
        (VStr "#eeeeee", VUndefined),
        (VStr "#eeeeee", VUndefined)).
Proof.
  apply (agrees_eval (exampleScopes 0)); [| vm_compute; reflexivity].
  unfold exampleScopes. agree. apply rendered_fuel. lia.
Qed.

(** ** C9: the scaffold generator *)

Lemma append_cons (c : ascii) (s t : string) :
  String c s +:+ t = String c (s +:+ t).
Proof. reflexivity. Qed.

Lemma append_empty_l (t : string) : EmptyString +:+ t = t.
Proof. reflexivity. Qed.

Lemma length_append (s t : string) :
  String.length (s +:+ t) = (String.length s + String.length t)%nat.
Proof.
  induction s as [|c s IH]; [reflexivity|].
  rewrite append_cons. simpl. now rewrite IH.
Qed.

Lemma append_associative (s t u : string) :
  (s +:+ t) +:+ u = s +:+ t +:+ u.
Proof.
  induction s as [|c s IH]; [reflexivity|].
  rewrite !append_cons. now rewrite IH.
Qed.

Lemma substring_0_append (s t : string) :
  substring 0 (String.length s) (s +:+ t) = s.
Proof.
  induction s as [|c s IH].
  - rewrite append_empty_l. destruct t; reflexivity.
  - rewrite append_cons. simpl. now rewrite IH.
Qed.

(** Cutting six characters off [base.astro] leaves [base]. *)
Lemma slice_astro (base : string) :
  slice_0_minus6 (base +:+ ".astro") = base.
Proof.
  unfold slice_0_minus6. rewrite length_append.
  replace (String.length base + String.length ".astro" - 6)%nat
    with (String.length base) by (simpl; lia).
  apply substring_0_append.
Qed.

Lemma astro_is_index (base : string) :
  base +:+ ".astro" = "index.astro" → base = "index".
Proof.
  intros H.
  assert (Hlen : String.length base = 5%nat).
  { apply (f_equal String.length) in H. rewrite length_append in H.
    simpl in H. lia. }
  do 6 (destruct base as [|? base]; simpl in Hlen; try discriminate).
  rewrite !append_cons, append_empty_l in H.
  injection H as -> -> -> -> ->. reflexivity.
Qed.

(** The file being generated does not count, wherever it is listed. *)
Lemma generateFileContents_skips_index (pre post : list string)
    (contentGenerator : string → string → string) :
  generateFileContents (pre ++ "index.astro" :: post) contentGenerator
  = generateFileContents (pre ++ post) contentGenerator.
Proof.
  unfold generateFileContents. rewrite !fold_left_app. reflexivity.
Qed.

Lemma indexAstroContent_skips_index (pre post : list string) :
  indexAstroContent (pre ++ "index.astro" :: post)
  = indexAstroContent (pre ++ post).
Proof.
  unfold indexAstroContent, importStatements, exportedObject.
  rewrite !generateFileContents_skips_index. reflexivity.
Qed.

(** C9 as stated fails on files called [a.ext] and [b.ext]: the generator
    cuts six characters, one more than [a.ext] has, so both names of the
    exported object are empty. *)
Lemma exportedObject_ext_has_empty_names :
  exportedObject ["a.ext"; "b.ext"]
  = newline +:+ tab +:+ "," +:+ newline +:+ tab +:+ ","
  ∧ exportedObject ["a.ext"; "b.ext"]
    ≠ newline +:+ tab +:+ "a," +:+ newline +:+ tab +:+ "b,".
Proof. split; [reflexivity | discriminate]. Qed.

(** C9, amended.  For a folder that holds exactly [a.astro] and [b.astro]
    ([a], [b] other than [index]): the generated content is the text
    [content] below, in which the exported object lists [a] then [b], in
    listing order, and nothing else; the first run adds [index.astro] with
    that content; a second run writes the same content and leaves the folder
    as the first one left it; and the content is the same wherever
    [index.astro] stands in the listing of the second run. *)
Theorem generateIndex_astro_pair (a b contentA contentB : string) :
  a ≠ "index" → b ≠ "index" →
  let d := [(a +:+ ".astro", contentA); (b +:+ ".astro", contentB)] in
  let content :=
    "---" +:+ newline +:+
    "/*" +:+ newline +:+
    " * This file was generated by `pnpm termshots`" +:+ newline +:+
    " */" +:+ newline +:+
    newline +:+ "import " +:+ a +:+ " from " +:+ quote +:+ "./" +:+ a
      +:+ ".astro" +:+ quote +:+ ";" +:+
    newline +:+ "import " +:+ b +:+ " from " +:+ quote +:+ "./" +:+ b
      +:+ ".astro" +:+ quote +:+ ";" +:+
    newline +:+
    newline +:+
    "export const T = {" +:+
    newline +:+ tab +:+ a +:+ "," +:+
    newline +:+ tab +:+ b +:+ "," +:+
    newline +:+
    "};" +:+ newline +:+
    "---" in
  exportedObject (map fst d)
  = newline +:+ tab +:+ a +:+ "," +:+ newline +:+ tab +:+ b +:+ ","
  ∧ indexAstroContent (map fst d) = content
  ∧ generateIndex d = d ++ [("index.astro", content)]
  ∧ indexAstroContent (map fst (generateIndex d)) = content
  ∧ generateIndex (generateIndex d) = generateIndex d
  ∧ ∀ pre post : list string,
      pre ++ post = map fst d →
      indexAstroContent (pre ++ "index.astro" :: post) = content.
Proof.
  intros Ha Hb d content.
  assert (Ea : String.eqb (a +:+ ".astro") "index.astro" = false).
  { apply String.eqb_neq. intros H. apply Ha, astro_is_index, H. }
  assert (Eb : String.eqb (b +:+ ".astro") "index.astro" = false).
  { apply String.eqb_neq. intros H. apply Hb, astro_is_index, H. }
  assert (Hexp : exportedObject (map fst d)
                 = newline +:+ tab +:+ a +:+ "," +:+ newline +:+ tab +:+ b
                   +:+ ",").
  { unfold exportedObject, generateFileContents, d. simpl.
    rewrite Ea, Eb, !slice_astro, append_empty_l.
    rewrite !append_associative. reflexivity. }
  assert (Himp : importStatements (map fst d)
                 = newline +:+ "import " +:+ a +:+ " from " +:+ quote +:+ "./"
                   +:+ a +:+ ".astro" +:+ quote +:+ ";" +:+
                   newline +:+ "import " +:+ b +:+ " from " +:+ quote +:+ "./"
                   +:+ b +:+ ".astro" +:+ quote +:+ ";").
  { unfold importStatements, generateFileContents, d. simpl.
    rewrite Ea, Eb, !slice_astro, append_empty_l.
    rewrite !append_associative. reflexivity. }
  assert (Hcontent : indexAstroContent (map fst d) = content).
  { unfold indexAstroContent, disclaimer, content. rewrite Hexp, Himp.
    rewrite !append_associative. reflexivity. }
  assert (Hgen : generateIndex d = d ++ [("index.astro", content)]).
  { unfold generateIndex. rewrite Hcontent. unfold d. simpl.
    rewrite Ea, Eb. reflexivity. }
  assert (Hsecond : indexAstroContent (map fst (generateIndex d)) = content).
  { rewrite Hgen, map_app. simpl map at 2.
    rewrite (indexAstroContent_skips_index (map fst d) []), app_nil_r.
    exact Hcontent. }
  split; [exact Hexp | split; [exact Hcontent | split; [exact Hgen |]]].
  split; [exact Hsecond | split].
  - unfold generateIndex at 1. rewrite Hsecond, Hgen.
    unfold d. simpl. rewrite Ea, Eb. reflexivity.
  - intros pre post Hpp. rewrite indexAstroContent_skips_index, Hpp.
    exact Hcontent.
Qed.

Lemma generateIndex_astro_pair_witness :
  "a" ≠ "index" ∧ "b" ≠ "index"
  ∧ generateIndex [("a.astro", "A"); ("b.astro", "B")]
    = [ ("a.astro", "A"); ("b.astro", "B");
        ("index.astro",
         "---" +:+ newline +:+
         "/*" +:+ newline +:+
         " * This file was generated by `pnpm termshots`" +:+ newline +:+
         " */" +:+ newline +:+
         newline +:+ "import a from " +:+ quote +:+ "./a.astro" +:+ quote
           +:+ ";" +:+
         newline +:+ "import b from " +:+ quote +:+ "./b.astro" +:+ quote
           +:+ ";" +:+
         newline +:+
         newline +:+
         "export const T = {" +:+
         newline +:+ tab +:+ "a," +:+
         newline +:+ tab +:+ "b," +:+
         newline +:+
         "};" +:+ newline +:+
         "---") ]
  ∧ generateIndex (generateIndex [("a.astro", "A"); ("b.astro", "B")])
    = generateIndex [("a.astro", "A"); ("b.astro", "B")].
Proof.
  assert (Ha : "a" ≠ "index") by discriminate.
  assert (Hb : "b" ≠ "index") by discriminate.
  split; [exact Ha | split; [exact Hb |]].
  pose proof (generateIndex_astro_pair "a" "b" "A" "B" Ha Hb) as H.
  cbv zeta in H. destruct H as (_ & _ & H3 & _ & H5 & _).
  split; [exact H3 | exact H5].
Defined.

(** ** Own properties and the heap *)

Lemma own_put_eq (o : object) (k : string) (v : value) :
  own (put o k v) k = Some v.
Proof.
  induction o as [|[k' v'] o IH]; simpl.
  - now rewrite String.eqb_refl.
  - destruct (String.eqb k' k) eqn:E; simpl; rewrite E; [reflexivity | exact IH].
Qed.

Lemma own_put_ne (o : object) (k k' : string) (v : value) :
  k ≠ k' → own (put o k v) k' = own o k'.
Proof.
  intros Hne. induction o as [|[k0 v0] o IH]; simpl.
  - apply String.eqb_neq in Hne. now rewrite Hne.
  - destruct (String.eqb k0 k) eqn:E; simpl.
    + apply String.eqb_eq in E. subst k0.
      apply String.eqb_neq in Hne. now rewrite Hne.
    + now rewrite IH.
Qed.

Lemma lookup_property_put_eq (o : object) (k : string) (v : value) :
  lookup_property (put o k v) k = v.
Proof. unfold lookup_property. now rewrite own_put_eq. Qed.

Lemma lookup_property_put_ne (o : object) (k k' : string) (v : value) :
  k ≠ k' → lookup_property (put o k v) k' = lookup_property o k'.
Proof. intros Hne. unfold lookup_property. now rewrite own_put_ne. Qed.

Lemma getProp_ref (h : heap) (l : loc) (o : object) (k : string) :
  h !! l = Some o → getProp (VRef l) k h = Ok (lookup_property o k, h).
Proof. intros H. unfold getProp. now rewrite H. Qed.

(** Reading never changes the heap. *)
Lemma getProp_heap (v x : value) (k : string) (h h' : heap) :
  getProp v k h = Ok (x, h') → h' = h.
Proof.
  unfold getProp. intros H.
  destruct v; try destruct (h !! l); repeat case_match; congruence.
Qed.

(** A colour that is no object has neither channel. *)
Lemma getProp_channel_no_object (c : value) (channel : string) (h : heap) :
  c ≠ VUndefined → (∀ l, c ≠ VRef l) →
  channel = "fg" ∨ channel = "bg" →
  getProp c channel h = Ok (VUndefined, h).
Proof.
  intros Hu Hr [-> | ->]; destruct c; try congruence; try reflexivity;
    exfalso; eapply Hr; reflexivity.
Qed.

Lemma setProp_channel (h : heap) (l : loc) (o : object) (channel : string)
    (x : value) :
  h !! l = Some o → channel = "fg" ∨ channel = "bg" →
  setProp (VRef l) channel x h = Ok (tt, <[l := put o channel x]> h).
Proof. intros H [-> | ->]; unfold setProp; rewrite H; reflexivity. Qed.

(** ** The palette step on one scope *)

Lemma normalizeChannel_object (h : heap) (lp l : loc) (po o : object)
    (channel : string) :
  h !! lp = Some po → h !! l = Some o →
  channel = "fg" ∨ channel = "bg" →
  ∃ o', normalizeChannel (VRef lp) (VRef l) channel h
        = Ok (tt, <[l := o']> h)
        ∧ lookup_property o' channel
          = normalized po (lookup_property o channel)
        ∧ ∀ k, k ≠ channel → lookup_property o' k = lookup_property o k.
Proof.
  intros Hp Hl Hch. unfold normalizeChannel.
  rewrite bind_run, (getProp_ref _ _ _ _ Hl).
  assert (Hsame : ∃ o', (mret tt : js unit) h = Ok (tt, <[l := o']> h)
            ∧ lookup_property o' channel = lookup_property o channel
            ∧ ∀ k, k ≠ channel → lookup_property o' k = lookup_property o k).
  { exists o. rewrite list_insert_id by exact Hl. auto. }
  destruct (lookup_property o channel) as [| | |name| | | |] eqn:E;
    try exact Hsame.
  cbn [normalized]. destruct (isHex name) eqn:Ehex; cbn [negb]; cbv iota.
  - exact Hsame.
  - rewrite bind_run, (getProp_ref _ _ _ _ Hp).
    rewrite (setProp_channel _ _ _ _ _ Hl Hch).
    exists (put o channel (lookup_property po name)).
    split; [reflexivity | split].
    + apply lookup_property_put_eq.
    + intros k Hk. now apply lookup_property_put_ne.
Qed.

Lemma normalizeColor_object (h : heap) (lp l : loc) (po o : object)
    (scope : string) :
  h !! lp = Some po → h !! l = Some o → l ≠ lp →
  ∃ o', normalizeColor (VRef lp) (scope, VRef l) h
        = Ok ((scope, VRef l), <[l := o']> h)
        ∧ lookup_property o' "fg" = normalized po (lookup_property o "fg")
        ∧ lookup_property o' "bg" = normalized po (lookup_property o "bg")
        ∧ ∀ k, k ≠ "fg" → k ≠ "bg" →
               lookup_property o' k = lookup_property o k.
Proof.
  intros Hp Hl Hne. unfold normalizeColor.
  destruct (normalizeChannel_object h lp l po o "fg" Hp Hl)
    as (o1 & E1 & Hfg1 & Hrest1); [now left|].
  assert (Hl1 : <[l := o1]> h !! l = Some o1).
  { apply list_lookup_insert_eq. eapply lookup_lt_Some, Hl. }
  assert (Hp1 : <[l := o1]> h !! lp = Some po).
  { rewrite list_lookup_insert_ne by exact Hne. exact Hp. }
  destruct (normalizeChannel_object _ lp l po o1 "bg" Hp1 Hl1)
    as (o2 & E2 & Hbg2 & Hrest2); [now right|].
  rewrite bind_run, E1, bind_run, E2, list_insert_insert_eq.
  exists o2. split; [reflexivity|].
  split; [| split].
  - rewrite Hrest2 by discriminate. exact Hfg1.
  - rewrite Hbg2, Hrest1 by discriminate. reflexivity.
  - intros k Hfg Hbg. rewrite Hrest2, Hrest1 by congruence. reflexivity.
Qed.

(** ** C5: the channels after the palette step *)

Lemma normalizeColor_no_object (palette c : value) (scope : string)
    (h : heap) :
  c ≠ VUndefined → (∀ l, c ≠ VRef l) →
  normalizeColor palette (scope, c) h = Ok ((scope, c), h).
Proof.
  intros Hu Hr. unfold normalizeColor, normalizeChannel.
  rewrite !bind_run.
  rewrite (getProp_channel_no_object c "fg" h Hu Hr) by now left.
  cbv iota beta. rewrite ret_run. cbv iota beta. rewrite !bind_run.
  rewrite (getProp_channel_no_object c "bg" h Hu Hr) by now right.
  reflexivity.
Qed.

Lemma settled_resolvable (po : object) (v : value) :
  settledChannel v → resolvableChannel po v.
Proof. intros [H | H]; [now left | now right; left]. Qed.

Lemma normalized_settles (po : object) (v : value) :
  resolvableChannel po v → settledChannel (normalized po v).
Proof.
  intros [-> | [(s & -> & Hs) | (name & -> & Hn & Hhex)]]; simpl.
  - now left.
  - rewrite Hs. right. now exists s.
  - rewrite Hn. now right.
Qed.

Lemma settlesTo_refl (lp : loc) (po : object) (h : heap) :
  h !! lp = Some po → settlesTo lp po h h.
Proof. intros Hp. split; [exact Hp|]. intros l o _ Hl. exists o. auto. Qed.

Lemma settlesTo_trans (lp : loc) (po : object) (h1 h2 h3 : heap) :
  settlesTo lp po h1 h2 → settlesTo lp po h2 h3 → settlesTo lp po h1 h3.
Proof.
  intros [_ H12] [Hp H23]. split; [exact Hp|].
  intros l o Hne Hl.
  destruct (H12 l o Hne Hl) as (o2 & Hl2 & Hr2 & Hs2).
  destruct (H23 l o2 Hne Hl2) as (o3 & Hl3 & Hr3 & Hs3).
  exists o3. auto.
Qed.

(** One scope: the step succeeds, returns the scope, and settles its
    colour. *)
Lemma normalizeColor_settles (lp : loc) (po : object) (h : heap)
    (scope : string) (c : value) :
  h !! lp = Some po → resolvableColor h lp po c →
  ∃ h', normalizeColor (VRef lp) (scope, c) h = Ok ((scope, c), h')
        ∧ settlesTo lp po h h' ∧ settledColor h' c.
Proof.
  intros Hp Hc.
  destruct c as [| | | | | | |l];
    try (exists h; split;
         [ apply normalizeColor_no_object; [discriminate | intros ?; discriminate]
         | split; [apply settlesTo_refl; exact Hp | exact I] ]).
  - destruct Hc.
  - destruct Hc as (Hne & o & Hl & Hfg & Hbg).
    destruct (normalizeColor_object h lp l po o scope Hp Hl Hne)
      as (o' & E & Efg & Ebg & _).
    assert (Hset : settledObject o').
    { split; [rewrite Efg | rewrite Ebg]; now apply normalized_settles. }
    assert (Hl' : <[l := o']> h !! l = Some o').
    { apply list_lookup_insert_eq. eapply lookup_lt_Some, Hl. }
    exists (<[l := o']> h). split; [exact E | split].
    + split; [rewrite list_lookup_insert_ne by exact Hne; exact Hp|].
      intros l0 o0 Hne0 Hl0. destruct (decide (l0 = l)) as [-> | Hdiff].
      * exists o'. split; [exact Hl' | split; intros _; [| exact Hset]].
        destruct Hset. split; now apply settled_resolvable.
      * exists o0. rewrite list_lookup_insert_ne by congruence. auto.
    + exists o'. destruct Hset. auto.
Qed.

Lemma resolvableColor_settlesTo (lp : loc) (po : object) (h h' : heap)
    (c : value) :
  settlesTo lp po h h' → resolvableColor h lp po c →
  resolvableColor h' lp po c.
Proof.
  intros [_ H] Hc. destruct c; try exact Hc.
  destruct Hc as (Hne & o & Hl & Hfg & Hbg).
  destruct (H l o Hne Hl) as (o' & Hl' & Hr & _).
  destruct Hr as [Hfg' Hbg']; [now split|].
  split; [exact Hne|]. exists o'. auto.
Qed.

Lemma settledColor_settlesTo (lp : loc) (po : object) (h h' : heap)
    (c : value) :
  settlesTo lp po h h' → resolvableColor h lp po c →
  settledColor h c → settledColor h' c.
Proof.
  intros [_ H] Hr Hc. destruct c; try exact Hc.
  destruct Hr as (Hne & _).
  destruct Hc as (o & Hl & Hfg & Hbg).
  destruct (H l o Hne Hl) as (o' & Hl' & _ & Hs).
  destruct Hs as [Hfg' Hbg']; [now split|].
  exists o'. auto.
Qed.

Lemma normalizeColors_settle (lp : loc) (po : object)
    (theme : scopes) (h : heap) :
  h !! lp = Some po →
  Forall (λ entry, resolvableColor h lp po entry.2) theme →
  ∃ hn, mapJs (normalizeColor (VRef lp)) theme h = Ok (theme, hn)
        ∧ settlesTo lp po h hn
        ∧ Forall (λ entry, settledColor hn entry.2) theme.
Proof.
  revert h. induction theme as [|[scope c] theme IH]; intros h Hp Hall.
  - exists h. split; [reflexivity | split; [now apply settlesTo_refl | constructor]].
  - inversion Hall as [|? ? Hc Hrest]; subst. simpl in Hc.
    destruct (normalizeColor_settles lp po h scope c Hp Hc)
      as (h1 & E1 & H01 & Hset1).
    assert (Hp1 : h1 !! lp = Some po) by apply H01.
    assert (Hrest1 : Forall (λ entry, resolvableColor h1 lp po entry.2) theme).
    { eapply Forall_impl; [exact Hrest|]. intros entry.
      apply resolvableColor_settlesTo, H01. }
    destruct (IH h1 Hp1 Hrest1) as (hn & En & H1n & Hsetn).
    exists hn. split; [| split].
    + cbn [mapJs]. rewrite bind_run, E1, bind_run, En. reflexivity.
    + eapply settlesTo_trans; eassumption.
    + constructor; [| exact Hsetn]. simpl.
      eapply settledColor_settlesTo; [exact H1n | | exact Hset1].
      eapply resolvableColor_settlesTo; eassumption.
Qed.

(** C5 as stated fails on [missingKeyTheme], whose [keyword] names the
    colour [mauve] that its palette does not define: the renderer receives
    a [keyword] pair whose [fg] is undefined, and which has no [bg]. *)
Lemma palette_miss_reaches_renderer :
  eval (keywordChannels 0 [("catppuccin_mocha", missingKeyTheme)]) []
  = Ok (VUndefined, VUndefined).
Proof. vm_compute. reflexivity. Qed.

(** The same with any fuel: the theme inherits nothing. *)
Lemma palette_miss_any_fuel (fuel : nat) :
  eval (keywordChannels fuel [("catppuccin_mocha", missingKeyTheme)]) []
  = Ok (VUndefined, VUndefined).
Proof.
  apply (agrees_eval
           (keywordChannels 0 [("catppuccin_mocha", missingKeyTheme)]));
    [| vm_compute; reflexivity].
  unfold keywordChannels. agree. apply rendered_fuel. lia.
Qed.

(** ** The palette step over the whole scope map *)

(** Membership in a list that is written out. *)
Ltac in_list :=
  repeat first [apply list_elem_of_here | apply list_elem_of_further].

Lemma iter_normalized_idle (po : object) (k : nat) (v : value) :
  needsPalette v = false → Nat.iter k (normalized po) v = v.
Proof.
  intros H. induction k as [|k IH]; [reflexivity|].
  simpl. rewrite IH. destruct v; try reflexivity.
  simpl in H. apply negb_false_iff in H. simpl. now rewrite H.
Qed.

Lemma visits_member (theme : scopes) (scope : string) (l : loc) :
  (scope, VRef l) ∈ theme → ∃ k, visits theme l = S k.
Proof.
  unfold visits. induction theme as [|[scope' c] theme IH]; intros Hin.
  - now apply elem_of_nil in Hin.
  - apply elem_of_cons in Hin as [Heq | Hin].
    + injection Heq as <- <-. simpl. rewrite Nat.eqb_refl. simpl. eauto.
    + destruct (IH Hin) as (k & Hk). simpl.
      destruct (holds l c); simpl; rewrite Hk; eauto.
Qed.

Lemma paletteColour_insert (h : heap) (lp l : loc) (o : object)
    (c : value) :
  paletteColour h lp c → paletteColour (<[l := o]> h) lp c.
Proof.
  destruct c; simpl; trivial. intros [Hne Hl]. split; [exact Hne|].
  apply lookup_lt_is_Some. rewrite length_insert.
  apply lookup_lt_is_Some, Hl.
Qed.

(** The whole step: each colour object is given to the callback once for
    every scope that holds it, and each time its channels are
    [normalized]. *)
Lemma normalizeColors_run (lp : loc) (po : object) (theme : scopes)
    (h : heap) :
  h !! lp = Some po →
  Forall (λ entry, paletteColour h lp entry.2) theme →
  ∃ hn, mapJs (normalizeColor (VRef lp)) theme h = Ok (theme, hn)
        ∧ hn !! lp = Some po
        ∧ ∀ l o, l ≠ lp → h !! l = Some o →
            ∃ o', hn !! l = Some o'
                  ∧ (∀ channel, channel = "fg" ∨ channel = "bg" →
                       lookup_property o' channel
                       = Nat.iter (visits theme l) (normalized po)
                           (lookup_property o channel))
                  ∧ (∀ k, k ≠ "fg" → k ≠ "bg" →
                          lookup_property o' k = lookup_property o k).
Proof.
  revert h. induction theme as [|[scope c] theme IH]; intros h Hp Hall.
  - exists h. split; [reflexivity | split; [exact Hp|]].
    intros l o _ Hl. exists o. split; [exact Hl | split; auto].
  - inversion Hall as [|? ? Hc Hrest]; subst. simpl in Hc.
    destruct c as [| | | | | | |l0];
      try (destruct (IH h Hp Hrest) as (hn & E & Hpn & Hobj);
           exists hn; split; [| split; [exact Hpn | exact Hobj]];
           cbn [mapJs];
           rewrite bind_run, normalizeColor_no_object
             by (discriminate || (intros ?; discriminate));
           rewrite bind_run, E; reflexivity).
    + destruct Hc.
    + destruct Hc as [Hne0 [o0 Hl0]].
      destruct (normalizeColor_object h lp l0 po o0 scope Hp Hl0 Hne0)
        as (o1 & E1 & Efg & Ebg & Eoth).
      assert (Hl1 : <[l0 := o1]> h !! l0 = Some o1).
      { apply list_lookup_insert_eq. eapply lookup_lt_Some, Hl0. }
      assert (Hp1 : <[l0 := o1]> h !! lp = Some po).
      { rewrite list_lookup_insert_ne by exact Hne0. exact Hp. }
      assert (Hrest1 : Forall (λ entry,
                                 paletteColour (<[l0 := o1]> h) lp entry.2)
                              theme).
      { eapply Forall_impl; [exact Hrest|]. intros entry.
        apply paletteColour_insert. }
      destruct (IH _ Hp1 Hrest1) as (hn & E & Hpn & Hobj).
      exists hn. split; [| split; [exact Hpn|]].
      { cbn [mapJs]. rewrite bind_run, E1, bind_run, E. reflexivity. }
      intros l o Hne Hl. unfold visits. cbn [List.filter snd holds].
      destruct (Nat.eqb l0 l) eqn:El.
      * apply Nat.eqb_eq in El. subst l0.
        assert (o = o0) as -> by congruence.
        destruct (Hobj l o1 Hne Hl1) as (o' & Hl' & Hch & Hoth).
        exists o'. split; [exact Hl' | split].
        -- intros channel Hchannel. rewrite (Hch channel Hchannel).
           cbn [length]. fold (visits theme l). rewrite Nat.iter_succ_r.
           f_equal. destruct Hchannel as [-> | ->]; assumption.
        -- intros k Hk1 Hk2. rewrite Hoth by assumption. now apply Eoth.
      * apply Nat.eqb_neq in El.
        apply Hobj; [exact Hne|].
        rewrite list_lookup_insert_ne by exact El. exact Hl.
Qed.

(** ** C6: which channels the palette step replaces *)




(** ** C5: the channels the renderer receives *)

(** C5, amended.  When the palette is an object and every scope colour of a
    resolved theme is resolvable (it is no object, or it is an object other
    than the palette whose [fg] and [bg] are each absent, a [#] literal, or
    a name whose palette entry is a [#] literal), the palette step succeeds,
    returns the same scopes, and afterwards, in the colour object of every
    scope, each of [fg] and [bg] is: absent, if it was absent; the same [#]
    literal, if it was one; the palette's [#] literal for its name, if it
    was a name; and a colour that is no object has neither channel.  So
    every channel is a [#] literal unless the resolved theme had none
    there. *)
Theorem normalizePalette_settles_channels (name : string) (lp : loc)
    (po : object) (theme : scopes) (h : heap) :
  h !! lp = Some po →
  Forall (λ entry, resolvableColor h lp po entry.2) theme →
  ∃ hn,
    normalizePalette (name, VRef lp, theme) h = Ok (theme, hn)
    ∧ (∀ scope l o, (scope, VRef l) ∈ theme → h !! l = Some o →
        ∃ o', hn !! l = Some o'
          ∧ ∀ channel, channel = "fg" ∨ channel = "bg" →
              (lookup_property o channel = VUndefined
               ∧ lookup_property o' channel = VUndefined)
              ∨ (∃ s, lookup_property o channel = VStr s
                      ∧ isHex s = true
                      ∧ lookup_property o' channel = VStr s)
              ∨ (∃ n e, lookup_property o channel = VStr n
                        ∧ isHex n = false
                        ∧ lookup_property po n = VStr e
                        ∧ isHex e = true
                        ∧ lookup_property o' channel = VStr e))
    ∧ ∀ scope c channel,
        (scope, c) ∈ theme → (∀ l, c ≠ VRef l) →
        channel = "fg" ∨ channel = "bg" →
        getProp c channel hn = Ok (VUndefined, hn).
Proof.
  intros Hp Hall.
  assert (Hcol : Forall (λ entry, paletteColour h lp entry.2) theme).
  { eapply Forall_impl; [exact Hall|]. intros [scope c]. simpl.
    destruct c; simpl; trivial. intros (Hne & o & Hl & _).
    split; [exact Hne | now exists o]. }
  destruct (normalizeColors_run lp po theme h Hp Hcol)
    as (hn & E & _ & Hobj).
  rewrite Forall_forall in Hall.
  exists hn. split; [exact E | split].
  2:{ intros scope c channel Hin Hno Hchannel.
      apply getProp_channel_no_object; [| exact Hno | exact Hchannel].
      intros ->. exact (Hall _ Hin). }
  intros scope l o Hin Hl.
  pose proof (Hall _ Hin) as Hres.
  simpl in Hres. destruct Hres as (Hne & o0 & Hl0 & Hfg & Hbg).
  assert (o0 = o) as -> by congruence.
  destruct (Hobj l o Hne Hl) as (o' & Hl' & Hch & _).
  exists o'. split; [exact Hl'|].
  intros channel Hchannel. rewrite (Hch channel Hchannel).
  destruct (visits_member _ _ _ Hin) as (k & ->).
  assert (Hres : resolvableChannel po (lookup_property o channel))
    by (destruct Hchannel as [-> | ->]; assumption).
  destruct Hres as [Hu | [(s & Hs & Hhex) | (n & Hn & Hhex & e & He & Hehex)]].
  - left. split; [exact Hu|]. rewrite Hu. now apply iter_normalized_idle.
  - right; left. exists s. split; [exact Hs | split; [exact Hhex|]].
    rewrite Hs. apply iter_normalized_idle. simpl. now rewrite Hhex.
  - right; right. exists n, e.
    split; [exact Hn | split; [exact Hhex | split; [exact He |]]].
    split; [exact Hehex|].
    rewrite Hn, Nat.iter_succ_r. cbn [normalized]. rewrite Hhex, He.
    apply iter_normalized_idle. simpl. now rewrite Hehex.
Qed.

Lemma normalizePalette_settles_channels_witness :
  ∃ hn o',
    normalizePalette
      ("catppuccin_mocha", VRef 0,
       [("keyword", VRef 1); ("function", VRef 1);
        ("variable", VStr "#cdd6f4")])
      [ [("mauve", VStr "#cba6f7")]; [("fg", VStr "mauve")] ]
    = Ok ([("keyword", VRef 1); ("function", VRef 1);
           ("variable", VStr "#cdd6f4")], hn)
    ∧ hn !! 1%nat = Some o'
    ∧ lookup_property o' "fg" = VStr "#cba6f7"
    ∧ lookup_property o' "bg" = VUndefined.
Proof.
  destruct (normalizePalette_settles_channels "catppuccin_mocha" 0
              [("mauve", VStr "#cba6f7")]
              [("keyword", VRef 1); ("function", VRef 1);
               ("variable", VStr "#cdd6f4")]
              [ [("mauve", VStr "#cba6f7")]; [("fg", VStr "mauve")] ]
              eq_refl)
    as (hn & E & Hobj & _).
  { assert (Hc : resolvableColor
                   [ [("mauve", VStr "#cba6f7")]; [("fg", VStr "mauve")] ]
                   0 [("mauve", VStr "#cba6f7")] (VRef 1)).
    { split; [discriminate|]. exists [("fg", VStr "mauve")].
      split; [reflexivity | split].
      - right; right. exists "mauve".
        split; [reflexivity | split; [reflexivity|]].
        exists "#cba6f7". split; reflexivity.
      - left. reflexivity. }
    constructor; [exact Hc|]. constructor; [exact Hc|].
    constructor; [exact I|]. constructor. }
  destruct (Hobj "keyword" 1%nat [("fg", VStr "mauve")]
              ltac:(in_list) eq_refl)
    as (o' & Hl' & Hch).
  exists hn, o'. split; [exact E | split; [exact Hl' | split]].
  - destruct (Hch "fg" (or_introl eq_refl))
      as [[Hu _] | [(s & Hs & Hhex & _) | (n & e & Hn & _ & He & _ & Hfg)]].
    + discriminate Hu.
    + injection Hs as <-. discriminate Hhex.
    + injection Hn as <-. injection He as <-. exact Hfg.
  - destruct (Hch "bg" (or_intror eq_refl))
      as [[_ Hbg] | [(s & Hs & _) | (n & e & Hn & _)]].
    + exact Hbg.
    + discriminate Hs.
    + discriminate Hn.
Defined.

(** ** The scope getters *)

Lemma getProp_ref_prefix (h0 h : heap) (l : loc) (o : object) (k : string) :
  h0 !! l = Some o → h0 `prefix_of` h →
  getProp (VRef l) k h = Ok (lookup_property o k, h).
Proof.
  intros Hl Hpre. apply getProp_ref. eapply prefix_lookup_Some; eassumption.
Qed.

Lemma prefix_snoc (h : heap) (o : object) : h `prefix_of` h ++ [o].
Proof. now exists [o]. Qed.

Lemma getColor_run (lt : loc) (doc : object) (key : string)
    (fallback : js value) (h : heap) :
  h !! lt = Some doc →
  getColor (VRef lt) key fallback h
  = let value := lookup_property doc key in
    if is_string value then newObject [("fg", value)] h
    else if truthy value then Ok (value, h)
    else fallback h.
Proof.
  intros Hl. unfold getColor. rewrite bind_run, (getProp_ref _ _ _ _ Hl).
  cbv zeta. destruct (is_string _); [reflexivity|].
  destruct (truthy _); reflexivity.
Qed.

Lemma getFallbackColor_run (lt : loc) (doc : object) (primaryKey : string)
    (fallbackFn : js value) (h : heap) :
  h !! lt = Some doc →
  getFallbackColor (VRef lt) primaryKey fallbackFn h
  = let value := lookup_property doc primaryKey in
    if is_string value then newObject [("fg", value)] h
    else if truthy value then Ok (value, h)
    else fallbackFn h.
Proof. apply getColor_run. Qed.

Lemma allocates_getColor (h0 : heap) (lt : loc) (doc : object)
    (key : string) (fallback : js value) :
  h0 !! lt = Some doc → allocates h0 fallback →
  allocates h0 (getColor (VRef lt) key fallback).
Proof.
  intros Hl Hfb h Hpre.
  rewrite (getColor_run lt doc) by (eapply prefix_lookup_Some; eassumption).
  cbv zeta. destruct (is_string _).
  - eexists _, _. split; [reflexivity | apply prefix_snoc].
  - destruct (truthy _); [| now apply Hfb].
    eexists _, _. split; [reflexivity | reflexivity].
Qed.

Lemma allocates_getFallbackColor (h0 : heap) (lt : loc) (doc : object)
    (primaryKey : string) (fallbackFn : js value) :
  h0 !! lt = Some doc → allocates h0 fallbackFn →
  allocates h0 (getFallbackColor (VRef lt) primaryKey fallbackFn).
Proof. apply allocates_getColor. Qed.

Lemma allocates_backgroundFg (h0 : heap) (lb : loc) (ob : object) :
  h0 !! lb = Some ob → allocates h0 (backgroundFg (VRef lb)).
Proof.
  intros Hl h Hpre. unfold backgroundFg.
  rewrite (getProp_ref_prefix h0 h lb ob) by assumption.
  eexists _, _. split; reflexivity.
Qed.

Lemma allocates_getUiBackground (h0 : heap) (background : value) :
  allocates h0 (getUiBackground background).
Proof. intros h Hpre. eexists _, _. split; reflexivity. Qed.

(** Reading a channel of a defined, valid value returns. *)
Lemma getProp_channel_valid (v : value) (channel : string) (h : heap) :
  v ≠ VUndefined → valid h v → channel = "fg" ∨ channel = "bg" →
  ∃ x, getProp v channel h = Ok (x, h).
Proof.
  intros Hu Hv Hch. destruct v as [| | | | | | |l]; try congruence;
    try (exists VUndefined; destruct Hch as [-> | ->]; reflexivity).
  destruct Hv as [o Ho]. exists (lookup_property o channel).
  now apply getProp_ref.
Qed.

Lemma valid_prefix (h h' : heap) (v : value) :
  h `prefix_of` h' → valid h v → valid h' v.
Proof.
  intros Hpre. destruct v; simpl; trivial.
  intros [o Ho]. exists o. eapply prefix_lookup_Some; eassumption.
Qed.

Lemma truthy_defined (v : value) : truthy v = true → v ≠ VUndefined.
Proof. intros H ->. discriminate. Qed.

Lemma allocates_getUiStatusline (h0 : heap) (lt lb : loc)
    (doc ob : object) :
  h0 !! lt = Some doc → h0 !! lb = Some ob →
  valid h0 (lookup_property doc "ui.statusline") →
  allocates h0 (getUiStatusline (VRef lt) (VRef lb)).
Proof.
  intros Hl Hb Hv h Hpre. unfold getUiStatusline.
  rewrite bind_run, (getProp_ref_prefix h0 h lt doc) by assumption.
  destruct (truthy (lookup_property doc "ui.statusline")) eqn:Et; cbn [negb];
    cbv iota.
  2:{ eexists _, _. split; [reflexivity | apply prefix_snoc]. }
  pose proof (truthy_defined _ Et) as Hdef.
  pose proof (valid_prefix _ _ _ Hpre Hv) as Hv'.
  destruct (getProp_channel_valid _ "fg" h Hdef Hv') as (fg & Efg);
    [now left|].
  destruct (getProp_channel_valid _ "bg" h Hdef Hv') as (bg & Ebg);
    [now right|].
  rewrite bind_run, Efg, bind_run.
  assert (Hfg : ∃ fg', (if truthy fg then mret fg
                        else getProp (VRef lb) "fg") h = Ok (fg', h)).
  { destruct (truthy fg); [now exists fg|].
    eexists. now apply (getProp_ref_prefix h0 h lb ob). }
  destruct Hfg as (fg' & ->).
  rewrite bind_run, Ebg, bind_run.
  assert (Hbg : ∃ bg', (if truthy bg then mret bg
                        else getProp (VRef lb) "bg") h = Ok (bg', h)).
  { destruct (truthy bg); [now exists bg|].
    eexists. now apply (getProp_ref_prefix h0 h lb ob). }
  destruct Hbg as (bg' & ->).
  eexists _, _. split; [reflexivity | apply prefix_snoc].
Qed.

(** Every getter of the scope map returns and only allocates. *)
Lemma allocates_scopeGetters (h0 : heap) (lt lb : loc) (doc ob : object) :
  h0 !! lt = Some doc → h0 !! lb = Some ob →
  valid h0 (lookup_property doc "ui.statusline") →
  Forall (λ getter, allocates h0 getter.2)
         (scopeGetters (VRef lt) (VRef lb)).
Proof.
  intros Hl Hb Hv.
  pose proof (allocates_backgroundFg h0 lb ob Hb) as Hfg.
  pose proof (allocates_getUiBackground h0 (VRef lb)) as Hbg.
  pose proof (allocates_getUiStatusline h0 lt lb doc ob Hl Hb Hv) as Hst.
  unfold scopeGetters.
  repeat (apply Forall_cons; split;
          [ simpl;
            repeat first
              [ exact Hfg | exact Hbg | exact Hst
              | apply (allocates_getColor h0 lt doc _ _ Hl)
              | apply (allocates_getFallbackColor h0 lt doc _ _ Hl) ]
          | ]).
  apply Forall_nil_2.
Qed.

(** The scope map: every getter runs on a heap that extends [hb]. *)
Lemma resolve_getters (hb : heap) (getters : list (string * js value))
    (h : heap) :
  hb `prefix_of` h →
  Forall (λ getter, allocates hb getter.2) getters →
  ∃ resolved hf,
    mapJs (λ '(scope, getter), color ← getter; mret (scope, color))
          getters h
    = Ok (resolved, hf)
    ∧ h `prefix_of` hf
    ∧ Forall2 (resolvedBy hb hf) getters resolved.
Proof.
  revert h. induction getters as [|[scope getter] getters IH];
    intros h Hpre Hall.
  - exists [], h. split; [reflexivity | split; [reflexivity | constructor]].
  - inversion Hall as [|? ? Hg Hrest]; subst. simpl in Hg.
    destruct (Hg h Hpre) as (v & h1 & E1 & Hpre1).
    assert (Hb1 : hb `prefix_of` h1) by (etrans; eassumption).
    destruct (IH h1 Hb1 Hrest) as (resolved & hf & E & Hpref & Hall2).
    exists ((scope, v) :: resolved), hf.
    split; [| split].
    + cbn [mapJs]. rewrite !bind_run, E1. cbv iota beta.
      rewrite ret_run. cbv iota beta. rewrite bind_run, E. reflexivity.
    + etrans; eassumption.
    + constructor.
      * split; [reflexivity|]. exists h, h1. auto.
      * eapply Forall2_impl; [exact Hall2|].
        intros g e (Hk & h2 & h3 & ? & ? & ?). split; [exact Hk|].
        exists h2, h3. auto.
Qed.

(** Looking a scope up in the resolved map. *)
Lemma resolved_own (hb hf : heap) (getters : list (string * js value))
    (resolved : scopes) (scope : string) (getter : js value) :
  Forall2 (resolvedBy hb hf) getters resolved →
  NoDup getters.*1 → (scope, getter) ∈ getters →
  ∃ color, own resolved scope = Some color
           ∧ resolvedBy hb hf (scope, getter) (scope, color).
Proof.
  induction 1 as [|[k g] [k' v] getters resolved Hhd Htl IH];
    intros Hnd Hin.
  - inversion Hin.
  - assert (Hk : k' = k) by apply Hhd. subst k'.
    rewrite fmap_cons in Hnd. apply NoDup_cons in Hnd as [Hnotin Hnd].
    simpl. destruct (String.eqb k scope) eqn:E.
    + apply String.eqb_eq in E. subst k.
      apply elem_of_cons in Hin as [Heq | Hin].
      * injection Heq as <-. exists v. split; [reflexivity | exact Hhd].
      * exfalso. apply Hnotin.
        apply (list_elem_of_fmap_2 fst _ (scope, getter)), Hin.
    + apply elem_of_cons in Hin as [Heq | Hin].
      * injection Heq as -> _. rewrite String.eqb_refl in E. discriminate.
      * apply IH; assumption.
Qed.

Lemma NoDup_scopeGetters (theme background : value) :
  NoDup (scopeGetters theme background).*1.
Proof. apply (bool_decide_unpack _). vm_compute. exact I. Qed.

Lemma makeBackground_run (lt : loc) (doc : object) (h : heap)
    (fg bg : value) :
  h !! lt = Some doc →
  getProp (lookup_property doc "ui.background") "fg" h = Ok (fg, h) →
  getProp (lookup_property doc "ui.background") "bg" h = Ok (bg, h) →
  makeBackground (VRef lt) h
  = Ok (VRef (length h),
        h ++ [[("bg", bg);
               ("fg", if truthy fg then fg else VStr "#ffaaaa")]]).
Proof.
  intros Hl Hfg Hbg. unfold makeBackground.
  rewrite bind_run, (getProp_ref _ _ _ _ Hl), bind_run, Hbg.
  rewrite bind_run, (getProp_ref _ _ _ _ Hl), bind_run, Hfg.
  reflexivity.
Qed.

(** [resolveScopes] on a theme object whose [ui.background] can be read:
    it returns, the background object is the first new object, the palette
    is the theme's, and every scope is what its getter returned. *)
Lemma resolveScopes_run (themeName : string) (lt : loc) (doc : object)
    (h : heap) (fg bg : value) :
  h !! lt = Some doc →
  getProp (lookup_property doc "ui.background") "fg" h = Ok (fg, h) →
  getProp (lookup_property doc "ui.background") "bg" h = Ok (bg, h) →
  valid h (lookup_property doc "ui.statusline") →
  let background :=
    [("bg", bg); ("fg", if truthy fg then fg else VStr "#ffaaaa")] in
  ∃ resolved hf,
    resolveScopes themeName (VRef lt) h
    = Ok ((themeName, lookup_property doc "palette", resolved), hf)
    ∧ (h ++ [background]) `prefix_of` hf
    ∧ Forall2 (resolvedBy (h ++ [background]) hf)
              (scopeGetters (VRef lt) (VRef (length h))) resolved.
Proof.
  intros Hl Hfg Hbg Hv background.
  set (hb := h ++ [background]).
  assert (Hpre : h `prefix_of` hb) by apply prefix_snoc.
  assert (Hlb : hb !! lt = Some doc)
    by (eapply prefix_lookup_Some; eassumption).
  assert (Hbb : hb !! length h = Some background)
    by apply list_lookup_middle, eq_refl.
  pose proof (valid_prefix _ _ _ Hpre Hv) as Hvb.
  destruct (resolve_getters hb (scopeGetters (VRef lt) (VRef (length h))) hb)
    as (resolved & hf & E & Hpref & Hall);
    [reflexivity | eapply allocates_scopeGetters; eassumption |].
  exists resolved, hf. split; [| split; assumption].
  unfold resolveScopes.
  rewrite bind_run, (makeBackground_run lt doc h fg bg Hl Hfg Hbg).
  fold background. fold hb.
  rewrite bind_run, (getProp_ref _ _ _ _ Hlb), bind_run, E. reflexivity.
Qed.

Ltac find_getter := unfold scopeGetters; in_list.

(** ** C8: the cursor scope *)

(** C8 as stated fails on [cursorTheme], which sets [ui.cursor] to
    [#123456] and has no [ui.cursor.primary]: the resolved [ui.cursor] is the
    background foreground [#eeeeee], a bare string, and not the theme's own
    [ui.cursor]. *)
Lemma ui_cursor_of_theme_is_ignored :
  eval (cursorScope 0 [("catppuccin_mocha", cursorTheme)]) []
  = Ok (VStr "#eeeeee", VUndefined).
Proof. vm_compute. reflexivity. Qed.

(** The same with any fuel: the theme inherits nothing. *)
Lemma ui_cursor_ignored_any_fuel (fuel : nat) :
  eval (cursorScope fuel [("catppuccin_mocha", cursorTheme)]) []
  = Ok (VStr "#eeeeee", VUndefined).
Proof.
  apply (agrees_eval (cursorScope 0 [("catppuccin_mocha", cursorTheme)]));
    [| vm_compute; reflexivity].
  unfold cursorScope. agree. apply rendered_fuel. lia.
Qed.

(** C8, amended.  For every theme object whose [ui.background] can be read
    (its [fg] channel is [fg]), the resolved [ui.cursor] scope is computed
    from the theme's [ui.cursor.primary] alone: a string [s] gives a fresh
    pair [{fg: s}], any other truthy value is used as it is, and otherwise
    the scope is the background foreground ([fg], or [#ffaaaa] when [fg] is
    falsy).  Neither [ui.cursor] nor [ui.highlight] is consulted. *)
Theorem ui_cursor_from_cursor_primary (themeName : string) (lt : loc)
    (doc : object) (h : heap) (fg bg : value) :
  h !! lt = Some doc →
  getProp (lookup_property doc "ui.background") "fg" h = Ok (fg, h) →
  getProp (lookup_property doc "ui.background") "bg" h = Ok (bg, h) →
  valid h (lookup_property doc "ui.statusline") →
  ∃ resolved hf cursor,
    resolveScopes themeName (VRef lt) h
    = Ok ((themeName, lookup_property doc "palette", resolved), hf)
    ∧ own resolved "ui.cursor" = Some cursor
    ∧ match lookup_property doc "ui.cursor.primary" with
      | VStr s => ∃ l, cursor = VRef l ∧ hf !! l = Some [("fg", VStr s)]
      | primary =>
          cursor = if truthy primary then primary
                   else if truthy fg then fg else VStr "#ffaaaa"
      end.
Proof.
  intros Hl Hfg Hbg Hv.
  destruct (resolveScopes_run themeName lt doc h fg bg Hl Hfg Hbg Hv)
    as (resolved & hf & E & Hpre & Hall).
  destruct (resolved_own _ _ _ _ "ui.cursor"
              (getUiCursor (VRef lt) (VRef (length h))) Hall
              (NoDup_scopeGetters _ _))
    as (cursor & Hown & _ & h1 & h2 & Hpre1 & Hrun & Hpre2).
  { find_getter. }
  exists resolved, hf, cursor. split; [exact E | split; [exact Hown|]].
  simpl in Hrun. unfold getUiCursor in Hrun.
  assert (Hl1 : h1 !! lt = Some doc).
  { eapply prefix_lookup_Some; [| exact Hpre1].
    apply lookup_app_l_Some, Hl. }
  assert (Hb1 : h1 !! length h
                = Some [("bg", bg);
                        ("fg", if truthy fg then fg else VStr "#ffaaaa")]).
  { eapply prefix_lookup_Some; [| exact Hpre1].
    apply list_lookup_middle, eq_refl. }
  rewrite (getFallbackColor_run lt doc _ _ h1 Hl1) in Hrun. cbv zeta in Hrun.
  unfold backgroundFg in Hrun. rewrite (getProp_ref _ _ _ _ Hb1) in Hrun.
  destruct (lookup_property doc "ui.cursor.primary") as [|b|n|s| | | |];
    cbn [is_string] in Hrun; cbv iota in Hrun;
    try (cbv zeta;
         match type of Hrun with
         | (if ?t then _ else _) = _ => destruct t
         end; injection Hrun as <- _; reflexivity).
  unfold newObject in Hrun. injection Hrun as <- <-.
  exists (length h1). split; [reflexivity|].
  eapply prefix_lookup_Some; [| exact Hpre2].
  apply list_lookup_middle, eq_refl.
Qed.

Lemma ui_cursor_from_cursor_primary_witness :
  ∃ resolved hf cursor,
    resolveScopes "catppuccin_mocha" (VRef 1) cursorPrimaryHeap
    = Ok (("catppuccin_mocha", VUndefined, resolved), hf)
    ∧ own resolved "ui.cursor" = Some cursor
    ∧ ∃ l, cursor = VRef l ∧ hf !! l = Some [("fg", VStr "#f5e0dc")].
Proof.
  exact (ui_cursor_from_cursor_primary "catppuccin_mocha" 1
           [("ui.background", VRef 0); ("ui.cursor", VStr "#123456");
            ("ui.cursor.primary", VStr "#f5e0dc")]
           cursorPrimaryHeap (VStr "#eeeeee") (VStr "#111111")
           eq_refl eq_refl eq_refl I).
Defined.

(** ** C10: the default background foreground *)

Lemma getColor_omitted (lt : loc) (doc : object) (key : string)
    (fallback : js value) (h : heap) :
  h !! lt = Some doc → omitted (lookup_property doc key) →
  getColor (VRef lt) key fallback h = fallback h.
Proof.
  intros Hl [Hs Ht]. rewrite (getColor_run lt doc) by exact Hl.
  cbv zeta. now rewrite Hs, Ht.
Qed.

Lemma getFallbackColor_omitted (lt : loc) (doc : object)
    (primaryKey : string) (fallbackFn : js value) (h : heap) :
  h !! lt = Some doc → omitted (lookup_property doc primaryKey) →
  getFallbackColor (VRef lt) primaryKey fallbackFn h = fallbackFn h.
Proof. apply getColor_omitted. Qed.

Lemma setProp_inv (c : value) (k : string) (x : value) (h h' : heap) :
  setProp c k x h = Ok (tt, h') →
  ∃ l o, c = VRef l ∧ h !! l = Some o ∧ h' = <[l := put o k x]> h.
Proof.
  unfold setProp. destruct c as [| | | | | | |l]; try discriminate.
  destruct (h !! l) as [o|] eqn:E; [|discriminate].
  case_match; [discriminate|]. intros [= <-]. eauto.
Qed.

(** The palette step never changes a channel that holds a [#] literal. *)
Lemma normalizeChannel_keeps_hex (palette c : value) (channel : string)
    (h h' : heap) :
  normalizeChannel palette c channel h = Ok (tt, h') →
  ∀ l o k s, h !! l = Some o → lookup_property o k = VStr s →
             isHex s = true →
             ∃ o', h' !! l = Some o' ∧ lookup_property o' k = VStr s.
Proof.
  unfold normalizeChannel. rewrite bind_run.
  destruct (getProp c channel h) as [[x hx]|] eqn:E; [|discriminate].
  pose proof (getProp_heap _ _ _ _ _ E) as ->.
  assert (Hsame : (mret tt : js unit) h = Ok (tt, h') →
            ∀ l o k s, h !! l = Some o → lookup_property o k = VStr s →
                       isHex s = true →
                       ∃ o', h' !! l = Some o' ∧ lookup_property o' k = VStr s).
  { intros [= <-]. eauto. }
  destruct x as [| | |name| | | |]; try exact Hsame.
  destruct (isHex name) eqn:Ehex; cbn [negb]; cbv iota; [exact Hsame|].
  rewrite bind_run.
  destruct (getProp palette name h) as [[entry hp]|] eqn:Ep; [|discriminate].
  pose proof (getProp_heap _ _ _ _ _ Ep) as ->.
  intros Hset. apply setProp_inv in Hset as (l0 & o0 & -> & Hl0 & ->).
  rewrite (getProp_ref _ _ _ _ Hl0) in E. injection E as E.
  intros l o k s Hl Hs Hhex.
  destruct (decide (l = l0)) as [-> | Hne].
  - assert (o = o0) as -> by congruence.
    exists (put o0 channel entry). split.
    + apply list_lookup_insert_eq. eapply lookup_lt_Some, Hl0.
    + destruct (decide (channel = k)) as [-> | Hk].
      * congruence.
      * now rewrite lookup_property_put_ne.
  - exists o. now rewrite list_lookup_insert_ne by congruence.
Qed.

Lemma normalizeColor_keeps_hex (palette : value) (entry r : string * value)
    (h h' : heap) :
  normalizeColor palette entry h = Ok (r, h') →
  r = entry
  ∧ ∀ l o k s, h !! l = Some o → lookup_property o k = VStr s →
               isHex s = true →
               ∃ o', h' !! l = Some o' ∧ lookup_property o' k = VStr s.
Proof.
  destruct entry as [scope c]. unfold normalizeColor. rewrite bind_run.
  destruct (normalizeChannel palette c "fg" h) as [[[] h1]|] eqn:E1;
    [|discriminate].
  rewrite bind_run.
  destruct (normalizeChannel palette c "bg" h1) as [[[] h2]|] eqn:E2;
    [|discriminate].
  intros [= <- <-]. split; [reflexivity|].
  intros l o k s Hl Hs Hhex.
  destruct (normalizeChannel_keeps_hex _ _ _ _ _ E1 l o k s Hl Hs Hhex)
    as (o1 & Hl1 & Hs1).
  exact (normalizeChannel_keeps_hex _ _ _ _ _ E2 l o1 k s Hl1 Hs1 Hhex).
Qed.

Lemma normalizeColors_keep_hex (palette : value) (theme normalized : scopes)
    (h hn : heap) :
  mapJs (normalizeColor palette) theme h = Ok (normalized, hn) →
  normalized = theme
  ∧ ∀ l o k s, h !! l = Some o → lookup_property o k = VStr s →
               isHex s = true →
               ∃ o', hn !! l = Some o' ∧ lookup_property o' k = VStr s.
Proof.
  revert normalized h. induction theme as [|entry theme IH];
    intros normalized h.
  - intros [= <- <-]. eauto.
  - cbn [mapJs]. rewrite bind_run.
    destruct (normalizeColor palette entry h) as [[r h1]|] eqn:E1;
      [|discriminate].
    rewrite bind_run.
    destruct (mapJs (normalizeColor palette) theme h1) as [[rs h2]|] eqn:E2;
      [|discriminate].
    intros [= <- <-].
    apply normalizeColor_keeps_hex in E1 as [-> H1].
    apply IH in E2 as [-> H2].
    split; [reflexivity|].
    intros l o k s Hl Hs Hhex.
    destruct (H1 l o k s Hl Hs Hhex) as (o1 & Hl1 & Hs1).
    exact (H2 l o1 k s Hl1 Hs1 Hhex).
Qed.

(** A scope of [foregroundChains] whose keys the theme omits is the
    background foreground. *)
Lemma foreground_chain_run (lt : loc) (doc : object) (hb hf : heap)
    (lb : loc) (ob : object) (resolved : scopes)
    (scope : string) (keys : list string) :
  hb !! lt = Some doc → hb !! lb = Some ob →
  Forall2 (resolvedBy hb hf) (scopeGetters (VRef lt) (VRef lb)) resolved →
  (scope, keys) ∈ foregroundChains →
  (∀ key, key ∈ keys → omitted (lookup_property doc key)) →
  own resolved scope = Some (lookup_property ob "fg").
Proof.
  intros Hl Hb Hall Hin Hkeys. unfold foregroundChains in Hin.
  repeat (apply elem_of_cons in Hin as [Hin | Hin];
          [injection Hin as -> -> |]);
    [.. | now apply elem_of_nil in Hin];
    (match goal with
     | |- own resolved ?s = _ =>
         eassert (Hmem : (s, _) ∈ scopeGetters (VRef lt) (VRef lb))
           by find_getter;
         destruct (resolved_own hb hf _ resolved s _ Hall
                     (NoDup_scopeGetters _ _) Hmem)
           as (color & Hown & _ & h1 & h2 & Hpre1 & Hrun & Hpre2)
     end;
     rewrite Hown; f_equal;
     pose proof (prefix_lookup_Some _ _ _ _ Hl Hpre1) as Hl1;
     pose proof (prefix_lookup_Some _ _ _ _ Hb Hpre1) as Hb1;
     cbn [snd] in Hrun;
     unfold getKeyword, getVariableParameter, getUiLinenr, getMacro,
       getFunction, getOperator, getPunctuationDelimiter, getPunctuation,
       getConstantNumeric, getConstant, getComment, getTypeBuiltin, getType,
       getUiVirtualRuler, getUiVirtualIndentGuide, getUiVirtual,
       getUiVirtualInlayHint, getUiCursor, getVariable in Hrun;
     repeat first
       [ rewrite (getFallbackColor_omitted lt doc _ _ h1 Hl1) in Hrun
           by (apply Hkeys; in_list)
       | rewrite (getColor_omitted lt doc _ _ h1 Hl1) in Hrun
           by (apply Hkeys; in_list) ];
     unfold backgroundFg in Hrun;
     rewrite (getProp_ref _ _ _ _ Hb1) in Hrun;
     congruence).
Qed.

(** C10.  For every theme object whose [ui.background] can be read and has
    a falsy [fg] (absent included) and the [bg] channel [bg] (possibly
    undefined): [resolveScopes] returns; the [ui.background] scope is the new
    object [{bg: bg, fg: "#ffaaaa"}]; every [() => background.fg] evaluates
    to [#ffaaaa] from then on; every scope of [foregroundChains] whose keys
    the theme omits is [#ffaaaa]; and whenever the palette step returns, the
    renderer reads [#ffaaaa] as [theme["ui.background"].fg]. *)
Theorem background_foreground_default (themeName : string) (lt : loc)
    (doc : object) (h : heap) (fg bg : value) :
  h !! lt = Some doc →
  getProp (lookup_property doc "ui.background") "fg" h = Ok (fg, h) →
  truthy fg = false →
  getProp (lookup_property doc "ui.background") "bg" h = Ok (bg, h) →
  valid h (lookup_property doc "ui.statusline") →
  let lb := length h in
  let background := [("bg", bg); ("fg", VStr "#ffaaaa")] in
  ∃ resolved hf,
    resolveScopes themeName (VRef lt) h
    = Ok ((themeName, lookup_property doc "palette", resolved), hf)
    ∧ own resolved "ui.background" = Some (VRef lb)
    ∧ hf !! lb = Some background
    ∧ (∀ h', (h ++ [background]) `prefix_of` h' →
             backgroundFg (VRef lb) h' = Ok (VStr "#ffaaaa", h'))
    ∧ (∀ scope keys,
         (scope, keys) ∈ foregroundChains →
         (∀ key, key ∈ keys → omitted (lookup_property doc key)) →
         own resolved scope = Some (VStr "#ffaaaa"))
    ∧ (∀ normalized hn,
         normalizePalette
           (themeName, lookup_property doc "palette", resolved) hf
         = Ok (normalized, hn) →
         channelOf normalized "ui.background" "fg" hn
         = Ok (VStr "#ffaaaa", hn)).
Proof.
  intros Hl Hfg Hfalsy Hbg Hv lb background.
  destruct (resolveScopes_run themeName lt doc h fg bg Hl Hfg Hbg Hv)
    as (resolved & hf & E & Hpre & Hall).
  rewrite Hfalsy in Hpre, Hall. fold background in Hpre, Hall.
  fold lb in Hall.
  set (hb := h ++ [background]) in *.
  assert (Hlb : hb !! lt = Some doc) by apply lookup_app_l_Some, Hl.
  assert (Hbb : hb !! lb = Some background)
    by apply list_lookup_middle, eq_refl.
  assert (Hbf : hf !! lb = Some background)
    by (eapply prefix_lookup_Some; eassumption).
  assert (Hown : own resolved "ui.background" = Some (VRef lb)).
  { destruct (resolved_own hb hf _ resolved "ui.background"
                (getUiBackground (VRef lb)) Hall (NoDup_scopeGetters _ _))
      as (color & Hown & _ & h1 & h2 & _ & Hrun & _); [find_getter|].
    cbn [snd] in Hrun. injection Hrun as <- _. exact Hown. }
  exists resolved, hf.
  split; [exact E | split; [exact Hown | split; [exact Hbf | split; [| split]]]].
  - intros h' Hpre'. unfold backgroundFg.
    now rewrite (getProp_ref_prefix hb h' lb background).
  - intros scope keys Hin Hkeys.
    exact (foreground_chain_run lt doc hb hf lb background resolved scope keys
             Hlb Hbb Hall Hin Hkeys).
  - intros normalized hn Hnorm. unfold normalizePalette in Hnorm.
    apply normalizeColors_keep_hex in Hnorm as [-> Hkeep].
    destruct (Hkeep lb background "fg" "#ffaaaa" Hbf eq_refl eq_refl)
      as (o' & Hl' & Hfg').
    unfold channelOf. rewrite Hown, (getProp_ref _ _ _ _ Hl'), Hfg'.
    reflexivity.
Qed.

Lemma background_foreground_default_witness :
  ∃ resolved hf,
    resolveScopes "catppuccin_mocha" (VRef 1) noForegroundHeap
    = Ok (("catppuccin_mocha", VRef 2, resolved), hf)
    ∧ own resolved "ui.background" = Some (VRef 3)
    ∧ hf !! 3 = Some [("bg", VStr "#1e1e2e"); ("fg", VStr "#ffaaaa")]
    ∧ own resolved "function.macro" = Some (VStr "#ffaaaa").
Proof.
  destruct (background_foreground_default "catppuccin_mocha" 1
              [("ui.background", VRef 0); ("palette", VRef 2)]
              noForegroundHeap VUndefined (VStr "#1e1e2e")
              eq_refl eq_refl eq_refl eq_refl I)
    as (resolved & hf & E & Hown & Hbg & _ & Hchains & _).
  exists resolved, hf.
  split; [exact E | split; [exact Hown | split; [exact Hbg|]]].
  apply (Hchains "function.macro" ["function.macro"; "function"; "variable"]).
  - unfold foregroundChains. in_list.
  - intros key Hin.
    repeat (apply elem_of_cons in Hin as [-> | Hin];
            [split; reflexivity |]).
    apply elem_of_nil in Hin. destruct Hin.
Defined.

(** * Further properties of the code *)

(** ** [mergeDeep]: what it returns and what it touches *)

Lemma bind_inv {A B} (m : js A) (f : A → js B) (h : heap) (r : B * heap) :
  (m ≫= f) h = Ok r → ∃ a h1, m h = Ok (a, h1) ∧ f a h1 = Ok r.
Proof.
  rewrite bind_run. destruct (m h) as [[a h1]|e]; [| discriminate].
  intros H. exists a, h1. auto.
Qed.

Lemma mergeDeep_step (fuel : nat) (target source : value)
    (sources : list value) :
  mergeDeep (S fuel) target (source :: sources)
  = ((if isObject target && isObject source then
        keys ← ownKeys source;
        forEach (mergeKey (mergeDeep fuel) target source) keys
      else mret tt);;
     mergeDeep fuel target sources).
Proof. reflexivity. Qed.

Lemma writesObjects_refl (o : object) : writesObjects o o.
Proof. intros k. now left. Qed.

Lemma writesObjects_trans (o1 o2 o3 : object) :
  writesObjects o1 o2 → writesObjects o2 o3 → writesObjects o1 o3.
Proof.
  intros H12 H23 k. destruct (H23 k) as [E | E]; [| now right].
  rewrite E. apply H12.
Qed.

Lemma writesObjects_put (o : object) (k : string) (x : value) :
  isObject x = true → writesObjects o (put o k x).
Proof.
  intros Hx k'. destruct (decide (k = k')) as [<- | Hne].
  - right. now rewrite lookup_property_put_eq.
  - left. now apply lookup_property_put_ne.
Qed.

Lemma mergeEffect_refl (target : value) (h : heap) : mergeEffect target h h.
Proof.
  split; [lia | split]; [auto |].
  intros l o _ Hl. exists o. split; [exact Hl | apply writesObjects_refl].
Qed.

Lemma mergeEffect_trans (target : value) (h1 h2 h3 : heap) :
  mergeEffect target h1 h2 → mergeEffect target h2 h3 →
  mergeEffect target h1 h3.
Proof.
  intros (Hlen12 & Hoth12 & Htgt12) (Hlen23 & Hoth23 & Htgt23).
  split; [lia | split].
  - intros l o Hl Hne. apply Hoth23; [| exact Hne]. now apply Hoth12.
  - intros l o Ht Hl.
    destruct (Htgt12 l o Ht Hl) as (o2 & Hl2 & Hw12).
    destruct (Htgt23 l o2 Ht Hl2) as (o3 & Hl3 & Hw23).
    exists o3. split; [exact Hl3 | eapply writesObjects_trans; eassumption].
Qed.

(** Writing an object into the target. *)
Lemma mergeEffect_setProp (target : value) (k : string) (x : value)
    (h h' : heap) :
  isObject x = true → setProp target k x h = Ok (tt, h') →
  mergeEffect target h h'.
Proof.
  intros Hx Hset. apply setProp_inv in Hset as (l & o & -> & Hl & ->).
  split; [rewrite length_insert; lia | split].
  - intros l' o' Hl' Hne. rewrite list_lookup_insert_ne by congruence.
    exact Hl'.
  - intros l' o' [= <-] Hl'. assert (o' = o) as -> by congruence.
    exists (put o k x). split.
    + apply list_lookup_insert_eq. eapply lookup_lt_Some, Hl.
    + now apply writesObjects_put.
Qed.

Lemma getProp_ref_inv (l : loc) (k : string) (x : value) (h h' : heap) :
  getProp (VRef l) k h = Ok (x, h') →
  ∃ o, h !! l = Some o ∧ x = lookup_property o k.
Proof.
  unfold getProp. destruct (h !! l) as [o|]; [| discriminate].
  intros [= <- _]. now exists o.
Qed.

(** One key of the loop, for a recursive call that has the effect. *)
Lemma mergeKey_effect (rec : value → list value → js value)
    (target source : value) (key : string) (h h' : heap) :
  (∀ t ss h1 r h2, rec t ss h1 = Ok (r, h2) → mergeEffect t h1 h2) →
  mergeKey rec target source key h = Ok (tt, h') →
  mergeEffect target h h'.
Proof.
  intros Hrec. unfold mergeKey. intros H.
  apply bind_inv in H as (sk & h0 & Hsk & H).
  pose proof (getProp_heap _ _ _ _ _ Hsk) as ->.
  destruct (isObject sk) eqn:Eobj;
    [| injection H as <-; apply mergeEffect_refl].
  apply bind_inv in H as (tk & h0 & Htk & H).
  pose proof (getProp_heap _ _ _ _ _ Htk) as ->.
  destruct (negb (truthy tk)).
  - apply bind_inv in H as (fresh & h1 & Hnew & H).
    unfold newObject in Hnew. injection Hnew as <- <-.
    apply bind_inv in H as ([] & h2 & Hset & H).
    apply bind_inv in H as (tk' & h0 & Htk' & H).
    pose proof (getProp_heap _ _ _ _ _ Htk') as ->.
    apply bind_inv in H as (sk' & h0 & Hsk' & H).
    pose proof (getProp_heap _ _ _ _ _ Hsk') as ->.
    apply bind_inv in H as (r & h3 & Hcall & H).
    injection H as <-.
    pose proof (setProp_inv _ _ _ _ _ Hset) as (l & o & -> & Hl & ->).
    apply getProp_ref_inv in Htk as (o0 & Hl0 & _).
    pose proof (lookup_lt_Some _ _ _ Hl0) as Hlt.
    rewrite (lookup_app_l_Some _ _ _ _ Hl0) in Hl. injection Hl as <-.
    assert (Hl2 : <[l := put o0 key (VRef (length h))]> (h ++ [[]]) !! l
                  = Some (put o0 key (VRef (length h)))).
    { apply list_lookup_insert_eq. rewrite length_app. lia. }
    rewrite (getProp_ref _ _ _ _ Hl2), lookup_property_put_eq in Htk'.
    injection Htk' as <-.
    apply Hrec in Hcall as (Hlen & Hoth & _).
    rewrite length_insert, length_app in Hlen. simpl in Hlen.
    split; [lia | split].
    + intros l' o' Hl' Hne. apply Hoth.
      * rewrite list_lookup_insert_ne by congruence.
        now apply lookup_app_l_Some.
      * apply lookup_lt_Some in Hl'. intros [= E]. lia.
    + intros l' o' [= <-] Hl'. assert (o' = o0) as -> by congruence.
      exists (put o0 key (VRef (length h))). split.
      * apply Hoth; [exact Hl2 | intros [= E]; lia].
      * now apply writesObjects_put.
  - apply bind_inv in H as (sk' & h0 & Hsk' & H).
    pose proof (getProp_heap _ _ _ _ _ Hsk') as ->.
    assert (sk' = sk) as -> by congruence.
    eapply mergeEffect_setProp; eassumption.
Qed.

Lemma forEach_effect {A} (body : A → js unit) (target : value)
    (xs : list A) (h h' : heap) :
  (∀ x h1 h2, body x h1 = Ok (tt, h2) → mergeEffect target h1 h2) →
  forEach body xs h = Ok (tt, h') → mergeEffect target h h'.
Proof.
  intros Hbody. revert h. induction xs as [|x xs IH]; intros h H.
  - injection H as <-. apply mergeEffect_refl.
  - cbn [forEach] in H. apply bind_inv in H as ([] & h1 & Hx & H).
    eapply mergeEffect_trans; [eapply Hbody, Hx | apply IH, H].
Qed.

Lemma ownKeys_heap (v : value) (keys : list string) (h h' : heap) :
  ownKeys v h = Ok (keys, h') → h' = h.
Proof. unfold ownKeys. intros H. repeat case_match; congruence. Qed.

(** Whatever it is given, [mergeDeep] returns its target, and has the
    effect of a merge into it. *)
Lemma mergeDeep_effect (fuel : nat) (target : value) (sources : list value)
    (h : heap) (r : value) (h' : heap) :
  mergeDeep fuel target sources h = Ok (r, h') →
  r = target ∧ mergeEffect target h h'.
Proof.
  revert target sources h r h'.
  induction fuel as [|fuel IH]; intros target sources h r h' H;
    [discriminate|].
  destruct sources as [|source sources].
  - injection H as <- <-. split; [reflexivity | apply mergeEffect_refl].
  - rewrite mergeDeep_step in H. apply bind_inv in H as ([] & h1 & Hloop & H).
    apply IH in H as [-> Heff2]. split; [reflexivity|].
    eapply mergeEffect_trans; [| exact Heff2].
    destruct (isObject target && isObject source);
      [| injection Hloop as <-; apply mergeEffect_refl].
    apply bind_inv in Hloop as (keys & h0 & Hkeys & Hloop).
    pose proof (ownKeys_heap _ _ _ _ Hkeys) as ->.
    eapply forEach_effect; [| exact Hloop].
    intros key h1' h2' Hkey. eapply mergeKey_effect; [| exact Hkey].
    intros t ss ha ra hb Hcall. now apply IH in Hcall.
Qed.

(** A loop that keeps an invariant [I] and establishes [Q x] for every
    [x] it visits, [Q] being stable under later steps. *)
Lemma forEach_invariant {A} (body : A → js unit) (I : heap → Prop)
    (Q : A → heap → Prop) (xs : list A) (h h' : heap) :
  (∀ x h1 h2, x ∈ xs → I h1 → body x h1 = Ok (tt, h2) →
     I h2 ∧ Q x h2 ∧ ∀ y, Q y h1 → Q y h2) →
  I h → forEach body xs h = Ok (tt, h') →
  I h' ∧ (∀ x, x ∈ xs → Q x h') ∧ (∀ y, Q y h → Q y h').
Proof.
  revert h. induction xs as [|x xs IH]; intros h Hbody HI H.
  - injection H as <-. split; [exact HI | split; [| auto]].
    intros x Hx. now apply elem_of_nil in Hx.
  - cbn [forEach] in H. apply bind_inv in H as ([] & h1 & Hx & H).
    destruct (Hbody x h h1 (list_elem_of_here _ _) HI Hx) as (HI1 & HQ1 & Hst1).
    destruct (IH h1) as (HI' & HQ' & Hst'); [| exact HI1 | exact H |].
    { intros y ha hb Hy. apply Hbody. now apply list_elem_of_further. }
    split; [exact HI' | split].
    + intros y Hy. apply elem_of_cons in Hy as [-> | Hy]; auto.
    + auto.
Qed.

Lemma own_keys (o : object) (k : string) :
  k ∈ map fst o → ∃ x, own o k = Some x.
Proof.
  induction o as [|[k' v] o IH]; simpl; intros Hin.
  - now apply elem_of_nil in Hin.
  - destruct (String.eqb k' k) eqn:E; [now exists v|].
    apply elem_of_cons in Hin as [-> | Hin]; [| now apply IH].
    rewrite String.eqb_refl in E. discriminate.
Qed.

Lemma lookup_property_own (o : object) (k : string) (x : value) :
  own o k = Some x → lookup_property o k = x.
Proof. intros H. unfold lookup_property. now rewrite H. Qed.

Lemma tableKey_dec (o : object) (k : string) : tableKey o k ∨ ¬ tableKey o k.
Proof.
  unfold tableKey. destruct (own o k) as [x|] eqn:E.
  - destruct (isObject x) eqn:Ex; [left; eauto |].
    right. intros (y & [= <-] & Hy). congruence.
  - right. intros (y & Hy & _). discriminate.
Qed.

Lemma isObject_truthy (v : value) : isObject v = true → truthy v = true.
Proof. destruct v; simpl; congruence. Qed.

(** One key of the loop, for distinct target and source objects. *)
Lemma mergeKey_objects (rec : value → list value → js value)
    (lt ls : loc) (o os : object) (key : string) (h h' : heap) :
  (∀ t ss h1 r h2, rec t ss h1 = Ok (r, h2) → mergeEffect t h1 h2) →
  lt ≠ ls → h !! lt = Some o → h !! ls = Some os →
  mergeKey rec (VRef lt) (VRef ls) key h = Ok (tt, h') →
  h' !! ls = Some os
  ∧ ∃ o', h' !! lt = Some o'
          ∧ (isObject (lookup_property os key) = false → o' = o)
          ∧ (isObject (lookup_property os key) = true →
             ∃ x, o' = put o key x ∧ isObject x = true
                  ∧ (truthy (lookup_property o key) = true →
                     x = lookup_property os key)).
Proof.
  intros Hrec Hne Hl Hs H.
  pose proof (mergeKey_effect _ _ _ _ _ _ Hrec H) as (_ & Hoth & _).
  split; [apply Hoth; [exact Hs | congruence] |].
  unfold mergeKey in H. apply bind_inv in H as (sk & h0 & Hsk & H).
  rewrite (getProp_ref _ _ _ _ Hs) in Hsk. injection Hsk as <- <-.
  destruct (isObject (lookup_property os key)) eqn:Eobj.
  2:{ injection H as <-. exists o. split; [exact Hl | split; [auto | discriminate]]. }
  apply bind_inv in H as (tk & h0 & Htk & H).
  rewrite (getProp_ref _ _ _ _ Hl) in Htk. injection Htk as <- <-.
  destruct (truthy (lookup_property o key)) eqn:Etk; cbn [negb] in H.
  - apply bind_inv in H as (sk' & h0 & Hsk' & H).
    rewrite (getProp_ref _ _ _ _ Hs) in Hsk'. injection Hsk' as <- <-.
    apply setProp_inv in H as (l & o0 & [= <-] & Hl0 & ->).
    assert (o0 = o) as -> by congruence.
    exists (put o key (lookup_property os key)). split.
    + apply list_lookup_insert_eq. eapply lookup_lt_Some, Hl.
    + split; [discriminate | intros _]. eauto.
  - apply bind_inv in H as (fresh & h1 & Hnew & H).
    unfold newObject in Hnew. injection Hnew as <- <-.
    apply bind_inv in H as ([] & h2 & Hset & H).
    apply bind_inv in H as (tk' & h0 & Htk' & H).
    pose proof (getProp_heap _ _ _ _ _ Htk') as ->.
    apply bind_inv in H as (sk' & h0 & Hsk' & H).
    pose proof (getProp_heap _ _ _ _ _ Hsk') as ->.
    apply bind_inv in H as (r & h3 & Hcall & H).
    injection H as <-.
    apply setProp_inv in Hset as (l & o0 & [= <-] & Hl0 & ->).
    pose proof (lookup_lt_Some _ _ _ Hl) as Hlt.
    rewrite (lookup_app_l_Some _ _ _ _ Hl) in Hl0. injection Hl0 as <-.
    assert (Hl2 : <[lt := put o key (VRef (length h))]> (h ++ [[]]) !! lt
                  = Some (put o key (VRef (length h)))).
    { apply list_lookup_insert_eq. rewrite length_app. lia. }
    rewrite (getProp_ref _ _ _ _ Hl2), lookup_property_put_eq in Htk'.
    injection Htk' as <-.
    apply Hrec in Hcall as (_ & Hoth' & _).
    exists (put o key (VRef (length h))). split.
    + apply Hoth'; [exact Hl2 | intros [= E]; lia].
    + split; [discriminate | intros _].
      exists (VRef (length h)). split; [reflexivity | split; [reflexivity |]].
      discriminate.
Qed.

Lemma own_in_keys (o : object) (k : string) (x : value) :
  own o k = Some x → k ∈ map fst o.
Proof.
  induction o as [|[k' v] o IH]; simpl; [discriminate|].
  destruct (String.eqb k' k) eqn:E.
  - apply String.eqb_eq in E. subst. intros _. apply list_elem_of_here.
  - intros H. apply list_elem_of_further, IH, H.
Qed.

Lemma tableKey_object (o : object) (k : string) :
  tableKey o k → isObject (lookup_property o k) = true.
Proof. intros (x & Hx & Hobj). now rewrite (lookup_property_own _ _ _ Hx). Qed.

Lemma object_tableKey (o : object) (k : string) :
  k ∈ map fst o → isObject (lookup_property o k) = true → tableKey o k.
Proof.
  intros Hin Hobj. destruct (own_keys _ _ Hin) as (x & Hx).
  exists x. split; [exact Hx|]. now rewrite (lookup_property_own _ _ _ Hx) in Hobj.
Qed.

Lemma ownKeys_ref (h : heap) (l : loc) (o : object) :
  h !! l = Some o → ownKeys (VRef l) h = Ok (map fst o, h).
Proof. intros H. unfold ownKeys. unfold object in *. now rewrite H. Qed.

(** The invariant of the loop, across one key. *)
Lemma mergeKey_invariant (rec : value → list value → js value)
    (lt ls : loc) (ot os : object) (key : string) (h h' : heap) :
  (∀ t ss h1 r h2, rec t ss h1 = Ok (r, h2) → mergeEffect t h1 h2) →
  lt ≠ ls → key ∈ map fst os →
  (h !! ls = Some os ∧ ∃ o, h !! lt = Some o ∧ mergedInto ot os o) →
  mergeKey rec (VRef lt) (VRef ls) key h = Ok (tt, h') →
  (h' !! ls = Some os ∧ ∃ o, h' !! lt = Some o ∧ mergedInto ot os o)
  ∧ (∃ o, h' !! lt = Some o ∧ keyMerged ot os o key)
  ∧ ∀ y, (∃ o, h !! lt = Some o ∧ keyMerged ot os o y) →
         ∃ o, h' !! lt = Some o ∧ keyMerged ot os o y.
Proof.
  intros Hrec Hne Hin (Hs & o & Hl & Hw & Hkeep) Hbody.
  destruct (mergeKey_objects rec lt ls o os key h h' Hrec Hne Hl Hs Hbody)
    as (Hs' & o' & Hl' & Hno & Hyes).
  destruct (isObject (lookup_property os key)) eqn:Eobj.
  - destruct (Hyes eq_refl) as (v & -> & Hv & Hsame). clear Hno Hyes.
    assert (Htab : tableKey os key) by now apply object_tableKey.
    assert (Hwrite : ∀ k, k ≠ key →
              lookup_property (put o key v) k = lookup_property o k).
    { intros k Hk. apply lookup_property_put_ne. congruence. }
    split; [| split].
    + split; [exact Hs'|]. exists (put o key v). split; [exact Hl' | split].
      * eapply writesObjects_trans; [exact Hw | now apply writesObjects_put].
      * intros k Hk. rewrite Hwrite; [now apply Hkeep|].
        intros ->. now apply Hk.
    + exists (put o key v). split; [exact Hl'|]. intros _.
      rewrite lookup_property_put_eq. split; [exact Hv|].
      intros Ht. apply Hsame. destruct (Hw key) as [E | E].
      * now rewrite E.
      * now apply isObject_truthy.
    + intros y (o0 & Hl0 & Hk). assert (o0 = o) as -> by congruence.
      exists (put o key v). split; [exact Hl'|]. intros Hy.
      destruct (Hk Hy) as (Hobj & Hsrc).
      destruct (decide (y = key)) as [-> | Hdiff].
      * rewrite lookup_property_put_eq. split; [exact Hv|]. intros _.
        apply Hsame. now apply isObject_truthy.
      * rewrite Hwrite by exact Hdiff. auto.
  - rewrite (Hno eq_refl) in Hl'. clear Hno Hyes.
    split; [| split].
    + split; [exact Hs'|]. exists o.
      split; [exact Hl' | split; [exact Hw | exact Hkeep]].
    + exists o. split; [exact Hl'|]. intros Htab.
      apply tableKey_object in Htab. congruence.
    + intros y (o0 & Hl0 & Hk). assert (o0 = o) as -> by congruence.
      exists o. split; [exact Hl' | exact Hk].
Qed.

(** One call [mergeDeep(target, source)] on two distinct objects. *)
Lemma mergeDeep_objects (fuel : nat) (lt ls : loc) (ot os : object)
    (h : heap) (r : value) (h' : heap) :
  lt ≠ ls → h !! lt = Some ot → h !! ls = Some os →
  mergeDeep fuel (VRef lt) [VRef ls] h = Ok (r, h') →
  h' !! ls = Some os
  ∧ ∃ o, h' !! lt = Some o ∧ mergedInto ot os o
         ∧ ∀ k, keyMerged ot os o k.
Proof.
  intros Hne Hl Hs H.
  destruct fuel as [|fuel]; [discriminate|].
  rewrite mergeDeep_step in H. cbn [isObject andb] in H.
  apply bind_inv in H as ([] & h1 & Hloop & H).
  destruct fuel as [|fuel]; [discriminate|]. injection H as _ <-.
  apply bind_inv in Hloop as (keys & h0 & Hkeys & Hloop).
  rewrite (ownKeys_ref _ _ _ Hs) in Hkeys. injection Hkeys as <- <-.
  pose (I := λ hi : heap,
          hi !! ls = Some os ∧ ∃ o, hi !! lt = Some o ∧ mergedInto ot os o).
  pose (Q := λ (key : string) (hi : heap),
          ∃ o, hi !! lt = Some o ∧ keyMerged ot os o key).
  destruct (forEach_invariant
              (mergeKey (mergeDeep (S fuel)) (VRef lt) (VRef ls))
              I Q (map fst os) h h1) as ((Hs1 & o & Hl1 & Hm) & HQ & _);
    [| | exact Hloop |].
  - intros x ha hb Hx HI Hbody.
    apply (mergeKey_invariant (mergeDeep (S fuel)) lt ls ot os x ha hb);
      try assumption.
    intros t ss h2 r2 h3 Hcall. now apply mergeDeep_effect in Hcall.
  - split; [exact Hs|]. exists ot. split; [exact Hl | split].
    + apply writesObjects_refl.
    + auto.
  - split; [exact Hs1|]. exists o. split; [exact Hl1 | split; [exact Hm|]].
    intros k Htab. destruct Htab as (x & Hx & Hobj).
    destruct (HQ k (own_in_keys _ _ _ Hx)) as (o0 & Hl0 & Hk).
    assert (o0 = o) as -> by congruence.
    apply Hk. now exists x.
Qed.

(** X1.  Whenever [mergeDeep] returns, it returns its first argument
    itself; the heap only grew; every object that existed and is not the
    target, the sources included, is as it was; and every property of the
    target either has its old value or now holds an object. *)
Theorem mergeDeep_returns_target (fuel : nat) (target : value)
    (sources : list value) (h : heap) (r : value) (h' : heap) :
  mergeDeep fuel target sources h = Ok (r, h') →
  r = target
  ∧ (length h ≤ length h')%nat
  ∧ (∀ l o, h !! l = Some o → target ≠ VRef l → h' !! l = Some o)
  ∧ (∀ l o, target = VRef l → h !! l = Some o →
       ∃ o', h' !! l = Some o'
             ∧ ∀ k, lookup_property o' k = lookup_property o k
                    ∨ isObject (lookup_property o' k) = true).
Proof.
  intros H. apply mergeDeep_effect in H as (-> & Hlen & Hoth & Htgt).
  split; [reflexivity | split; [exact Hlen | split; [exact Hoth|]]].
  intros l o Ht Hl. destruct (Htgt l o Ht Hl) as (o' & Hl' & Hw).
  exists o'. split; [exact Hl' | exact Hw].
Qed.

Lemma mergeDeep_returns_target_witness :
  ∃ h', mergeDeep 4 (VRef 0) [VRef 2] familyHeap = Ok (VRef 0, h')
        ∧ h' !! 2 = familyHeap !! 2
        ∧ ∃ o', h' !! 0 = Some o'
                ∧ lookup_property o' "keyword" = VStr "#00ff00".
Proof.
  destruct (mergeDeep 4 (VRef 0) [VRef 2] familyHeap) as [[r h']|e] eqn:E;
    [| vm_compute in E; discriminate].
  destruct (mergeDeep_returns_target _ _ _ _ _ _ E)
    as (-> & _ & Hoth & Htgt).
  exists h'. split; [reflexivity | split].
  - apply (Hoth 2); [reflexivity | discriminate].
  - destruct (Htgt 0 _ eq_refl eq_refl) as (o' & Hl' & Hw).
    exists o'. split; [exact Hl'|].
    destruct (Hw "keyword") as [Hk | Hk]; [exact Hk|].
    exfalso. vm_compute in E. injection E as <-.
    vm_compute in Hl'. injection Hl' as <-. discriminate.
Defined.

(** ** [resolveInheritedTheme]: the resolved document *)

Lemma hasProp_own (h : heap) (l : loc) (doc : object) (k : string)
    (v : value) :
  h !! l = Some doc → own doc k = Some v →
  hasProp k (VRef l) h = Ok (true, h).
Proof.
  intros Hl Hown. unfold hasProp. unfold object in *. rewrite Hl, Hown.
  reflexivity.
Qed.

(** The steps of [resolveInheritedTheme] on a theme that has an own
    [inherits]. *)
Lemma resolveInheritedTheme_inv (fuel : nat)
    (themeMap : list (string * value)) (themeName : string) (l : loc)
    (doc : object) (v : value) (h : heap) (r : string * value) (h' : heap) :
  h !! l = Some doc → own doc "inherits" = Some v →
  resolveInheritedTheme fuel themeMap (themeName, VRef l) h = Ok (r, h') →
  ∃ merged h1 result,
    mergeDeep fuel (themeMap_get themeMap v) [VRef l] h = Ok (merged, h1)
    ∧ mergeDeep fuel (themeMap_get themeMap v) [VRef l] h1 = Ok (result, h')
    ∧ r = (themeName, result).
Proof.
  intros Hl Hown H. unfold resolveInheritedTheme in H.
  rewrite bind_run, (hasProp_own _ _ _ _ _ Hl Hown) in H.
  rewrite bind_run, (getProp_ref _ _ _ _ Hl) in H.
  rewrite (lookup_property_own _ _ _ Hown) in H.
  apply bind_inv in H as (merged & h1 & Hfirst & H).
  apply bind_inv in H as (result & h2 & Hsecond & H).
  injection H as <- <-. eauto 6.
Qed.

(** X2.  For a theme with an own [inherits], whenever
    [resolveInheritedTheme] returns, the document it returns is the very
    value the theme map holds for that name: the parent object itself, or
    [undefined] when no theme has that name.  Nothing the child contains
    changes which object comes back. *)
Theorem resolveInheritedTheme_returns_parent (fuel : nat)
    (themeMap : list (string * value)) (themeName : string) (l : loc)
    (doc : object) (v : value) (h : heap) (r : string * value) (h' : heap) :
  h !! l = Some doc → own doc "inherits" = Some v →
  resolveInheritedTheme fuel themeMap (themeName, VRef l) h = Ok (r, h') →
  r = (themeName, themeMap_get themeMap v).
Proof.
  intros Hl Hown H.
  destruct (resolveInheritedTheme_inv _ _ _ _ _ _ _ _ _ Hl Hown H)
    as (merged & h1 & result & _ & Hsecond & ->).
  apply mergeDeep_effect in Hsecond as [-> _]. reflexivity.
Qed.

Lemma resolveInheritedTheme_returns_parent_witness :
  ∃ h', resolveInheritedTheme 4 familyMap ("child", VRef 2) familyHeap
        = Ok (("child", VRef 0), h').
Proof.
  destruct (resolveInheritedTheme 4 familyMap ("child", VRef 2) familyHeap)
    as [[r h']|e] eqn:E; [| vm_compute in E; discriminate].
  exists h'. f_equal. f_equal.
  exact (resolveInheritedTheme_returns_parent 4 familyMap "child" 2 _
           (VStr "parent") familyHeap r h' eq_refl eq_refl E).
Defined.

(** ** [mergeDeep]: which properties of the target change *)

(** X3.  One call [mergeDeep(target, source)] on two distinct objects,
    whenever it returns: the source is as it was; a target property whose
    key is no table key of the source (the source lacks it, or holds a
    string, a number, a boolean or an array there) keeps its value, so such
    source values are never copied; a target property that was truthy and
    whose key is a table key of the source now is the source's own table,
    whole; and under every table key of the source the target holds an
    object. *)
Theorem mergeDeep_copies_only_tables (fuel : nat) (lt ls : loc)
    (ot os : object) (h : heap) (r : value) (h' : heap) :
  lt ≠ ls → h !! lt = Some ot → h !! ls = Some os →
  mergeDeep fuel (VRef lt) [VRef ls] h = Ok (r, h') →
  h' !! ls = Some os
  ∧ ∃ o, h' !! lt = Some o
         ∧ (∀ k, ¬ tableKey os k →
                 lookup_property o k = lookup_property ot k)
         ∧ (∀ k, tableKey os k → truthy (lookup_property ot k) = true →
                 lookup_property o k = lookup_property os k)
         ∧ (∀ k, tableKey os k → isObject (lookup_property o k) = true).
Proof.
  intros Hne Hl Hs H.
  destruct (mergeDeep_objects fuel lt ls ot os h r h' Hne Hl Hs H)
    as (Hs' & o & Hl' & (_ & Hkeep) & Hkeys).
  split; [exact Hs'|]. exists o.
  split; [exact Hl' | split; [exact Hkeep | split]].
  - intros k Htab Ht. now apply (Hkeys k Htab).
  - intros k Htab. now apply (Hkeys k Htab).
Qed.

Lemma mergeDeep_copies_only_tables_witness :
  ∃ h' o, mergeDeep 4 (VRef 0) [VRef 2] familyHeap = Ok (VRef 0, h')
          ∧ h' !! 0 = Some o
          ∧ lookup_property o "keyword" = VStr "#00ff00"
          ∧ lookup_property o "type" = VRef 3.
Proof.
  destruct (mergeDeep 4 (VRef 0) [VRef 2] familyHeap) as [[r h']|e] eqn:E;
    [| vm_compute in E; discriminate].
  assert (Hr : r = VRef 0) by (vm_compute in E; congruence). subst r.
  destruct (mergeDeep_copies_only_tables 4 0 2 _ _ familyHeap (VRef 0) h'
              ltac:(discriminate) eq_refl eq_refl E)
    as (_ & o & Hl' & Hkeep & Hrepl & _).
  exists h', o. split; [reflexivity | split; [exact Hl' | split]].
  - rewrite Hkeep; [reflexivity|].
    intros (x & Hx & Hobj). vm_compute in Hx. injection Hx as <-.
    discriminate.
  - rewrite Hrepl; [reflexivity | | reflexivity].
    exists (VRef 3). split; reflexivity.
Defined.

(** X4.  For a child with an own [inherits] that names another object of
    the theme map, whenever [resolveInheritedTheme] returns: the resolved
    document is the parent object; the child is as it was; under every
    table key of the child the parent now holds the child's own table (the
    same object, the parent's former table is gone as a whole); and every
    other property of the parent --- also where the child holds a string ---
    is as it was. *)
Theorem resolveInheritedTheme_replaces_tables (fuel : nat)
    (themeMap : list (string * value)) (themeName : string)
    (lc lp : loc) (oc op : object) (v : value) (h : heap)
    (r : string * value) (h' : heap) :
  lp ≠ lc → h !! lc = Some oc → h !! lp = Some op →
  own oc "inherits" = Some v → themeMap_get themeMap v = VRef lp →
  resolveInheritedTheme fuel themeMap (themeName, VRef lc) h = Ok (r, h') →
  r = (themeName, VRef lp)
  ∧ h' !! lc = Some oc
  ∧ ∃ o, h' !! lp = Some o
         ∧ (∀ k, tableKey oc k →
                 lookup_property o k = lookup_property oc k)
         ∧ (∀ k, ¬ tableKey oc k →
                 lookup_property o k = lookup_property op k).
Proof.
  intros Hne Hc Hp Hown Hget H.
  destruct (resolveInheritedTheme_inv _ _ _ _ _ _ _ _ _ Hc Hown H)
    as (merged & h1 & result & Hfirst & Hsecond & ->).
  rewrite Hget in Hfirst, Hsecond.
  destruct (mergeDeep_objects _ _ _ _ _ _ _ _ Hne Hp Hc Hfirst)
    as (Hc1 & o1 & Hp1 & (_ & Hkeep1) & Hkeys1).
  pose proof (mergeDeep_effect _ _ _ _ _ _ Hsecond) as [-> _].
  destruct (mergeDeep_objects _ _ _ _ _ _ _ _ Hne Hp1 Hc1 Hsecond)
    as (Hc2 & o2 & Hp2 & (_ & Hkeep2) & Hkeys2).
  split; [reflexivity | split; [exact Hc2|]].
  exists o2. split; [exact Hp2 | split].
  - intros k Htab. apply (Hkeys2 k Htab).
    apply isObject_truthy. now apply (Hkeys1 k Htab).
  - intros k Hk. rewrite (Hkeep2 k Hk). now apply Hkeep1.
Qed.

Lemma resolveInheritedTheme_replaces_tables_witness :
  ∃ h' o, resolveInheritedTheme 4 familyMap ("child", VRef 2) familyHeap
          = Ok (("child", VRef 0), h')
          ∧ h' !! 0 = Some o
          ∧ lookup_property o "type" = VRef 3
          ∧ lookup_property o "comment" = VRef 4
          ∧ lookup_property o "keyword" = VStr "#00ff00".
Proof.
  destruct (resolveInheritedTheme 4 familyMap ("child", VRef 2) familyHeap)
    as [[r h']|e] eqn:E; [| vm_compute in E; discriminate].
  destruct (resolveInheritedTheme_replaces_tables 4 familyMap "child" 2 0
              _ _ (VStr "parent") familyHeap r h'
              ltac:(discriminate) eq_refl eq_refl eq_refl eq_refl E)
    as (-> & _ & o & Hl' & Htab & Hkeep).
  exists h', o. split; [reflexivity | split; [exact Hl' | split; [| split]]].
  - rewrite Htab; [reflexivity|]. exists (VRef 3). split; reflexivity.
  - rewrite Htab; [reflexivity|]. exists (VRef 4). split; reflexivity.
  - rewrite Hkeep; [reflexivity|].
    intros (x & Hx & Hobj). vm_compute in Hx. injection Hx as <-.
    discriminate.
Defined.

(** ** A parent that was not loaded *)

Lemma mapJs_fails {A B} (f : A → js B) (xs : list A) (x : A) :
  x ∈ xs → (∀ h, ∃ e, f x h = Err e) → ∀ h, ∃ e, mapJs f xs h = Err e.
Proof.
  intros Hin Hf. induction xs as [|y xs IH]; intros h.
  - now apply elem_of_nil in Hin.
  - cbn [mapJs]. rewrite bind_run.
    apply elem_of_cons in Hin as [<- | Hin].
    + destruct (Hf h) as (e & ->). eauto.
    + destruct (f y h) as [[b h1]|e]; [| eauto].
      rewrite bind_run. destruct (IH Hin h1) as (e & ->). eauto.
Qed.

(** X5.  A theme whose own [inherits] names no theme of the map resolves,
    with two units of fuel or more, to the document [undefined], and the
    heap is untouched.  Resolving an entry whose document is [undefined]
    throws a TypeError, so a pass over any list that holds such an entry
    does not return. *)
Theorem resolveInheritedTheme_unknown_parent (n : nat)
    (themeMap : list (string * value)) (themeName : string) (l : loc)
    (doc : object) (v : value) (h : heap) :
  h !! l = Some doc → own doc "inherits" = Some v →
  themeMap_get themeMap v = VUndefined →
  resolveInheritedTheme (2 + n) themeMap (themeName, VRef l) h
  = Ok ((themeName, VUndefined), h)
  ∧ (∀ fuel themeMap' h',
       resolveInheritedTheme fuel themeMap' (themeName, VUndefined) h'
       = Err TypeError)
  ∧ (∀ fuel themeMap' once h',
       (themeName, VUndefined) ∈ once →
       ∃ e, mapJs (resolveInheritedTheme fuel themeMap') once h' = Err e).
Proof.
  intros Hl Hown Hget. split; [| split].
  - unfold resolveInheritedTheme.
    rewrite bind_run, (hasProp_own _ _ _ _ _ Hl Hown).
    rewrite bind_run, (getProp_ref _ _ _ _ Hl).
    rewrite (lookup_property_own _ _ _ Hown), Hget. reflexivity.
  - reflexivity.
  - intros fuel themeMap' once h' Hin.
    apply (mapJs_fails _ _ _ Hin). intros h0. now exists TypeError.
Qed.

Lemma resolveInheritedTheme_unknown_parent_witness :
  resolveInheritedTheme 2 [("orphan", VRef 0)] ("orphan", VRef 0) orphanHeap
  = Ok (("orphan", VUndefined), orphanHeap)
  ∧ ∃ e, mapJs (resolveInheritedTheme 2 [("orphan", VRef 0)])
           [("orphan", VUndefined)] orphanHeap = Err e.
Proof.
  destruct (resolveInheritedTheme_unknown_parent 0 [("orphan", VRef 0)]
              "orphan" 0 _ (VStr "nowhere") orphanHeap
              eq_refl eq_refl eq_refl) as (Hfirst & _ & Hpass).
  split; [exact Hfirst|].
  apply Hpass. apply list_elem_of_here.
Defined.

(** ** The passes over themes that inherit nothing *)

Lemma resolveInheritedTheme_plain (fuel : nat)
    (themeMap : list (string * value)) (entry : string * value) (h : heap) :
  plainTheme h entry →
  resolveInheritedTheme fuel themeMap entry h = Ok (entry, h).
Proof.
  destruct entry as [themeName theme]. intros (l & doc & Ht & Hl & Hown).
  simpl in Ht. subst theme. unfold resolveInheritedTheme.
  rewrite bind_run. unfold hasProp. unfold object in *.
  rewrite Hl, Hown. reflexivity.
Qed.

Lemma mapJs_identity {A} (f : A → js A) (xs : list A) (h : heap) :
  Forall (λ x, f x h = Ok (x, h)) xs → mapJs f xs h = Ok (xs, h).
Proof.
  induction 1 as [|x xs Hx _ IH]; [reflexivity|].
  cbn [mapJs]. rewrite bind_run, Hx, bind_run, IH. reflexivity.
Qed.

(** X6.  When every theme of the list is an object with no own
    [inherits], the two passes return the list itself and leave the heap
    untouched, with any fuel. *)
Theorem themes_without_inherits (fuel : nat)
    (unmerged : list (string * value)) (h : heap) :
  Forall (plainTheme h) unmerged →
  themes fuel unmerged h = Ok (unmerged, h).
Proof.
  intros Hall.
  assert (Hpass : mapJs (resolveInheritedTheme fuel unmerged) unmerged h
                  = Ok (unmerged, h)).
  { apply mapJs_identity. eapply Forall_impl; [exact Hall|].
    intros entry Hentry. now apply resolveInheritedTheme_plain. }
  unfold themes. rewrite bind_run, Hpass. exact Hpass.
Qed.

Lemma themes_without_inherits_witness :
  themes 0 [("a", VRef 1); ("b", VRef 3)] familyHeap
  = Ok ([("a", VRef 1); ("b", VRef 3)], familyHeap).
Proof.
  apply themes_without_inherits.
  constructor; [| constructor; [| constructor]].
  - exists 1, [("fg", VStr "#111111"); ("bg", VStr "#222222")].
    split; [reflexivity | split; reflexivity].
  - exists 3, [("fg", VStr "#999999")].
    split; [reflexivity | split; reflexivity].
Defined.

(** ** [parsedThemes]: which themes are processed *)

Lemma flatMapJs_skip {A B} (f : A → js (list B)) (P : A → Prop)
    `{∀ x, Decision (P x)} (xs : list A) (h : heap) :
  (∀ x h', ¬ P x → f x h' = Ok ([], h')) →
  flatMapJs f xs h = flatMapJs f (filter P xs) h.
Proof.
  intros Hskip. revert h. induction xs as [|x xs IH]; intros h;
    [reflexivity|].
  rewrite filter_cons. destruct (decide (P x)) as [HP | HP].
  - cbn [flatMapJs]. rewrite !bind_run.
    destruct (f x h) as [[ys h1]|e]; [| reflexivity].
    rewrite !bind_run, IH. reflexivity.
  - rewrite <- IH. cbn [flatMapJs].
    rewrite bind_run, (Hskip x h HP), bind_run.
    destruct (flatMapJs f xs h) as [[zs h1]|e]; reflexivity.
Qed.

(** X7.  [parsedThemes] processes the themes called [catppuccin_mocha]
    and no other: on any list of themes it does exactly what it does on the
    entries with that name, so the other themes are never read (they need
    no [ui.background], nor be objects at all). *)
Theorem parsedThemes_only_catppuccin_mocha (entries : list (string * value))
    (h : heap) :
  parsedThemes entries h
  = parsedThemes (filter (λ entry, entry.1 = "catppuccin_mocha") entries) h.
Proof.
  unfold parsedThemes. rewrite !bind_run.
  rewrite (flatMapJs_skip _ (λ entry, entry.1 = "catppuccin_mocha")).
  - reflexivity.
  - intros [themeName theme] h' Hname. simpl in Hname.
    apply String.eqb_neq in Hname. now rewrite Hname.
Qed.

(** X8.  A theme object with no [ui.background] makes [resolveScopes]
    throw a TypeError, and so does [parsedThemes] when the first theme
    called [catppuccin_mocha] is such an object, whatever follows it. *)
Theorem resolveScopes_without_background (lt : loc) (doc : object)
    (h : heap) (rest : list (string * value)) :
  h !! lt = Some doc →
  lookup_property doc "ui.background" = VUndefined →
  (∀ themeName, resolveScopes themeName (VRef lt) h = Err TypeError)
  ∧ parsedThemes (("catppuccin_mocha", VRef lt) :: rest) h = Err TypeError.
Proof.
  intros Hl Hub.
  assert (Hres : ∀ themeName,
            resolveScopes themeName (VRef lt) h = Err TypeError).
  { intros themeName. unfold resolveScopes, makeBackground.
    rewrite !bind_run, (getProp_ref _ _ _ _ Hl), Hub. reflexivity. }
  split; [exact Hres|].
  unfold parsedThemes. rewrite bind_run. cbn [flatMapJs].
  rewrite bind_run.
  change (negb ("catppuccin_mocha" =? "catppuccin_mocha")%string) with false.
  cbv iota. rewrite bind_run, Hres. reflexivity.
Qed.

Lemma resolveScopes_without_background_witness :
  resolveScopes "catppuccin_mocha" (VRef 1) familyHeap = Err TypeError
  ∧ parsedThemes [("catppuccin_mocha", VRef 1); ("other", VUndefined)]
      familyHeap = Err TypeError.
Proof.
  destruct (resolveScopes_without_background 1 _ familyHeap
              [("other", VUndefined)] eq_refl eq_refl) as (Hres & Hparsed).
  split; [apply Hres | exact Hparsed].
Defined.

(** ** The scope map: own values, shared objects, the status line *)

Ltac unfold_getters H :=
  unfold getKeyword, getVariableParameter, getUiLinenr, getMacro,
    getFunction, getOperator, getPunctuationDelimiter, getPunctuation,
    getConstantNumeric, getConstant, getComment, getTypeBuiltin, getType,
    getUiVirtualRuler, getUiVirtualIndentGuide, getUiVirtual,
    getUiVirtualInlayHint, getUiCursor, getVariable,
    getUiCursorlinePrimary, getUiCursorline, getUiLinenrSelected,
    getHighlight in H.

(** The scope [scope] of the resolved map and the run of its getter. *)
Ltac scope_run Hall hb hf resolved lt lb :=
  match goal with
  | |- context [own resolved ?s] =>
      let Hmem := fresh "Hmem" in
      eassert (Hmem : (s, _) ∈ scopeGetters (VRef lt) (VRef lb))
        by find_getter;
      destruct (resolved_own hb hf _ resolved s _ Hall
                  (NoDup_scopeGetters _ _) Hmem)
        as (color & Hown & _ & h1 & h2 & Hpre1 & Hrun & Hpre2);
      clear Hmem; cbn [snd] in Hrun
  end.

(** A scope whose own key the theme defines. *)
Lemma scope_own_value (lt : loc) (doc : object) (hb hf : heap) (lb : loc)
    (resolved : scopes) (scope key : string) :
  hb !! lt = Some doc →
  Forall2 (resolvedBy hb hf) (scopeGetters (VRef lt) (VRef lb)) resolved →
  (scope, key) ∈ scopeKeys →
  (∀ s, lookup_property doc key = VStr s →
     ∃ l, own resolved scope = Some (VRef l)
          ∧ (length hb ≤ l)%nat ∧ hf !! l = Some [("fg", VStr s)])
  ∧ (is_string (lookup_property doc key) = false →
     truthy (lookup_property doc key) = true →
     own resolved scope = Some (lookup_property doc key)).
Proof.
  intros Hl Hall Hin. unfold scopeKeys in Hin.
  repeat (apply elem_of_cons in Hin as [Hin | Hin];
          [injection Hin as -> -> |]);
    [.. | now apply elem_of_nil in Hin];
    (scope_run Hall hb hf resolved lt lb;
     pose proof (prefix_lookup_Some _ _ _ _ Hl Hpre1) as Hl1;
     unfold_getters Hrun;
     first [ rewrite (getFallbackColor_run lt doc _ _ h1 Hl1) in Hrun
           | rewrite (getColor_run lt doc _ _ h1 Hl1) in Hrun ];
     cbv zeta in Hrun;
     split;
     [ intros s Hs; rewrite Hs in Hrun; cbn [is_string] in Hrun;
       unfold newObject in Hrun; injection Hrun as <- <-;
       exists (length h1); split; [exact Hown | split];
       [ now apply prefix_length
       | eapply prefix_lookup_Some; [| exact Hpre2];
         apply list_lookup_middle, eq_refl ]
     | intros Hs Ht; rewrite Hs, Ht in Hrun; injection Hrun as <- _;
       exact Hown ]).
Qed.

(** X9.  For every theme object whose [ui.background] can be read, and
    every scope of [scopeKeys] with the key its getter reads first: when the
    theme holds a string [s] under that key the resolved scope is an object
    allocated by this run that is exactly [{fg: s}]; when it holds any other
    truthy value (a table, say) the resolved scope is that very value, the
    theme's own object and no copy. *)
Theorem resolveScopes_own_value (themeName : string) (lt : loc)
    (doc : object) (h : heap) (fg bg : value) :
  h !! lt = Some doc →
  getProp (lookup_property doc "ui.background") "fg" h = Ok (fg, h) →
  getProp (lookup_property doc "ui.background") "bg" h = Ok (bg, h) →
  valid h (lookup_property doc "ui.statusline") →
  ∃ resolved hf,
    resolveScopes themeName (VRef lt) h
    = Ok ((themeName, lookup_property doc "palette", resolved), hf)
    ∧ ∀ scope key,
        (scope, key) ∈ scopeKeys →
        (∀ s, lookup_property doc key = VStr s →
           ∃ l, own resolved scope = Some (VRef l)
                ∧ (length h < l)%nat ∧ hf !! l = Some [("fg", VStr s)])
        ∧ (is_string (lookup_property doc key) = false →
           truthy (lookup_property doc key) = true →
           own resolved scope = Some (lookup_property doc key)).
Proof.
  intros Hl Hfg Hbg Hv.
  destruct (resolveScopes_run themeName lt doc h fg bg Hl Hfg Hbg Hv)
    as (resolved & hf & E & Hpre & Hall).
  exists resolved, hf. split; [exact E|].
  intros scope key Hin.
  destruct (scope_own_value lt doc _ hf (length h) resolved scope key
              (lookup_app_l_Some _ _ _ _ Hl) Hall Hin) as (Hstr & Hval).
  split; [| exact Hval].
  intros s Hs. destruct (Hstr s Hs) as (l & Hown & Hlen & Hobj).
  exists l. split; [exact Hown | split; [| exact Hobj]].
  rewrite length_app in Hlen. simpl in Hlen. lia.
Qed.

Lemma resolveScopes_own_value_witness :
  ∃ resolved hf,
    resolveScopes "catppuccin_mocha" (VRef 2) scopesHeap
    = Ok (("catppuccin_mocha", VUndefined, resolved), hf)
    ∧ (∃ l, own resolved "keyword" = Some (VRef l)
            ∧ (4 < l)%nat ∧ hf !! l = Some [("fg", VStr "#cba6f7")])
    ∧ own resolved "function" = Some (VRef 1).
Proof.
  destruct (resolveScopes_own_value "catppuccin_mocha" 2 _ scopesHeap
              (VStr "#cdd6f4") (VStr "#1e1e2e")
              eq_refl eq_refl eq_refl (ex_intro _ _ eq_refl))
    as (resolved & hf & E & Hscopes).
  exists resolved, hf. split; [exact E | split].
  - apply (Hscopes "keyword" "keyword"); [unfold scopeKeys; in_list|].
    reflexivity.
  - apply (Hscopes "function" "function");
      [unfold scopeKeys; in_list | reflexivity | reflexivity].
Defined.

(** A scope of [backgroundChains] whose keys the theme omits is the
    background object. *)
Lemma background_chain_run (lt : loc) (doc : object) (hb hf : heap)
    (lb : loc) (resolved : scopes) (scope : string) (keys : list string) :
  hb !! lt = Some doc →
  Forall2 (resolvedBy hb hf) (scopeGetters (VRef lt) (VRef lb)) resolved →
  (scope, keys) ∈ backgroundChains →
  (∀ key, key ∈ keys → omitted (lookup_property doc key)) →
  own resolved scope = Some (VRef lb).
Proof.
  intros Hl Hall Hin Hkeys. unfold backgroundChains in Hin.
  repeat (apply elem_of_cons in Hin as [Hin | Hin];
          [injection Hin as -> -> |]);
    [.. | now apply elem_of_nil in Hin];
    (scope_run Hall hb hf resolved lt lb;
     pose proof (prefix_lookup_Some _ _ _ _ Hl Hpre1) as Hl1;
     unfold_getters Hrun;
     repeat first
       [ rewrite (getFallbackColor_omitted lt doc _ _ h1 Hl1) in Hrun
           by (apply Hkeys; in_list)
       | rewrite (getColor_omitted lt doc _ _ h1 Hl1) in Hrun
           by (apply Hkeys; in_list) ];
     injection Hrun as <- _; exact Hown).
Qed.

(** X10.  For every theme object whose [ui.background] can be read: the
    [ui.background] scope is the background object this run allocates, and
    every scope of [backgroundChains] whose keys the theme omits is that
    same object, not a copy, so these scopes share one colour pair. *)
Theorem resolveScopes_shares_background (themeName : string) (lt : loc)
    (doc : object) (h : heap) (fg bg : value) :
  h !! lt = Some doc →
  getProp (lookup_property doc "ui.background") "fg" h = Ok (fg, h) →
  getProp (lookup_property doc "ui.background") "bg" h = Ok (bg, h) →
  valid h (lookup_property doc "ui.statusline") →
  ∃ resolved hf,
    resolveScopes themeName (VRef lt) h
    = Ok ((themeName, lookup_property doc "palette", resolved), hf)
    ∧ own resolved "ui.background" = Some (VRef (length h))
    ∧ ∀ scope keys,
        (scope, keys) ∈ backgroundChains →
        (∀ key, key ∈ keys → omitted (lookup_property doc key)) →
        own resolved scope = Some (VRef (length h)).
Proof.
  intros Hl Hfg Hbg Hv.
  destruct (resolveScopes_run themeName lt doc h fg bg Hl Hfg Hbg Hv)
    as (resolved & hf & E & Hpre & Hall).
  exists resolved, hf. split; [exact E | split].
  - scope_run Hall
      (h ++ [[("bg", bg); ("fg", if truthy fg then fg else VStr "#ffaaaa")]])
      hf resolved lt (length h).
    injection Hrun as <- _. exact Hown.
  - intros scope keys Hin Hkeys.
    exact (background_chain_run lt doc _ hf (length h) resolved scope keys
             (lookup_app_l_Some _ _ _ _ Hl) Hall Hin Hkeys).
Qed.

Lemma resolveScopes_shares_background_witness :
  ∃ resolved hf,
    resolveScopes "catppuccin_mocha" (VRef 2) scopesHeap
    = Ok (("catppuccin_mocha", VUndefined, resolved), hf)
    ∧ own resolved "ui.background" = Some (VRef 4)
    ∧ own resolved "ui.cursorline.primary" = Some (VRef 4)
    ∧ own resolved "ui.linenr.selected" = Some (VRef 4).
Proof.
  destruct (resolveScopes_shares_background "catppuccin_mocha" 2 _ scopesHeap
              (VStr "#cdd6f4") (VStr "#1e1e2e")
              eq_refl eq_refl eq_refl (ex_intro _ _ eq_refl))
    as (resolved & hf & E & Hbg & Hchains).
  exists resolved, hf.
  split; [exact E | split; [exact Hbg | split]].
  - apply (Hchains "ui.cursorline.primary"
             ["ui.cursorline.primary"; "ui.cursorline"; "ui.highlight"]);
      [unfold backgroundChains; in_list|].
    intros key Hin.
    repeat (apply elem_of_cons in Hin as [-> | Hin]; [split; reflexivity|]).
    apply elem_of_nil in Hin. destruct Hin.
  - apply (Hchains "ui.linenr.selected" ["ui.linenr.selected"; "ui.highlight"]);
      [unfold backgroundChains; in_list|].
    intros key Hin.
    repeat (apply elem_of_cons in Hin as [-> | Hin]; [split; reflexivity|]).
    apply elem_of_nil in Hin. destruct Hin.
Defined.

(** A read that returned keeps returning the same on a larger heap. *)
Lemma getProp_prefix (v x : value) (k : string) (h h1 : heap) :
  getProp v k h = Ok (x, h) → h `prefix_of` h1 →
  getProp v k h1 = Ok (x, h1).
Proof.
  intros H Hpre. destruct v as [| | | | | | |l];
    try (unfold getProp in *; repeat case_match; congruence).
  apply getProp_ref_inv in H as (o & Hl & ->).
  now apply (getProp_ref_prefix h h1).
Qed.

(** X11.  For every theme object whose [ui.background] can be read, the
    [ui.statusline] scope is an object allocated by this run: the empty
    object when the theme's [ui.statusline] is falsy (absent, say), and
    otherwise the pair whose [fg] is the status line's [fg] if truthy and
    else the background foreground, and whose [bg] is the status line's [bg]
    if truthy and else the background's [bg]: the two channels default
    independently. *)
Theorem resolveScopes_statusline (themeName : string) (lt : loc)
    (doc : object) (h : heap) (fg bg : value) :
  h !! lt = Some doc →
  getProp (lookup_property doc "ui.background") "fg" h = Ok (fg, h) →
  getProp (lookup_property doc "ui.background") "bg" h = Ok (bg, h) →
  valid h (lookup_property doc "ui.statusline") →
  ∃ resolved hf l,
    resolveScopes themeName (VRef lt) h
    = Ok ((themeName, lookup_property doc "palette", resolved), hf)
    ∧ own resolved "ui.statusline" = Some (VRef l)
    ∧ (length h < l)%nat
    ∧ (truthy (lookup_property doc "ui.statusline") = false →
       hf !! l = Some [])
    ∧ (truthy (lookup_property doc "ui.statusline") = true →
       ∀ sfg sbg,
         getProp (lookup_property doc "ui.statusline") "fg" h = Ok (sfg, h) →
         getProp (lookup_property doc "ui.statusline") "bg" h = Ok (sbg, h) →
         hf !! l
         = Some [("fg", if truthy sfg then sfg
                        else if truthy fg then fg else VStr "#ffaaaa");
                 ("bg", if truthy sbg then sbg else bg)]).
Proof.
  intros Hl Hfg Hbg Hv.
  destruct (resolveScopes_run themeName lt doc h fg bg Hl Hfg Hbg Hv)
    as (resolved & hf & E & Hpre & Hall).
  set (background :=
         [("bg", bg); ("fg", if truthy fg then fg else VStr "#ffaaaa")])
    in *.
  assert (Hmem : ("ui.statusline",
                  getUiStatusline (VRef lt) (VRef (length h)))
                 ∈ scopeGetters (VRef lt) (VRef (length h)))
    by find_getter.
  destruct (resolved_own _ hf _ resolved "ui.statusline" _ Hall
              (NoDup_scopeGetters _ _) Hmem)
    as (color & Hown & _ & h1 & h2 & Hpre1 & Hrun & Hpre2).
  cbn [snd] in Hrun.
  assert (Hpre0 : h `prefix_of` h1)
    by (etrans; [apply prefix_snoc | exact Hpre1]).
  pose proof (prefix_lookup_Some _ _ _ _ Hl Hpre0) as Hl1.
  assert (Hb1 : h1 !! length h = Some background).
  { eapply prefix_lookup_Some; [| exact Hpre1].
    apply list_lookup_middle, eq_refl. }
  assert (Hlen : (length h < length h1)%nat).
  { apply prefix_length in Hpre1. rewrite length_app in Hpre1.
    simpl in Hpre1. lia. }
  unfold getUiStatusline in Hrun.
  rewrite bind_run, (getProp_ref _ _ _ _ Hl1) in Hrun.
  exists resolved, hf, (length h1).
  destruct (truthy (lookup_property doc "ui.statusline")) eqn:Et;
    cbn [negb] in Hrun.
  - destruct (getProp_channel_valid _ "fg" h (truthy_defined _ Et) Hv)
      as (sfg & Esfg); [now left|].
    destruct (getProp_channel_valid _ "bg" h (truthy_defined _ Et) Hv)
      as (sbg & Esbg); [now right|].
    rewrite bind_run, (getProp_prefix _ _ _ _ _ Esfg Hpre0), bind_run in Hrun.
    assert (Efg' : (if truthy sfg then mret sfg
                    else getProp (VRef (length h)) "fg") h1
                   = Ok (if truthy sfg then sfg
                         else if truthy fg then fg else VStr "#ffaaaa", h1)).
    { destruct (truthy sfg); [reflexivity|].
      now rewrite (getProp_ref _ _ _ _ Hb1). }
    rewrite Efg' in Hrun.
    rewrite bind_run, (getProp_prefix _ _ _ _ _ Esbg Hpre0), bind_run in Hrun.
    assert (Ebg' : (if truthy sbg then mret sbg
                    else getProp (VRef (length h)) "bg") h1
                   = Ok (if truthy sbg then sbg else bg, h1)).
    { destruct (truthy sbg); [reflexivity|].
      now rewrite (getProp_ref _ _ _ _ Hb1). }
    rewrite Ebg' in Hrun. unfold newObject in Hrun.
    injection Hrun as <- <-.
    split; [exact E | split; [exact Hown | split; [exact Hlen | split]]];
      [discriminate|].
    intros _ sfg' sbg' Esfg' Esbg'.
    assert (sfg' = sfg) as -> by congruence.
    assert (sbg' = sbg) as -> by congruence.
    eapply prefix_lookup_Some; [| exact Hpre2].
    apply list_lookup_middle, eq_refl.
  - unfold newObject in Hrun. injection Hrun as <- <-.
    split; [exact E | split; [exact Hown | split; [exact Hlen | split]]];
      [| discriminate].
    intros _. eapply prefix_lookup_Some; [| exact Hpre2].
    apply list_lookup_middle, eq_refl.
Qed.

Lemma resolveScopes_statusline_witness :
  ∃ resolved hf l,
    resolveScopes "catppuccin_mocha" (VRef 2) scopesHeap
    = Ok (("catppuccin_mocha", VUndefined, resolved), hf)
    ∧ own resolved "ui.statusline" = Some (VRef l)
    ∧ hf !! l = Some [("fg", VStr "#cdd6f4"); ("bg", VStr "#181825")].
Proof.
  destruct (resolveScopes_statusline "catppuccin_mocha" 2 _ scopesHeap
              (VStr "#cdd6f4") (VStr "#1e1e2e")
              eq_refl eq_refl eq_refl (ex_intro _ _ eq_refl))
    as (resolved & hf & l & E & Hown & _ & _ & Hpair).
  exists resolved, hf, l. split; [exact E | split; [exact Hown|]].
  exact (Hpair eq_refl VUndefined (VStr "#181825") eq_refl eq_refl).
Defined.

(** ** The palette step without a palette *)

Lemma normalizeChannel_idle (palette : value) (l : loc) (o : object)
    (channel : string) (h : heap) :
  h !! l = Some o → needsPalette (lookup_property o channel) = false →
  normalizeChannel palette (VRef l) channel h = Ok (tt, h).
Proof.
  intros Hl Hidle. unfold normalizeChannel.
  rewrite bind_run, (getProp_ref _ _ _ _ Hl).
  destruct (lookup_property o channel); try reflexivity.
  simpl in Hidle. now rewrite Hidle.
Qed.

Lemma normalizeChannel_no_palette (l : loc) (o : object) (channel : string)
    (h : heap) :
  h !! l = Some o → needsPalette (lookup_property o channel) = true →
  normalizeChannel VUndefined (VRef l) channel h = Err TypeError.
Proof.
  intros Hl Hneeds. unfold normalizeChannel.
  rewrite bind_run, (getProp_ref _ _ _ _ Hl).
  destruct (lookup_property o channel); try discriminate.
  simpl in Hneeds. now rewrite Hneeds.
Qed.

(** One colour: idle for any palette, a TypeError without one. *)
Lemma normalizeColor_wantsPalette (palette : value) (scope : string)
    (c : value) (h : heap) :
  properColor h (scope, c) →
  (wantsPalette h c = false →
   normalizeColor palette (scope, c) h = Ok ((scope, c), h))
  ∧ (wantsPalette h c = true →
     normalizeColor VUndefined (scope, c) h = Err TypeError).
Proof.
  intros [Hdef Hval]. simpl in Hdef, Hval.
  destruct c as [| | | | | | |l];
    try (split; [intros _ | discriminate];
         apply normalizeColor_no_object;
         [discriminate | intros ?; discriminate]).
  - congruence.
  - destruct Hval as [o Hl]. unfold wantsPalette. rewrite Hl.
    unfold normalizeColor. split.
    + intros Hidle. apply orb_false_elim in Hidle as [Hfg Hbg].
      rewrite bind_run, (normalizeChannel_idle _ _ _ _ _ Hl Hfg).
      rewrite bind_run, (normalizeChannel_idle _ _ _ _ _ Hl Hbg).
      reflexivity.
    + intros Hwants. rewrite bind_run.
      destruct (needsPalette (lookup_property o "fg")) eqn:Hfg.
      * now rewrite (normalizeChannel_no_palette _ _ _ _ Hl Hfg).
      * rewrite (normalizeChannel_idle _ _ _ _ _ Hl Hfg), bind_run.
        now rewrite (normalizeChannel_no_palette _ _ _ _ Hl Hwants).
Qed.

(** X12.  When no scope colour of a resolved theme has a channel that is
    a string without a leading [#], the palette step returns the scopes and
    leaves the heap untouched, whatever the palette is: a theme that uses
    only [#] literals needs no palette table. *)
Theorem normalizePalette_without_names (name : string) (palette : value)
    (theme : scopes) (h : heap) :
  Forall (properColor h) theme →
  existsb (λ entry, wantsPalette h entry.2) theme = false →
  normalizePalette (name, palette, theme) h = Ok (theme, h).
Proof.
  intros Hall Hnone. unfold normalizePalette.
  apply mapJs_identity.
  induction Hall as [|[scope c] theme Hc _ IH]; [constructor|].
  cbn [existsb snd] in Hnone. apply orb_false_elim in Hnone as [Hc0 Hrest].
  constructor; [| now apply IH].
  now apply (normalizeColor_wantsPalette palette scope c h Hc).
Qed.

Lemma normalizePalette_without_names_witness :
  normalizePalette
    ("catppuccin_mocha", VUndefined,
     [("function", VRef 2); ("variable", VStr "#cdd6f4")]) paletteHeap
  = Ok ([("function", VRef 2); ("variable", VStr "#cdd6f4")], paletteHeap).
Proof.
  apply normalizePalette_without_names; [| reflexivity].
  constructor; [| constructor; [| constructor]].
  - split; [discriminate | now eexists].
  - split; [discriminate | exact I].
Defined.

(** X13.  When the theme has no palette ([theme.palette] is [undefined])
    and some scope colour has a channel that is a string without a leading
    [#], the palette step throws a TypeError. *)
Theorem normalizePalette_undefined_palette (name : string)
    (theme : scopes) (h : heap) :
  Forall (properColor h) theme →
  existsb (λ entry, wantsPalette h entry.2) theme = true →
  normalizePalette (name, VUndefined, theme) h = Err TypeError.
Proof.
  intros Hall Hsome. unfold normalizePalette.
  induction Hall as [|[scope c] theme Hc _ IH]; [discriminate|].
  cbn [existsb snd] in Hsome. cbn [mapJs]. rewrite bind_run.
  destruct (normalizeColor_wantsPalette VUndefined scope c h Hc)
    as [Hidle Hwants].
  destruct (wantsPalette h c).
  - now rewrite Hwants.
  - rewrite Hidle by reflexivity. rewrite bind_run, IH by exact Hsome.
    reflexivity.
Qed.

Lemma normalizePalette_undefined_palette_witness :
  normalizePalette
    ("catppuccin_mocha", VUndefined,
     [("function", VRef 2); ("keyword", VRef 1)]) paletteHeap
  = Err TypeError.
Proof.
  apply normalizePalette_undefined_palette; [| reflexivity].
  constructor; [| constructor; [| constructor]];
    (split; [discriminate | now eexists]).
Defined.

(** A resolvable colour is proper, and a settled one needs no palette. *)
Lemma settledChannel_idle (v : value) :
  settledChannel v → needsPalette v = false.
Proof.
  intros [-> | (s & -> & Hs)]; [reflexivity|]. simpl. now rewrite Hs.
Qed.

Lemma settledColor_idle (h : heap) (c : value) :
  settledColor h c → wantsPalette h c = false.
Proof.
  destruct c as [| | | | | | |l]; try reflexivity.
  intros (o & Hl & Hfg & Hbg). unfold wantsPalette. rewrite Hl.
  now rewrite (settledChannel_idle _ Hfg), (settledChannel_idle _ Hbg).
Qed.

(** X14.  Under the conditions of the theorem of C5 (the palette is an object
    and every scope colour is resolvable), running the palette step a second
    time on the result returns the same scopes and changes nothing: a colour
    object that several scopes share is normalised once for all of them. *)
Theorem normalizePalette_twice (name : string) (lp : loc) (po : object)
    (theme : scopes) (h : heap) :
  h !! lp = Some po →
  Forall (λ entry, resolvableColor h lp po entry.2) theme →
  ∃ hn, normalizePalette (name, VRef lp, theme) h = Ok (theme, hn)
        ∧ normalizePalette (name, VRef lp, theme) hn = Ok (theme, hn).
Proof.
  intros Hp Hall.
  destruct (normalizeColors_settle lp po theme h Hp Hall)
    as (hn & E & _ & Hset).
  exists hn. split; [exact E|]. unfold normalizePalette.
  apply mapJs_identity.
  apply Forall_forall. intros [scope c] Hin.
  pose proof (proj1 (Forall_forall _ _) Hall _ Hin) as Hres.
  pose proof (proj1 (Forall_forall _ _) Hset _ Hin) as Hs.
  simpl in Hres, Hs.
  apply (normalizeColor_wantsPalette (VRef lp) scope c hn).
  - split; simpl.
    + intros ->. exact Hres.
    + destruct c; try exact I. destruct Hs as (o & Hl & _). now exists o.
  - now apply settledColor_idle.
Qed.

Lemma normalizePalette_twice_witness :
  ∃ hn, normalizePalette
          ("catppuccin_mocha", VRef 0,
           [("keyword", VRef 1); ("function.macro", VRef 1)]) paletteHeap
        = Ok ([("keyword", VRef 1); ("function.macro", VRef 1)], hn)
        ∧ normalizePalette
            ("catppuccin_mocha", VRef 0,
             [("keyword", VRef 1); ("function.macro", VRef 1)]) hn
          = Ok ([("keyword", VRef 1); ("function.macro", VRef 1)], hn).
Proof.
  apply (normalizePalette_twice "catppuccin_mocha" 0
           [("mauve", VStr "#cba6f7")]); [reflexivity|].
  assert (Hobj : resolvableColor paletteHeap 0 [("mauve", VStr "#cba6f7")]
                   (VRef 1)).
  { split; [discriminate|]. exists [("fg", VStr "mauve")].
    split; [reflexivity | split].
    - right; right. exists "mauve".
      split; [reflexivity | split; [reflexivity|]].
      exists "#cba6f7". split; reflexivity.
    - left. reflexivity. }
  constructor; [exact Hobj|]. constructor; [exact Hobj|]. constructor.
Defined.

(** ** [termshots.js]: every listing *)

Lemma generateFileContents_from (files : list string)
    (contentGenerator : string → string → string) (start : string) :
  fold_left (λ contents file,
               if String.eqb file "index.astro" then contents
               else contents +:+ newline
                    +:+ contentGenerator (slice_0_minus6 file) file)
            files start
  = start +:+ joined
      (map (λ file, newline +:+ contentGenerator (slice_0_minus6 file) file)
           (filter (λ file, file ≠ "index.astro") files)).
Proof.
  revert start. induction files as [|file files IH]; intros start.
  - simpl. induction start as [|c s IHs]; [reflexivity|].
    rewrite append_cons. now rewrite <- IHs.
  - cbn [fold_left]. rewrite filter_cons.
    destruct (String.eqb file "index.astro") eqn:E.
    + apply String.eqb_eq in E. rewrite decide_False by tauto. apply IH.
    + apply String.eqb_neq in E. rewrite decide_True by exact E.
      rewrite IH. cbn [map joined foldr].
      now rewrite !append_associative.
Qed.

Lemma generateFileContents_joined (files : list string)
    (contentGenerator : string → string → string) :
  generateFileContents files contentGenerator
  = joined
      (map (λ file, newline +:+ contentGenerator (slice_0_minus6 file) file)
           (filter (λ file, file ≠ "index.astro") files)).
Proof.
  unfold generateFileContents. rewrite generateFileContents_from.
  apply append_empty_l.
Qed.

(** X15.  For every listing, the text [generateFileContents] builds is one
    piece per file other than [index.astro], in listing order: a newline and
    what the generator makes of the file name and of the name without its
    last six characters.  No file is left out for its extension. *)
Theorem generateFileContents_pieces (files : list string)
    (contentGenerator : string → string → string) :
  generateFileContents files contentGenerator
  = joined
      (map (λ file, newline +:+ contentGenerator (slice_0_minus6 file) file)
           (filter (λ file, file ≠ "index.astro") files)).
Proof. apply generateFileContents_joined. Qed.

Lemma astro_pieces (bases : list string) (piece : string → string → string) :
  Forall (λ base, base ≠ "index") bases →
  map (λ file, newline +:+ piece (slice_0_minus6 file) file)
      (filter (λ file, file ≠ "index.astro")
              (map (λ base, base +:+ ".astro") bases))
  = map (λ base, newline +:+ piece base (base +:+ ".astro")) bases.
Proof.
  induction 1 as [|base bases Hbase _ IH]; [reflexivity|].
  cbn [map]. rewrite filter_cons, decide_True.
  - cbn [map]. now rewrite slice_astro, IH.
  - intros H. apply Hbase, astro_is_index, H.
Qed.

(** X16.  For every listing of [.astro] files, none of them [index.astro]:
    the exported object has one entry per file, the file name without
    [.astro], in listing order, and the import statements import each of
    these names from its file, in the same order. *)
Theorem astro_listing_contents (bases : list string) :
  Forall (λ base, base ≠ "index") bases →
  let files := map (λ base, base +:+ ".astro") bases in
  exportedObject files
  = joined (map (λ base, newline +:+ tab +:+ base +:+ ",") bases)
  ∧ importStatements files
    = joined (map (λ base,
                     newline +:+ "import " +:+ base +:+ " from " +:+ quote
                     +:+ "./" +:+ (base +:+ ".astro") +:+ quote +:+ ";")
                  bases).
Proof.
  intros Hall files. unfold exportedObject, importStatements, files.
  rewrite !generateFileContents_joined.
  split.
  - now rewrite (astro_pieces bases (λ baseName _, tab +:+ baseName +:+ ",")).
  - now rewrite (astro_pieces bases
                   (λ baseName fileName,
                      "import " +:+ baseName +:+ " from " +:+ quote +:+ "./"
                      +:+ fileName +:+ quote +:+ ";")).
Qed.

Lemma astro_listing_contents_witness :
  exportedObject ["a.astro"; "b.astro"; "c.astro"]
  = joined [newline +:+ tab +:+ "a,"; newline +:+ tab +:+ "b,";
            newline +:+ tab +:+ "c,"].
Proof.
  assert (Hall : Forall (λ base : string, base ≠ "index") ["a"; "b"; "c"]).
  { repeat constructor; discriminate. }
  exact (proj1 (astro_listing_contents ["a"; "b"; "c"] Hall)).
Defined.

(** ** [termshots.js]: running it again *)

Lemma writeFileSync_names (name content : string) (d : folder) :
  map fst (writeFileSync name content d)
  = if bool_decide (name ∈ map fst d) then map fst d
    else map fst d ++ [name].
Proof.
  induction d as [|[name' content'] d IH]; [reflexivity|].
  cbn [writeFileSync map fst]. destruct (String.eqb name' name) eqn:E.
  - apply String.eqb_eq in E. subst name'.
    rewrite bool_decide_eq_true_2 by apply list_elem_of_here. reflexivity.
  - apply String.eqb_neq in E. cbn [map fst]. rewrite IH.
    destruct (bool_decide (name ∈ map fst d)) eqn:Ed.
    + apply bool_decide_eq_true_1 in Ed.
      rewrite bool_decide_eq_true_2 by now apply list_elem_of_further.
      reflexivity.
    + apply bool_decide_eq_false_1 in Ed.
      rewrite bool_decide_eq_false_2; [reflexivity|].
      intros Hin. apply elem_of_cons in Hin as [-> | Hin]; tauto.
Qed.

Lemma writeFileSync_again (name content : string) (d : folder) :
  writeFileSync name content (writeFileSync name content d)
  = writeFileSync name content d.
Proof.
  induction d as [|[name' content'] d IH].
  - simpl. now rewrite String.eqb_refl.
  - cbn [writeFileSync]. destruct (String.eqb name' name) eqn:E;
      cbn [writeFileSync]; rewrite E; [reflexivity | now rewrite IH].
Qed.

Lemma indexAstroContent_after_write (content : string) (d : folder) :
  indexAstroContent (map fst (writeFileSync "index.astro" content d))
  = indexAstroContent (map fst d).
Proof.
  rewrite writeFileSync_names. destruct (bool_decide _); [reflexivity|].
  rewrite (indexAstroContent_skips_index (map fst d) []).
  now rewrite app_nil_r.
Qed.

(** X17.  For every folder, whatever its files are called, generating the
    index a second time leaves the folder exactly as the first run left it:
    the file written by the first run does not show up in its own
    content. *)
Theorem generateIndex_again (d : folder) :
  generateIndex (generateIndex d) = generateIndex d.
Proof.
  unfold generateIndex at 1.
  replace (indexAstroContent (map fst (generateIndex d)))
    with (indexAstroContent (map fst d))
    by (symmetry; apply indexAstroContent_after_write).
  apply writeFileSync_again.
Qed.

(** ** [termshots.js]: names that are too short *)

Lemma substring_0_prefix (n : nat) (s : string) :
  ∃ rest, s = substring 0 n s +:+ rest
          ∧ String.length rest = (String.length s - n)%nat.
Proof.
  revert n. induction s as [|c s IH]; intros n.
  - exists EmptyString. destruct n; split; reflexivity.
  - destruct n as [|n].
    + exists (String c s). split; reflexivity.
    + destruct (IH n) as (rest & Hs & Hlen). exists rest.
      cbn [substring]. rewrite append_cons, <- Hs. split; [reflexivity|].
      simpl. exact Hlen.
Qed.

(** X18.  [file.slice(0, -6)] is the file name without its last six
    characters, whatever they are, and it is empty when the name has six
    characters or fewer: the name is the slice followed by
    [min 6 (length file)] more characters. *)
Theorem slice_0_minus6_prefix (file : string) :
  ∃ rest, file = slice_0_minus6 file +:+ rest
          ∧ String.length rest = Nat.min 6 (String.length file)
          ∧ ((String.length file ≤ 6)%nat →
             slice_0_minus6 file = EmptyString).
Proof.
  unfold slice_0_minus6.
  destruct (substring_0_prefix (String.length file - 6) file)
    as (rest & Hs & Hlen).
  exists rest. split; [exact Hs | split; [lia|]].
  intros Hshort. replace (String.length file - 6)%nat with 0%nat by lia.
  destruct file; reflexivity.
Qed.

(** ** The theme files and their names *)

Lemma split_slash_not_nil (s : string) : split_slash s ≠ [].
Proof.
  induction s as [|c s IH]; [discriminate|].
  cbn [split_slash]. destruct (Ascii.eqb c "/"); [discriminate|].
  destruct (split_slash s); discriminate.
Qed.

Lemma split_slash_plain (s : string) :
  hasSlash s = false → split_slash s = [s].
Proof.
  induction s as [|c s IH]; [reflexivity|].
  cbn [hasSlash split_slash]. intros H.
  apply orb_false_elim in H as [Hc Hs]. rewrite Hc, (IH Hs). reflexivity.
Qed.

(** Splitting [d/x] gives the pieces of [d], then the pieces of [x]. *)
Lemma split_slash_join (d x : string) :
  split_slash (d +:+ "/" +:+ x) = split_slash d ++ split_slash x.
Proof.
  induction d as [|c d IH].
  - rewrite append_empty_l. reflexivity.
  - rewrite append_cons. cbn [split_slash].
    destruct (Ascii.eqb c "/"); [now rewrite IH|].
    rewrite IH. pose proof (split_slash_not_nil d) as Hd.
    destruct (split_slash d) as [|piece pieces]; [congruence | reflexivity].
Qed.

Lemma last_app_singleton {A} (l : list A) (x d : A) :
  List.last (l ++ [x]) d = x.
Proof.
  induction l as [|y l IH]; [reflexivity|].
  cbn [app List.last]. destruct (l ++ [x]) eqn:E; [| exact IH].
  destruct l; discriminate.
Qed.

Lemma hasSlash_append (s t : string) :
  hasSlash (s +:+ t) = hasSlash s || hasSlash t.
Proof.
  induction s as [|c s IH]; [reflexivity|].
  rewrite append_cons. cbn [hasSlash]. now rewrite IH, orb_assoc.
Qed.

Lemma stem_toml (base : string) : stem (base +:+ ".toml") = base.
Proof.
  unfold stem. rewrite length_append.
  replace (String.length base + String.length ".toml" - 5)%nat
    with (String.length base) by (simpl; lia).
  apply substring_0_append.
Qed.

(** The name of the file [file] in any directory. *)
Lemma themeName_in_directory (themesDirectory file : string) :
  hasSlash file = false →
  themeName (themesDirectory +:+ "/" +:+ file) = stem file.
Proof.
  intros Hfile. unfold themeName.
  rewrite split_slash_join, (split_slash_plain _ Hfile), last_app_singleton.
  reflexivity.
Qed.

(** X19.  The name [unmergedThemes] derives from the path of a theme file
    [base.toml] is [base], whatever directory the file is in (slashes in the
    directory's path included), provided [base] itself has no slash. *)
Theorem themeName_of_toml_file (themesDirectory base : string) :
  hasSlash base = false →
  themeName (themesDirectory +:+ "/" +:+ base +:+ ".toml") = base.
Proof.
  intros Hbase. rewrite themeName_in_directory.
  - apply stem_toml.
  - rewrite hasSlash_append, Hbase. reflexivity.
Qed.

Lemma themeName_of_toml_file_witness :
  themeName ("/home/helix/runtime/themes" +:+ "/" +:+ "catppuccin_mocha"
             +:+ ".toml")
  = "catppuccin_mocha".
Proof.
  exact (themeName_of_toml_file "/home/helix/runtime/themes"
           "catppuccin_mocha" eq_refl).
Defined.

Lemma substring_whole (s : string) : substring 0 (String.length s) s = s.
Proof. induction s as [|c s IH]; simpl; [reflexivity | now rewrite IH]. Qed.

Lemma substring_append_r (s t : string) :
  substring (String.length s) (String.length t) (s +:+ t) = t.
Proof.
  induction s as [|c s IH].
  - rewrite append_empty_l. apply substring_whole.
  - rewrite append_cons. exact IH.
Qed.

Lemma substring_split (n : nat) (s : string) :
  (n ≤ String.length s)%nat →
  s = substring 0 n s +:+ substring n (String.length s - n) s.
Proof.
  revert n. induction s as [|c s IH]; intros n Hn.
  - simpl in Hn. assert (n = 0%nat) as -> by lia. reflexivity.
  - destruct n as [|n].
    + simpl. now rewrite append_empty_l, substring_whole.
    + cbn [substring String.length]. rewrite append_cons.
      simpl in Hn. rewrite <- IH by lia. reflexivity.
Qed.

Lemma endsWith_stem (file : string) :
  endsWith file ".toml" = true → file = stem file +:+ ".toml".
Proof.
  unfold endsWith. intros H. apply andb_prop in H as [Hlen Heq].
  apply Nat.leb_le in Hlen. apply String.eqb_eq in Heq.
  cbn [String.length] in Hlen, Heq.
  pose proof (substring_split (String.length file - 5) file ltac:(lia)) as Hs.
  replace (String.length file - (String.length file - 5))%nat with 5%nat
    in Hs by lia.
  rewrite Heq in Hs. exact Hs.
Qed.

Lemma endsWith_append (s t : string) : endsWith (s +:+ t) t = true.
Proof.
  unfold endsWith. rewrite length_append. apply andb_true_intro. split.
  - apply Nat.leb_le. lia.
  - replace (String.length s + String.length t - String.length t)%nat
      with (String.length s) by lia.
    rewrite substring_append_r. apply String.eqb_refl.
Qed.

Lemma existsb_eqb_elem (x : string) (xs : list string) :
  existsb (String.eqb x) xs = true ↔ x ∈ xs.
Proof.
  rewrite existsb_exists. split.
  - intros (y & Hin & Heq). apply String.eqb_eq in Heq. subst y.
    now apply list_elem_of_In.
  - intros Hin. exists x. split; [now apply list_elem_of_In|].
    apply String.eqb_refl.
Qed.

(** X20.  When no listed file name has a slash, the names of the themes
    loaded are the stems of the listed theme files, in listing order,
    followed by the name of the default theme; and a file is taken as a
    theme file exactly when it is its stem followed by [.toml] and is none
    of the base16 files. *)
Theorem themesPaths_names (themesDirectory defaultHelixThemePath : string)
    (listing : list string) :
  Forall (λ file, hasSlash file = false) listing →
  map themeName (themesPaths themesDirectory defaultHelixThemePath listing)
  = map stem (List.filter isThemeFile listing)
    ++ [themeName defaultHelixThemePath]
  ∧ ∀ file, isThemeFile file = true ↔
            file = stem file +:+ ".toml" ∧ file ∉ base16themes.
Proof.
  intros Hall. split.
  - unfold themesPaths. rewrite map_app, map_map. f_equal.
    induction Hall as [|file listing Hfile _ IH]; [reflexivity|].
    cbn [List.filter]. destruct (isThemeFile file); [| exact IH].
    cbn [map]. now rewrite IH, (themeName_in_directory _ _ Hfile).
  - intros file. unfold isThemeFile. rewrite andb_true_iff, negb_true_iff.
    split.
    + intros [Hend Hbase]. split; [now apply endsWith_stem|].
      intros Hin. apply existsb_eqb_elem in Hin. congruence.
    + intros [Hstem Hbase]. split.
      * rewrite Hstem. apply endsWith_append.
      * destruct (existsb (String.eqb file) base16themes) eqn:E;
          [| reflexivity].
        apply existsb_eqb_elem in E. tauto.
Qed.

Lemma themesPaths_names_witness :
  map themeName
      (themesPaths "runtime/themes" "helix/theme.toml"
         ["README.md"; "ttox.toml"; "catppuccin_mocha.toml"; "onedark.toml"])
  = ["catppuccin_mocha"; "onedark"; "theme"].
Proof.
  assert (Hall : Forall (λ file, hasSlash file = false)
                   ["README.md"; "ttox.toml"; "catppuccin_mocha.toml";
                    "onedark.toml"])
    by (repeat constructor).
  exact (proj1 (themesPaths_names "runtime/themes" "helix/theme.toml" _ Hall)).
Defined.

(** ** [setIntersection] *)

Lemma newSet_from (set xs : list string) :
  NoDup (set ++ xs) →
  fold_left (λ set x, if existsb (String.eqb x) set then set else set ++ [x])
            xs set
  = set ++ xs.
Proof.
  revert set. induction xs as [|x xs IH]; intros set Hnd.
  - now rewrite app_nil_r.
  - cbn [fold_left].
    assert (Hx : existsb (String.eqb x) set = false).
    { destruct (existsb (String.eqb x) set) eqn:E; [| reflexivity].
      apply existsb_eqb_elem in E. apply NoDup_app in Hnd as (_ & Hdis & _).
      exfalso. apply (Hdis x E). apply list_elem_of_here. }
    rewrite Hx, IH; rewrite <- app_assoc; [reflexivity | exact Hnd].
Qed.

(** X21.  For a set [a] (its elements listed once each) and a set [b],
    [setIntersection(a, b)] lists exactly the elements of [a] that [b] has,
    once each, in the order [a] has them. *)
Theorem setIntersection_elements (a b : list string) :
  NoDup a →
  setIntersection a b
  = List.filter (λ element, existsb (String.eqb element) b) a
  ∧ NoDup (setIntersection a b)
  ∧ ∀ x, x ∈ setIntersection a b ↔ x ∈ a ∧ x ∈ b.
Proof.
  intros Hnd.
  assert (Hfilter : NoDup (List.filter
                             (λ element, existsb (String.eqb element) b) a))
    by (apply NoDup_ListNoDup, List.NoDup_filter, NoDup_ListNoDup, Hnd).
  assert (E : setIntersection a b
              = List.filter (λ element, existsb (String.eqb element) b) a).
  { unfold setIntersection, newSet. now rewrite (newSet_from []). }
  split; [exact E | split; [now rewrite E |]].
  intros x. rewrite E, list_elem_of_In, filter_In, existsb_eqb_elem.
  now rewrite <- list_elem_of_In.
Qed.

Lemma setIntersection_elements_witness :
  setIntersection ["keyword"; "type"; "comment"] ["comment"; "keyword"]
  = ["keyword"; "comment"].
Proof.
  assert (Hnd : NoDup ["keyword"; "type"; "comment"]).
  { apply (bool_decide_unpack _). vm_compute. exact I. }
  exact (proj1 (setIntersection_elements ["keyword"; "type"; "comment"]
                  ["comment"; "keyword"] Hnd)).
Defined.

(** ** The palette step as a whole: what it keeps *)

Lemma normalizeChannel_domain (palette c : value) (channel : string)
    (h h' : heap) :
  normalizeChannel palette c channel h = Ok (tt, h') →
  length h' = length h.
Proof.
  unfold normalizeChannel. intros H.
  apply bind_inv in H as (x & h0 & Hx & H).
  pose proof (getProp_heap _ _ _ _ _ Hx) as ->.
  destruct x as [| | |name| | | |]; try (injection H as <-; reflexivity).
  destruct (negb (isHex name)); [| injection H as <-; reflexivity].
  apply bind_inv in H as (entry & h0 & Hentry & H).
  pose proof (getProp_heap _ _ _ _ _ Hentry) as ->.
  apply setProp_inv in H as (l & o & _ & _ & ->). apply length_insert.
Qed.

Lemma normalizeColors_domain (palette : value) (theme normalized : scopes)
    (h hn : heap) :
  mapJs (normalizeColor palette) theme h = Ok (normalized, hn) →
  length hn = length h.
Proof.
  revert normalized h. induction theme as [|[scope c] theme IH];
    intros normalized h H.
  - injection H as _ <-. reflexivity.
  - cbn [mapJs] in H. apply bind_inv in H as (r & h1 & Hc & H).
    apply bind_inv in H as (rs & h2 & Hrest & H). injection H as _ <-.
    apply IH in Hrest. rewrite Hrest.
    unfold normalizeColor in Hc.
    apply bind_inv in Hc as ([] & ha & Hfg & Hc).
    apply bind_inv in Hc as ([] & hb & Hbg & Hc). injection Hc as _ <-.
    apply normalizeChannel_domain in Hfg, Hbg. congruence.
Qed.

(** X22.  Whenever the palette step returns, for any palette and however
    the scopes share colour objects: it returns the scope entries it was
    given (colours are changed in place, never replaced); the heap has the
    same objects; and every property of every object that held a [#] literal
    still holds it. *)
Theorem normalizePalette_keeps_literals (name : string) (palette : value)
    (theme normalized : scopes) (h hn : heap) :
  normalizePalette (name, palette, theme) h = Ok (normalized, hn) →
  normalized = theme
  ∧ length hn = length h
  ∧ ∀ l o k s, h !! l = Some o → lookup_property o k = VStr s →
               isHex s = true →
               ∃ o', hn !! l = Some o' ∧ lookup_property o' k = VStr s.
Proof.
  unfold normalizePalette. intros H.
  pose proof (normalizeColors_domain _ _ _ _ _ H) as Hlen.
  apply normalizeColors_keep_hex in H as [-> Hkeep].
  split; [reflexivity | split; [exact Hlen | exact Hkeep]].
Qed.

Lemma normalizePalette_keeps_literals_witness :
  ∃ hn o', normalizePalette
             ("catppuccin_mocha", VRef 0,
              [("keyword", VRef 1); ("function", VRef 2)]) paletteHeap
           = Ok ([("keyword", VRef 1); ("function", VRef 2)], hn)
           ∧ hn !! 2 = Some o'
           ∧ lookup_property o' "bg" = VStr "#1e1e2e".
Proof.
  destruct (normalizePalette
              ("catppuccin_mocha", VRef 0,
               [("keyword", VRef 1); ("function", VRef 2)]) paletteHeap)
    as [[normalized hn]|e] eqn:E; [| vm_compute in E; discriminate].
  destruct (normalizePalette_keeps_literals _ _ _ _ _ _ E)
    as (-> & _ & Hkeep).
  destruct (Hkeep 2 _ "bg" "#1e1e2e" eq_refl eq_refl eq_refl)
    as (o' & Hl' & Hbg).
  exists hn, o'. split; [reflexivity | split; [exact Hl' | exact Hbg]].
Defined.

(** ** The scope map the renderer receives *)

Lemma own_elem (o : object) (k : string) (x : value) :
  own o k = Some x → (k, x) ∈ o.
Proof.
  induction o as [|[k' v] o IH]; simpl; [discriminate|].
  destruct (String.eqb k' k) eqn:E.
  - apply String.eqb_eq in E. subst. intros [= ->]. apply list_elem_of_here.
  - intros H. apply list_elem_of_further, IH, H.
Qed.

Lemma valid_lookup_property (h : heap) (o : object) (k : string) :
  Forall (λ kv, valid h kv.2) o → valid h (lookup_property o k).
Proof.
  intros Hall. unfold lookup_property. destruct (own o k) as [x|] eqn:E.
  - apply own_elem in E. rewrite Forall_forall in Hall. apply (Hall _ E).
  - unfold inherited. destruct (String.eqb k "__proto__"); [exact I|].
    destruct (existsb _ _); exact I.
Qed.

Lemma valid_length (h h' : heap) (v : value) :
  length h' = length h → valid h v → valid h' v.
Proof.
  intros Hlen. destruct v; simpl; trivial.
  intros Hv. apply lookup_lt_is_Some. rewrite Hlen.
  apply lookup_lt_is_Some, Hv.
Qed.

Lemma proper_newObject (o : object) (h h' : heap) (v : value) :
  newObject o h = Ok (v, h') → v ≠ VUndefined ∧ valid h' v.
Proof.
  intros [= <- <-]. split; [discriminate|].
  exists o. apply list_lookup_middle, eq_refl.
Qed.

Lemma proper_getColor (h0 : heap) (lt : loc) (doc : object)
    (key : string) (fallback : js value) :
  h0 !! lt = Some doc → Forall (λ kv, valid h0 kv.2) doc →
  proper h0 fallback → proper h0 (getColor (VRef lt) key fallback).
Proof.
  intros Hl Hdoc Hfb h v h' Hpre Hrun.
  rewrite (getColor_run lt doc) in Hrun
    by (eapply prefix_lookup_Some; eassumption).
  cbv zeta in Hrun. destruct (is_string _).
  - eapply proper_newObject, Hrun.
  - destruct (truthy _) eqn:Et; [| eapply Hfb; eassumption].
    injection Hrun as <- <-. split; [apply truthy_defined, Et|].
    eapply valid_prefix; [exact Hpre | apply valid_lookup_property, Hdoc].
Qed.

Lemma proper_getFallbackColor (h0 : heap) (lt : loc) (doc : object)
    (primaryKey : string) (fallbackFn : js value) :
  h0 !! lt = Some doc → Forall (λ kv, valid h0 kv.2) doc →
  proper h0 fallbackFn →
  proper h0 (getFallbackColor (VRef lt) primaryKey fallbackFn).
Proof. apply proper_getColor. Qed.

Lemma proper_backgroundFg (h0 : heap) (lb : loc) (ob : object) :
  h0 !! lb = Some ob →
  lookup_property ob "fg" ≠ VUndefined → valid h0 (lookup_property ob "fg") →
  proper h0 (backgroundFg (VRef lb)).
Proof.
  intros Hl Hdef Hv h v h' Hpre Hrun. unfold backgroundFg in Hrun.
  rewrite (getProp_ref_prefix h0 h lb ob) in Hrun by assumption.
  injection Hrun as <- <-. split; [exact Hdef|].
  eapply valid_prefix; eassumption.
Qed.

Lemma proper_getUiBackground (h0 : heap) (lb : loc) (ob : object) :
  h0 !! lb = Some ob → proper h0 (getUiBackground (VRef lb)).
Proof.
  intros Hl h v h' Hpre [= <- <-]. split; [discriminate|].
  exists ob. eapply prefix_lookup_Some; eassumption.
Qed.

Lemma proper_getUiStatusline (h0 : heap) (theme background : value) :
  proper h0 (getUiStatusline theme background).
Proof.
  intros h v h' _ Hrun. unfold getUiStatusline in Hrun.
  apply bind_inv in Hrun as (st & h1 & _ & Hrun).
  destruct (negb (truthy st)); [eapply proper_newObject, Hrun|].
  apply bind_inv in Hrun as (fg & h2 & _ & Hrun).
  apply bind_inv in Hrun as (fg' & h3 & _ & Hrun).
  apply bind_inv in Hrun as (bg & h4 & _ & Hrun).
  apply bind_inv in Hrun as (bg' & h5 & _ & Hrun).
  eapply proper_newObject, Hrun.
Qed.

Lemma proper_scopeGetters (h0 : heap) (lt lb : loc) (doc ob : object) :
  h0 !! lt = Some doc → h0 !! lb = Some ob →
  Forall (λ kv, valid h0 kv.2) doc →
  lookup_property ob "fg" ≠ VUndefined → valid h0 (lookup_property ob "fg") →
  Forall (λ getter, proper h0 getter.2)
         (scopeGetters (VRef lt) (VRef lb)).
Proof.
  intros Hl Hb Hdoc Hdef Hv.
  pose proof (proper_backgroundFg h0 lb ob Hb Hdef Hv) as Hfg.
  pose proof (proper_getUiBackground h0 lb ob Hb) as Hbg.
  pose proof (proper_getUiStatusline h0 (VRef lt) (VRef lb)) as Hst.
  unfold scopeGetters.
  repeat (apply Forall_cons; split;
          [ simpl;
            repeat first
              [ exact Hfg | exact Hbg | exact Hst
              | apply (proper_getColor h0 lt doc _ _ Hl Hdoc)
              | apply (proper_getFallbackColor h0 lt doc _ _ Hl Hdoc) ]
          | ]).
  apply Forall_nil_2.
Qed.

Lemma resolved_proper (hb hf : heap) (getters : list (string * js value))
    (resolved : scopes) :
  Forall2 (resolvedBy hb hf) getters resolved →
  Forall (λ getter, proper hb getter.2) getters →
  resolved.*1 = getters.*1
  ∧ Forall (λ entry, entry.2 ≠ VUndefined ∧ valid hf entry.2) resolved.
Proof.
  induction 1 as [|g e getters resolved Hhd Htl IH]; intros Hall.
  - split; [reflexivity | constructor].
  - inversion Hall as [|? ? Hg Hrest]; subst.
    destruct (IH Hrest) as [Hkeys Hvalues].
    destruct Hhd as (Hk & h1 & h2 & Hpre1 & Hrun & Hpre2).
    destruct (Hg h1 e.2 h2 Hpre1 Hrun) as [Hdef Hv].
    split.
    + rewrite !fmap_cons. now f_equal.
    + constructor; [| exact Hvalues].
      split; [exact Hdef | eapply valid_prefix; eassumption].
Qed.

(** X23.  For every theme object with no dangling reference whose
    [ui.background] can be read: the scope map has exactly the keys of
    [scopeNames], in that order, whatever the theme defines; and whenever
    the palette step returns, every read [theme[scope].fg] and
    [theme[scope].bg] of a scope of the map returns, that is, no scope the
    renderer reads is missing or undefined. *)
Theorem resolved_scopes_are_readable (themeName : string) (lt : loc)
    (doc : object) (h : heap) (fg bg : value) :
  h !! lt = Some doc →
  Forall (λ kv, valid h kv.2) doc →
  getProp (lookup_property doc "ui.background") "fg" h = Ok (fg, h) →
  getProp (lookup_property doc "ui.background") "bg" h = Ok (bg, h) →
  valid h fg →
  ∃ resolved hf,
    resolveScopes themeName (VRef lt) h
    = Ok ((themeName, lookup_property doc "palette", resolved), hf)
    ∧ resolved.*1 = scopeNames
    ∧ ∀ normalized hn,
        normalizePalette
          (themeName, lookup_property doc "palette", resolved) hf
        = Ok (normalized, hn) →
        ∀ scope channel,
          scope ∈ scopeNames → channel = "fg" ∨ channel = "bg" →
          ∃ x, channelOf normalized scope channel hn = Ok (x, hn).
Proof.
  intros Hl Hdoc Hfg Hbg Hvfg.
  destruct (resolveScopes_run themeName lt doc h fg bg Hl Hfg Hbg
              (valid_lookup_property _ _ _ Hdoc))
    as (resolved & hf & E & Hpre & Hall).
  set (background :=
         [("bg", bg); ("fg", if truthy fg then fg else VStr "#ffaaaa")])
    in *.
  set (hb := h ++ [background]) in *.
  assert (Hh : h `prefix_of` hb) by apply prefix_snoc.
  assert (Hlb : hb !! lt = Some doc) by apply lookup_app_l_Some, Hl.
  assert (Hbb : hb !! length h = Some background)
    by apply list_lookup_middle, eq_refl.
  assert (Hdocb : Forall (λ kv, valid hb kv.2) doc).
  { eapply Forall_impl; [exact Hdoc|]. intros kv. apply valid_prefix, Hh. }
  assert (Hbfg : lookup_property background "fg" ≠ VUndefined
                 ∧ valid hb (lookup_property background "fg")).
  { change (lookup_property background "fg")
      with (if truthy fg then fg else VStr "#ffaaaa").
    destruct (truthy fg) eqn:Et.
    - split; [apply truthy_defined, Et | eapply valid_prefix; eassumption].
    - split; [discriminate | exact I]. }
  destruct Hbfg as [Hdef Hvb].
  destruct (resolved_proper hb hf _ resolved Hall
              (proper_scopeGetters hb lt (length h) doc background
                 Hlb Hbb Hdocb Hdef Hvb))
    as [Hkeys Hvalues].
  exists resolved, hf. split; [exact E | split; [exact Hkeys|]].
  intros normalized hn Hnorm scope channel Hscope Hchannel.
  unfold normalizePalette in Hnorm.
  pose proof (normalizeColors_domain _ _ _ _ _ Hnorm) as Hlen.
  apply normalizeColors_keep_hex in Hnorm as [-> _].
  change scopeNames with ((scopeGetters (VRef lt) (VRef (length h))).*1)
    in Hscope.
  rewrite <- Hkeys in Hscope.
  destruct (own_keys resolved scope Hscope) as (color & Hown).
  unfold channelOf. rewrite Hown.
  rewrite Forall_forall in Hvalues.
  destruct (Hvalues _ (own_elem _ _ _ Hown)) as [Hcdef Hcv].
  apply getProp_channel_valid; [exact Hcdef | | exact Hchannel].
  eapply valid_length; eassumption.
Qed.

Lemma resolved_scopes_are_readable_witness :
  ∃ resolved hf,
    resolveScopes "catppuccin_mocha" (VRef 2) scopesHeap
    = Ok (("catppuccin_mocha", VUndefined, resolved), hf)
    ∧ resolved.*1 = scopeNames.
Proof.
  destruct (resolved_scopes_are_readable "catppuccin_mocha" 2
              [("ui.background", VRef 0); ("keyword", VStr "#cba6f7");
               ("function", VRef 1); ("ui.statusline", VRef 3)]
              scopesHeap (VStr "#cdd6f4") (VStr "#1e1e2e") eq_refl)
    as (resolved & hf & E & Hkeys & _).
  - repeat (constructor; [simpl; eauto|]). constructor.
  - reflexivity.
  - reflexivity.
  - exact I.
  - exists resolved, hf. split; [exact E | exact Hkeys].
Defined.

(** ** [mergeDeep] returns on trees *)

Lemma tree_frame (d : nat) (h h' : heap) (a a' : loc) (v : value) :
  (∀ l o, h !! l = Some o → l ≠ a → h' !! l = Some o ∧ l ≠ a') →
  tree d h a v → tree d h' a' v.
Proof.
  intros Hframe. revert v. induction d as [|d IH]; intros v Ht; simpl in *;
    [exact Ht|].
  destruct v as [| | | | | | |l]; trivial.
  destruct Ht as (Hne & o & Hl & Hall).
  destruct (Hframe _ _ Hl Hne) as [Hl' Hne'].
  split; [exact Hne'|]. exists o. split; [exact Hl'|].
  eapply Forall_impl; [exact Hall|].
  intros kv [Hk Ht]. split; [exact Hk | apply IH, Ht].
Qed.

Lemma forEach_returns {A} (body : A → js unit) (I : heap → Prop)
    (xs : list A) (h : heap) :
  (∀ x h1, x ∈ xs → I h1 → ∃ h2, body x h1 = Ok (tt, h2) ∧ I h2) →
  I h → ∃ h', forEach body xs h = Ok (tt, h') ∧ I h'.
Proof.
  revert h. induction xs as [|x xs IH]; intros h Hbody HI.
  - exists h. split; [reflexivity | exact HI].
  - destruct (Hbody x h (list_elem_of_here _ _) HI) as (h1 & Hx & HI1).
    destruct (IH h1) as (h' & Hrest & HI'); [| exact HI1 |].
    { intros y ha Hy. apply Hbody. now apply list_elem_of_further. }
    exists h'. split; [| exact HI'].
    cbn [forEach]. rewrite bind_run, Hx. exact Hrest.
Qed.

Lemma setProp_run (h : heap) (l : loc) (o : object) (k : string)
    (x : value) :
  h !! l = Some o → k ≠ "__proto__" →
  setProp (VRef l) k x h = Ok (tt, <[l := put o k x]> h).
Proof.
  intros Hl Hk. unfold setProp. unfold object in *. rewrite Hl.
  apply String.eqb_neq in Hk. now rewrite Hk.
Qed.

(** One key of the loop returns when the recursive call does. *)
Lemma mergeKey_returns (rec : value → list value → js value)
    (lt ls : loc) (os : object) (key : string) (x : value) (h : heap) :
  lt ≠ ls → h !! ls = Some os → is_Some (h !! lt) →
  own os key = Some x → key ≠ "__proto__" →
  (isObject x = true →
   ∀ h2, is_Some (h2 !! length h) →
         (∀ l o, h !! l = Some o → l ≠ lt → h2 !! l = Some o) →
         ∃ r h3, rec (VRef (length h)) [x] h2 = Ok (r, h3)) →
  ∃ h', mergeKey rec (VRef lt) (VRef ls) key h = Ok (tt, h').
Proof.
  intros Hne Hls [ot Hlt] Hown Hkey Hrec. unfold mergeKey.
  rewrite bind_run, (getProp_ref _ _ _ _ Hls).
  rewrite (lookup_property_own _ _ _ Hown).
  destruct (isObject x) eqn:Hobj; [| now eexists].
  rewrite bind_run, (getProp_ref _ _ _ _ Hlt).
  destruct (negb (truthy (lookup_property ot key))).
  - rewrite bind_run.
    change (newObject [] h) with (Ok (VRef (length h), h ++ [[]])).
    cbv iota beta.
    assert (Hlt1 : (h ++ [[]]) !! lt = Some ot)
      by apply lookup_app_l_Some, Hlt.
    rewrite bind_run, (setProp_run _ _ _ _ _ Hlt1 Hkey).
    set (h2 := <[lt := put ot key (VRef (length h))]> (h ++ [[]])).
    assert (Hlt2 : h2 !! lt = Some (put ot key (VRef (length h)))).
    { apply list_lookup_insert_eq. eapply lookup_lt_Some, Hlt1. }
    assert (Hframe : ∀ l o, h !! l = Some o → l ≠ lt → h2 !! l = Some o).
    { intros l o Hl Hl'. unfold h2.
      rewrite list_lookup_insert_ne by congruence.
      apply lookup_app_l_Some, Hl. }
    rewrite bind_run, (getProp_ref _ _ _ _ Hlt2), lookup_property_put_eq.
    rewrite bind_run, (getProp_ref _ _ _ _ (Hframe _ _ Hls (not_eq_sym Hne))).
    rewrite (lookup_property_own _ _ _ Hown).
    destruct (Hrec eq_refl h2) as (r & h3 & Hcall); [| exact Hframe |].
    { exists []. unfold h2. apply lookup_lt_Some in Hlt.
      rewrite list_lookup_insert_ne by lia.
      apply list_lookup_middle, eq_refl. }
    rewrite bind_run, Hcall. now eexists.
  - rewrite bind_run, (getProp_ref _ _ _ _ Hls).
    rewrite (setProp_run _ _ _ _ _ Hlt Hkey). now eexists.
Qed.

Lemma mergeDeep_tree (d : nat) :
  ∀ (n : nat) (lt : loc) (source : value) (h : heap),
    is_Some (h !! lt) → tree d h lt source →
    ∃ h', mergeDeep (2 + d + n) (VRef lt) [source] h = Ok (VRef lt, h').
Proof.
  induction d as [|d IH]; intros n lt source h Hlt Htree.
  - simpl in Htree. change (2 + 0 + n) with (S (S n)).
    rewrite mergeDeep_step, Htree, andb_false_r. now eexists.
  - change (2 + S d + n) with (S (2 + d + n)). rewrite mergeDeep_step.
    destruct source as [| | | | | | |ls]; try (now eexists).
    destruct Htree as (Hne & os & Hls & Hall).
    cbn [isObject andb].
    destruct (forEach_returns
                (mergeKey (mergeDeep (2 + d + n)) (VRef lt) (VRef ls))
                (mergeEffect (VRef lt) h) (map fst os) h)
      as (h' & Hloop & _); [| apply mergeEffect_refl |].
    2:{ rewrite bind_run, bind_run, (ownKeys_ref _ _ _ Hls), Hloop.
        now eexists. }
    intros key h1 Hin (Hlen & Hoth & Htgt).
    destruct (own_keys _ _ Hin) as (x & Hown).
    pose proof (own_elem _ _ _ Hown) as Hx.
    rewrite Forall_forall in Hall. destruct (Hall _ Hx) as [Hkey Hsub].
    simpl in Hkey, Hsub.
    assert (Hls1 : h1 !! ls = Some os)
      by (apply Hoth; [exact Hls | congruence]).
    assert (Hlt1 : is_Some (h1 !! lt)).
    { destruct Hlt as [ot Hlt]. destruct (Htgt lt ot eq_refl Hlt) as (o & Ho & _).
      now exists o. }
    destruct (mergeKey_returns (mergeDeep (2 + d + n)) lt ls os key x h1)
      as (h2 & Hrun); auto.
    { intros _ h2 Hfresh Hframe.
      destruct (IH n (length h1) x h2 Hfresh) as (h3 & Hcall); [| eauto].
      eapply tree_frame; [| exact Hsub].
      intros l o Hl Hl'. split.
      - apply Hframe; [apply Hoth; [exact Hl | congruence] | exact Hl'].
      - apply lookup_lt_Some in Hl. lia. }
    exists h2. split; [exact Hrun|].
    eapply mergeEffect_trans; [split; [exact Hlen | split; [exact Hoth | exact Htgt]]|].
    eapply mergeKey_effect; [| exact Hrun].
    intros t ss ha ra hb Hcall. now apply mergeDeep_effect in Hcall.
Qed.

Ltac tree_shape :=
  repeat match goal with
    | |- _ ∧ _ => split
    | |- ∃ _, _ => eexists
    | |- _ = Some _ => reflexivity
    | |- Forall _ (_ :: _) => constructor
    | |- Forall _ [] => constructor
    | |- _ ≠ _ => discriminate
    | |- _ = false => reflexivity
    | |- True => exact I
    | |- _ => progress cbn
    end.

(** X24.  [mergeDeep(target, source)] returns, and returns its target,
    whenever the target is an object and the source is a tree of objects of
    depth [d] at most that does not contain the target and has no
    [__proto__] key: [2 + d] units of fuel, or more, are enough.  The
    recursion only ever descends into the source with a fresh object as its
    target. *)
Theorem mergeDeep_returns_on_trees (d n : nat) (lt : loc) (source : value)
    (h : heap) :
  is_Some (h !! lt) → tree d h lt source →
  ∃ h', mergeDeep (2 + d + n) (VRef lt) [source] h = Ok (VRef lt, h').
Proof. apply mergeDeep_tree. Qed.

Lemma mergeDeep_returns_on_trees_witness :
  ∃ h', mergeDeep 4 (VRef 0) [VRef 2] familyHeap = Ok (VRef 0, h').
Proof.
  apply (mergeDeep_returns_on_trees 2 0 0 (VRef 2) familyHeap).
  - eexists. reflexivity.
  - tree_shape.
Defined.

(** X25.  A theme that inherits a loaded theme resolves, and to the parent
    object, whenever the theme is a tree of depth [d] at most that does not
    contain its parent and has no [__proto__] key: [2 + d] units of fuel,
    or more, are enough for both merges. *)
Theorem resolveInheritedTheme_returns (d n : nat)
    (themeMap : list (string * value)) (themeName : string) (lc lp : loc)
    (oc : object) (v : value) (h : heap) :
  h !! lc = Some oc → own oc "inherits" = Some v →
  themeMap_get themeMap v = VRef lp → is_Some (h !! lp) →
  tree d h lp (VRef lc) →
  ∃ h', resolveInheritedTheme (2 + d + n) themeMap (themeName, VRef lc) h
        = Ok ((themeName, VRef lp), h').
Proof.
  intros Hlc Hown Hget Hlp Htree.
  destruct (mergeDeep_tree d n lp (VRef lc) h Hlp Htree) as (h1 & Hfirst).
  pose proof (mergeDeep_effect _ _ _ _ _ _ Hfirst)
    as (_ & Hlen & Hoth & Htgt).
  assert (Hlp1 : is_Some (h1 !! lp)).
  { destruct Hlp as [op Hlp].
    destruct (Htgt lp op eq_refl Hlp) as (o & Ho & _). now exists o. }
  assert (Htree1 : tree d h1 lp (VRef lc)).
  { eapply tree_frame; [| exact Htree].
    intros l o Hl Hl'.
    split; [apply Hoth; [exact Hl | congruence] | exact Hl']. }
  destruct (mergeDeep_tree d n lp (VRef lc) h1 Hlp1 Htree1)
    as (h2 & Hsecond).
  exists h2. unfold resolveInheritedTheme.
  rewrite bind_run, (hasProp_own _ _ _ _ _ Hlc Hown).
  rewrite bind_run, (getProp_ref _ _ _ _ Hlc).
  rewrite (lookup_property_own _ _ _ Hown), Hget.
  rewrite bind_run, Hfirst, bind_run, Hsecond. reflexivity.
Qed.

Lemma resolveInheritedTheme_returns_witness :
  ∃ h', resolveInheritedTheme 4 familyMap ("child", VRef 2) familyHeap
        = Ok (("child", VRef 0), h').
Proof.
  apply (resolveInheritedTheme_returns 2 0 familyMap "child" 2 0
           [("inherits", VStr "parent"); ("keyword", VStr "#ff0000");
            ("type", VRef 3); ("comment", VRef 4)]
           (VStr "parent") familyHeap eq_refl eq_refl eq_refl).
  - eexists. reflexivity.
  - tree_shape.
Defined.
